(** * Price ingestion and best-price aggregation (main.go)

    A shallow embedding of the event handlers [handleUniswapEvent] and
    [handleCurveEvent] and of [updatePriceCache], together with the part of
    Go's [math/big] arithmetic they run on.

    - [big.Int] values are [Z]; Go's [int] is a 64-bit integer whose
      wrap-around is written out ([wrap64]).
    - A [big.Float] is a precision and a value: a signed zero, a signed
      infinity, or a signed dyadic number [m * 2^e] with [m] odd.  [Mul] and
      [Quo] round to nearest, ties to even, at the precision of the result,
      and report the [ErrNaN] panics of the library as [None].
    - The two caches are finite maps from pair keys to buckets (lists, in
      insertion order) and to best-price entries.
    - The results of calls that leave the program (the ABI unpacking, the
      four readings of the clock, [math.Log] on a finite positive argument)
      are inputs of the model. *)

From stdpp Require Import gmap strings list fin_maps.
From Stdlib Require Import ZArith QArith Qabs Qpower Lia Lqa.

Local Open Scope Z_scope.

(** ** Integers *)

Module GoInt.

(** Go's [int] on a 64-bit platform: two's complement wrap-around. *)
Definition wrap64 (z : Z) : Z := (z + 2 ^ 63) mod 2 ^ 64 - 2 ^ 63.

Definition sub (a b : Z) : Z := wrap64 (a - b).
Definition neg (a : Z) : Z := wrap64 (- a).

(** [x.BitLen()]: the length of [|x|] in bits; 0 for 0. *)
Definition BitLen (x : Z) : Z :=
  if x =? 0 then 0 else Z.log2 (Z.abs x) + 1.

(** [new(big.Int).Exp(x, y, nil)]: [x**y], and 1 when [y <= 0]. *)
Definition Exp (x y : Z) : Z := if y <=? 0 then 1 else x ^ y.

End GoInt.

(** ** Arbitrary-precision binary floating point ([big.Float]) *)

Module BigFloat.

Inductive Value : Type :=
| Zero (neg : bool)
| Inf (neg : bool)
| Finite (neg : bool) (m : positive) (e : Z).

Record Float : Type := mkFloat { prec : Z; val : Value }.

Definition MaxExp : Z := 2 ^ 31 - 1.
Definition MinExp : Z := - 2 ^ 31.

Definition bitlen (m : positive) : Z := Z.log2 (Z.pos m) + 1.

(** The exponent the library stores: the value lies in
    [[2^(exp-1), 2^exp)]. *)
Definition gexp (m : positive) (e : Z) : Z := bitlen m + e.

(** Trailing zero bits move into the exponent, so that equal values are
    equal terms. *)
Fixpoint normalize (m : positive) (e : Z) : positive * Z :=
  match m with
  | xO m' => normalize m' (e + 1)
  | _ => (m, e)
  end.

Definition finite (neg : bool) (m : positive) (e : Z) : Value :=
  let '(m', e') := normalize m e in Finite neg m' e'.

(** [z.round(sbit)] on the mantissa: [m] (followed by a non-zero fraction
    when [sbit] is set) is cut to [p] bits, to nearest, ties to even.  The
    result is the new mantissa and the number of bits dropped. *)
Definition roundMant (p : Z) (m : positive) (sbit : bool) : Z * Z :=
  let bits := bitlen m in
  if bits <=? p then (Z.pos m, 0)
  else
    let r := bits - p - 1 in
    let rbit := Z.testbit (Z.pos m) r in
    let sticky := sbit || negb (Z.pos m mod 2 ^ r =? 0) in
    let q := Z.shiftr (Z.pos m) (r + 1) in
    let inc := rbit && (sticky || Z.odd q) in
    ((if inc then q + 1 else q), r + 1).

(** [z.setExpAndRound(exp, sbit)]: underflow to zero and overflow to
    infinity on the exponent before rounding, then rounding, whose carry
    may overflow once more. *)
Definition setExpAndRound (p : Z) (neg : bool) (m : positive) (e : Z)
    (sbit : bool) : Value :=
  let exp := gexp m e in
  if exp <? MinExp then Zero neg
  else if exp >? MaxExp then Inf neg
  else
    let '(q, s) := roundMant p m sbit in
    match q with
    | Z.pos q' =>
        if gexp q' (e + s) >? MaxExp then Inf neg else finite neg q' (e + s)
    | _ => Zero neg
    end.

(** [new(big.Float).SetInt(x)]: precision [max(x.BitLen(), 64)]. *)
Definition SetInt (x : Z) : Float :=
  let p := Z.max (GoInt.BitLen x) 64 in
  mkFloat p
    match x with
    | Z0 => Zero false
    | Z.pos m => setExpAndRound p false m 0 false
    | Z.neg m => setExpAndRound p true m 0 false
    end.

(** [z.prec = umax32(x.prec, y.prec)] for a fresh [z]. *)
Definition resultPrec (x y : Float) : Z := Z.max (prec x) (prec y).

(** [new(big.Float).Mul(x, y)]; [None] is the panic
    "multiplication of zero with infinity". *)
Definition Mul (x y : Float) : option Float :=
  let p := resultPrec x y in
  match val x, val y with
  | Finite n1 m1 e1, Finite n2 m2 e2 =>
      Some (mkFloat p
              (setExpAndRound p (xorb n1 n2) (m1 * m2) (e1 + e2) false))
  | Zero _, Inf _ | Inf _, Zero _ => None
  | Inf n1, Inf n2 | Inf n1, Finite n2 _ _ | Finite n1 _ _, Inf n2 =>
      Some (mkFloat p (Inf (xorb n1 n2)))
  | Zero n1, Zero n2 | Zero n1, Finite n2 _ _ | Finite n1 _ _, Zero n2 =>
      Some (mkFloat p (Zero (xorb n1 n2)))
  end.

(** The mantissa division of [uquo]: the dividend is extended until the
    quotient has more than [p] bits; a non-zero remainder is the sticky
    bit. *)
Definition uquo (p : Z) (neg : bool) (m1 : positive) (e1 : Z)
    (m2 : positive) (e2 : Z) : Value :=
  let k := Z.max 0 (p + 1 + bitlen m2 - bitlen m1) in
  let n := Z.pos m1 * 2 ^ k in
  match n / Z.pos m2 with
  | Z.pos q => setExpAndRound p neg q (e1 - e2 - k)
                 (negb (n mod Z.pos m2 =? 0))
  | _ => Zero neg
  end.

(** [new(big.Float).Quo(x, y)]; [None] is the panic
    "division of zero by zero or infinity by infinity". *)
Definition Quo (x y : Float) : option Float :=
  let p := resultPrec x y in
  match val x, val y with
  | Finite n1 m1 e1, Finite n2 m2 e2 =>
      Some (mkFloat p (uquo p (xorb n1 n2) m1 e1 m2 e2))
  | Zero _, Zero _ | Inf _, Inf _ => None
  | Zero n1, Inf n2 | Zero n1, Finite n2 _ _ | Finite n1 _ _, Inf n2 =>
      Some (mkFloat p (Zero (xorb n1 n2)))
  | Finite n1 _ _, Zero n2 | Inf n1, Zero n2 | Inf n1, Finite n2 _ _ =>
      Some (mkFloat p (Inf (xorb n1 n2)))
  end.

(** [new(big.Float).Neg(x)]: a copy of [x] with the sign flipped. *)
Definition Neg (x : Float) : Float :=
  mkFloat (prec x)
    match val x with
    | Zero n => Zero (negb n)
    | Inf n => Inf (negb n)
    | Finite n m e => Finite (negb n) m e
    end.

(** [x.ord()]: -2 for -Inf, -1 for negative, 0 for either zero, 1 for
    positive, 2 for +Inf. *)
Definition ord (v : Value) : Z :=
  match v with
  | Zero _ => 0
  | Inf n => if n then -2 else 2
  | Finite n _ _ => if n then -1 else 1
  end.

(** [x.ucmp(y)]: the magnitudes of two finite non-zero values. *)
Definition ucmp (m1 : positive) (e1 : Z) (m2 : positive) (e2 : Z)
  : comparison :=
  let e := Z.min e1 e2 in
  (Z.pos m1 * 2 ^ (e1 - e)) ?= (Z.pos m2 * 2 ^ (e2 - e)).

(** [x.Cmp(y)]. *)
Definition Cmp (x y : Float) : comparison :=
  match ord (val x) ?= ord (val y) with
  | Eq =>
      match val x, val y with
      | Finite n m1 e1, Finite _ m2 e2 =>
          if n then ucmp m2 e2 m1 e1 else ucmp m1 e1 m2 e2
      | _, _ => Eq
      end
  | c => c
  end.

End BigFloat.

(** ** The [float64] detour of the logarithm *)

Module Float64.

Import BigFloat.

Inductive float64 : Type :=
| NaN
| F64Inf (neg : bool)
| F64Zero (neg : bool)
| F64Fin (neg : bool) (m : positive) (e : Z).

(** The exponent of a [Float] is an [int32], and so is [x.exp - 1]: it
    wraps around. *)
Definition wrap32 (z : Z) : Z := (z + 2 ^ 31) mod 2 ^ 32 - 2 ^ 31.

(** [x.Float64()]: the nearest [float64]; denormals have fewer than 53
    bits, values below half the smallest denormal become a zero, values
    beyond the largest exponent an infinity.  The library computes
    [e := x.exp - 1] in [int32], before and after rounding: at the exponent
    [MinExp] it wraps to the largest [int32], the number is taken for a
    normal one and comes out as an infinity; when the rounding to 53 bits
    carries there, [e] is [MinExp] after it, the mantissa is shifted out
    whole and the result is a zero. *)
Definition ofFloat (x : Float) : float64 :=
  match val x with
  | Zero n => F64Zero n
  | Inf n => F64Inf n
  | Finite n m0 e0 =>
      let '(m, e) := normalize m0 e0 in
      let ex := wrap32 (gexp m e - 1) in
      let p := if ex <? -1022 then 1075 + ex else 53 in
      if (p <? 0) || ((p =? 0) && (m =? 1)%positive) then F64Zero n
      else if p =? 0 then F64Fin n 1 (-1074)
      else
        match setExpAndRound p n m e false with
        | Finite n' m' e' =>
            let er := wrap32 (gexp m' e' - 1) in
            if er >? 1023 then F64Inf n
            else if (er <? -1022) && (1075 + er <=? 0) then F64Zero n
            else F64Fin n' m' e'
        | Inf _ => F64Inf n
        | Zero _ => F64Zero n
        end
  end.

Section Log.

(** [math.Log] at a finite, strictly positive argument [m * 2^e]; the
    result, a finite number, is given as a signed mantissa and an
    exponent. *)
Variable ln64 : positive -> Z -> Z * Z.

(** [math.Log(x)], with the special cases of the library:
    [Log(+Inf) = +Inf], [Log(0) = -Inf], [Log(x < 0) = NaN],
    [Log(NaN) = NaN]. *)
Definition Log (x : float64) : float64 :=
  match x with
  | NaN => NaN
  | F64Inf false => F64Inf false
  | F64Inf true => NaN
  | F64Zero _ => F64Inf true
  | F64Fin true _ _ => NaN
  | F64Fin false m e =>
      match ln64 m e with
      | (Z0, _) => F64Zero false
      | (Z.pos r, re) => F64Fin false r re
      | (Z.neg r, re) => F64Fin true r re
      end
  end.

End Log.

(** [new(big.Float).SetFloat64(x)]: precision 53; [None] is the panic
    [ErrNaN]. *)
Definition SetFloat64 (x : float64) : option Float :=
  match x with
  | NaN => None
  | F64Inf n => Some (mkFloat 53 (Inf n))
  | F64Zero n => Some (mkFloat 53 (Zero n))
  | F64Fin n m e => Some (mkFloat 53 (finite n m e))
  end.

(** [big.NewFloat(1)]. *)
Definition NewFloat_1 : Float := mkFloat 53 (Finite false 1 0).

End Float64.

(** ** Pools, price records and the two caches *)

Record PoolConfig : Type := mkPool {
  Address : string;
  Token0 : string;
  Token1 : string;
  Token0Addr : N;
  Token1Addr : N;
  Decimals0 : Z;
  Decimals1 : Z;
  Type_ : string
}.

Record PriceInfo : Type := mkPriceInfo {
  DexType : string;
  PoolAddr : string;
  Price : BigFloat.Float;
  LogPrice : BigFloat.Float;
  UpdatedAt : Z
}.

Record BestPriceInfo : Type := mkBest {
  Forward : option PriceInfo;
  Reverse : option PriceInfo;
  BestUpdatedAt : Z
}.

(** [&BestPriceInfo{}] *)
Definition emptyBest : BestPriceInfo := mkBest None None 0.

Record Caches : Type := mkCaches {
  priceCache : gmap string (list PriceInfo);
  bestPriceCache : gmap string BestPriceInfo
}.

(** The state of a fresh process: both maps made empty. *)
Definition initCaches : Caches := mkCaches ∅ ∅.

(** The four readings of [time.Now().Unix()] of one update, in the order of
    the source: the forward record, the reverse record, the two refreshes
    of a best-price entry. *)
Record Clock : Type := mkClock {
  nowForward : Z;
  nowReverse : Z;
  nowBestForward : Z;
  nowBestReverse : Z
}.

(** A call either returns, with a new state, or panics and takes the
    process down. *)
Inductive Result (A : Type) : Type :=
| Returned (a : A)
| Panicked (why : string).
Arguments Returned {A} a.
Arguments Panicked {A} why.

(** [fmt.Sprintf("%s_%s", a, b)] *)
Definition pairKey (a b : string) : string := a +:+ "_" +:+ b.

Definition forwardPair (pool : PoolConfig) : string :=
  pairKey (Token0 pool) (Token1 pool).
Definition reversePair (pool : PoolConfig) : string :=
  pairKey (Token1 pool) (Token0 pool).

(** The bucket of a key; an absent key reads as the empty slice. *)
Definition bucket (k : string) (pc : gmap string (list PriceInfo))
  : list PriceInfo := default [] (pc !! k).

(** The removal loop: the first record of the pool is cut out, and the loop
    breaks. *)
Fixpoint removePool (addr : string) (l : list PriceInfo) : list PriceInfo :=
  match l with
  | [] => []
  | info :: rest =>
      if String.eqb (PoolAddr info) addr then rest
      else info :: removePool addr rest
  end.

(** One direction of the cache update: make the bucket if absent, remove
    the pool's record, append the new one. *)
Definition putRecord (k : string) (addr : string) (info : PriceInfo)
    (pc : gmap string (list PriceInfo)) : gmap string (list PriceInfo) :=
  <[k := removePool addr (bucket k pc) ++ [info]]> pc.

(** [a.Cmp(b) > 0] *)
Definition cmpGt (a b : BigFloat.Float) : bool :=
  match BigFloat.Cmp a b with Gt => true | _ => false end.

Section Pipeline.

Variable ln64 : positive -> Z -> Z * Z.

(** [price64, _ := price.Float64()] followed by
    [new(big.Float).SetFloat64(math.Log(price64))]. *)
Definition logOf (price : BigFloat.Float) : option BigFloat.Float :=
  Float64.SetFloat64 (Float64.Log ln64 (Float64.ofFloat price)).

(** "Update best price cache", forward direction: the entry of the key is
    made if absent; its [Forward] record and its time are replaced when it
    holds no [Forward] record or the incoming [LogPrice] compares greater
    than the held one. *)
Definition bestForwardStep (k : string) (info : PriceInfo) (now : Z)
    (bc : gmap string BestPriceInfo) : gmap string BestPriceInfo :=
  let best := default emptyBest (bc !! k) in
  let replace :=
    match Forward best with
    | None => true
    | Some old => cmpGt (LogPrice info) (LogPrice old)
    end in
  <[k := if replace
         then mkBest (Some info) (Reverse best) now
         else best]> bc.

(** The same for the [Reverse] record of the entry of the reverse key. *)
Definition bestReverseStep (k : string) (info : PriceInfo) (now : Z)
    (bc : gmap string BestPriceInfo) : gmap string BestPriceInfo :=
  let best := default emptyBest (bc !! k) in
  let replace :=
    match Reverse best with
    | None => true
    | Some old => cmpGt (LogPrice info) (LogPrice old)
    end in
  <[k := if replace
         then mkBest (Forward best) (Some info) now
         else best]> bc.

(** [updatePriceCache], under [cacheMutex] from its first line to its
    last: the logarithm, the forward record and its bucket, the reverse
    price and record and their bucket, then the two best-price entries. *)
Definition updatePriceCache (clk : Clock) (pool : PoolConfig)
    (price : BigFloat.Float) (dexType : string) (st : Caches)
  : Result Caches :=
  match logOf price with
  | None => Panicked "Float.SetFloat64(NaN)"
  | Some logPrice =>
      let priceInfo :=
        mkPriceInfo dexType (Address pool) price logPrice (nowForward clk) in
      let pc1 :=
        putRecord (forwardPair pool) (Address pool) priceInfo
          (priceCache st) in
      match BigFloat.Quo Float64.NewFloat_1 price with
      | None => Panicked "division of zero by zero or infinity by infinity"
      | Some reversePrice =>
          let reverseLogPrice := BigFloat.Neg logPrice in
          let reversePriceInfo :=
            mkPriceInfo dexType (Address pool) reversePrice reverseLogPrice
              (nowReverse clk) in
          let pc2 :=
            putRecord (reversePair pool) (Address pool) reversePriceInfo
              pc1 in
          let bc1 :=
            bestForwardStep (forwardPair pool) priceInfo
              (nowBestForward clk) (bestPriceCache st) in
          let bc2 :=
            bestReverseStep (reversePair pool) reversePriceInfo
              (nowBestReverse clk) bc1 in
          Returned (mkCaches pc2 bc2)
      end
  end.

End Pipeline.

(** ** The two event handlers *)

(** The fields [UnpackIntoInterface] fills for a "Swap" log. *)
Record SwapEvent : Type := mkSwap {
  Amount0 : Z;
  Amount1 : Z;
  SqrtPriceX96 : Z;
  Liquidity : Z;
  Tick : Z
}.

(** The fields [UnpackIntoInterface] fills for a "TokenExchange" log. *)
Record TokenExchange : Type := mkExchange {
  Buyer : N;
  SoldID : Z;
  TokensSold : Z;
  BoughtID : Z;
  TokensBought : Z
}.

(** What [UnpackIntoInterface] hands back for the payload of a log: the
    decoded fields, or an error. *)
Inductive Unpacked (E : Type) : Type :=
| Decoded (event : E)
| UnpackError (err : string).
Arguments Decoded {E} event.
Arguments UnpackError {E} err.

(** The line a handler writes to the logger. *)
Inductive LogLine : Type :=
| FailedToUnpack (dex : string) (err : string)
| UniswapPriceUpdate (token0 token1 : string) (price : BigFloat.Float)
    (tick : Z)
| CurvePriceUpdate (token0 token1 : string) (price : BigFloat.Float)
    (soldID boughtID : Z)
| SubscriptionError (poolAddr : string) (err : string).

Module Decoder.

Import BigFloat.

(** [price = (SqrtPriceX96 / 2^96)^2], then the decimal adjustment on the
    sign of [Decimals0 - Decimals1].  [None] is a panic of the
    arithmetic. *)
Definition uniswapPrice (pool : PoolConfig) (event : SwapEvent)
  : option Float :=
  let sqrtPrice := SetInt (SqrtPriceX96 event) in
  let divisor := SetInt (GoInt.Exp 2 96) in
  sqrtPriceFloat ← Quo sqrtPrice divisor;
  price ← Mul sqrtPriceFloat sqrtPriceFloat;
  let decimalsDiff := GoInt.sub (Decimals0 pool) (Decimals1 pool) in
  if decimalsDiff >? 0 then
    let adjustment := SetInt (GoInt.Exp 10 decimalsDiff) in
    Mul price adjustment
  else if decimalsDiff <? 0 then
    let adjustment := SetInt (GoInt.Exp 10 (GoInt.neg decimalsDiff)) in
    Quo price adjustment
  else Some price.

(** [price = TokensSold / TokensBought], then the decimal adjustment when
    [Decimals1 - Decimals0] is not zero. *)
Definition curvePrice (pool : PoolConfig) (event : TokenExchange)
  : option Float :=
  price ← Quo (SetInt (TokensSold event)) (SetInt (TokensBought event));
  let decimalsDiff := GoInt.sub (Decimals1 pool) (Decimals0 pool) in
  if negb (decimalsDiff =? 0) then
    let adjustment := SetInt (GoInt.Exp 10 decimalsDiff) in
    Mul price adjustment
  else Some price.

End Decoder.

(** A line written before the rest of a run. *)
Definition logged (line : LogLine) (r : Result (Caches * list LogLine))
  : Result (Caches * list LogLine) :=
  match r with
  | Returned (st, out) => Returned (st, line :: out)
  | Panicked why => Panicked why
  end.

Section Handlers.

Variable ln64 : positive -> Z -> Z * Z.

Definition handleUniswapEvent (clk : Clock)
    (unpacked : Unpacked SwapEvent) (pool : PoolConfig) (st : Caches)
  : Result (Caches * LogLine) :=
  match unpacked with
  | UnpackError err => Returned (st, FailedToUnpack "Uniswap" err)
  | Decoded event =>
      match Decoder.uniswapPrice pool event with
      | None => Panicked "big.ErrNaN"
      | Some price =>
          match updatePriceCache ln64 clk pool price "uniswap" st with
          | Panicked why => Panicked why
          | Returned st' =>
              Returned (st', UniswapPriceUpdate (Token0 pool) (Token1 pool)
                               price (Tick event))
          end
      end
  end.

Definition handleCurveEvent (clk : Clock)
    (unpacked : Unpacked TokenExchange) (pool : PoolConfig) (st : Caches)
  : Result (Caches * LogLine) :=
  match unpacked with
  | UnpackError err => Returned (st, FailedToUnpack "Curve" err)
  | Decoded event =>
      match Decoder.curvePrice pool event with
      | None => Panicked "big.ErrNaN"
      | Some price =>
          match updatePriceCache ln64 clk pool price "curve" st with
          | Panicked why => Panicked why
          | Returned st' =>
              Returned (st', CurvePriceUpdate (Token0 pool) (Token1 pool)
                               price (SoldID event) (BoughtID event))
          end
      end
  end.

(** What arrives at the goroutine of a subscription: an error of the
    subscription, or a log with the result of its unpacking and the clock
    readings of its handling. *)
Inductive Arrival (E : Type) : Type :=
| SubErr (err : string)
| Log (clk : Clock) (unpacked : Unpacked E).
Arguments SubErr {E} err.
Arguments Log {E} clk unpacked.

(** The loop of [subscribeToUniswapPool] and [subscribeToCurvePool] over
    the arrivals, in order: it goes on after every arrival a handler
    returns from, and ends only with the arrivals or in a panic. *)
Fixpoint subscriptionLoop {E : Type}
    (handle : Clock -> Unpacked E -> PoolConfig -> Caches ->
              Result (Caches * LogLine))
    (poolAddr : string) (pool : PoolConfig) (arrivals : list (Arrival E))
    (st : Caches) : Result (Caches * list LogLine) :=
  match arrivals with
  | [] => Returned (st, [])
  | SubErr err :: rest =>
      logged (SubscriptionError poolAddr err)
        (subscriptionLoop handle poolAddr pool rest st)
  | Log clk unpacked :: rest =>
      match handle clk unpacked pool st with
      | Panicked why => Panicked why
      | Returned (st1, line) =>
          logged line (subscriptionLoop handle poolAddr pool rest st1)
      end
  end.

End Handlers.

Arguments SubErr {E} err.
Arguments Log {E} clk unpacked.

(** ** Exact values

    The value of a [big.Float] as a rational number, and what the proofs
    say about a result: that it is well formed, that it is finite and
    strictly positive with its exponent between two bounds, that it lies
    within a relative error of a number. *)

(** [2^e], for an exponent of either sign. *)
Definition pow2 (e : Z) : Q := Qpower 2 e.

Definition F2Q (v : BigFloat.Value) : Q :=
  match v with
  | BigFloat.Finite n m e =>
      ((if n then inject_Z (Z.neg m) else inject_Z (Z.pos m)) * pow2 e)%Q
  | _ => 0%Q
  end.

(** [u] is within the relative error [d] of [v]. *)
Definition relErr (u v d : Q) : Prop := (Qabs (u - v) <= v * d)%Q.

(** A value as the library keeps it at precision [p]: a finite one has an
    odd mantissa of at most [p] bits and its exponent in range. *)
Definition wfValue (p : Z) (v : BigFloat.Value) : Prop :=
  match v with
  | BigFloat.Finite _ m e =>
      Z.odd (Z.pos m) = true /\ BigFloat.bitlen m <= p /\
      BigFloat.MinExp <= BigFloat.gexp m e <= BigFloat.MaxExp
  | _ => True
  end.

(** A finite, strictly positive, well-formed number whose exponent lies
    between [lo] and [hi]. *)
Definition posFinite (x : BigFloat.Float) (lo hi : Z) : Prop :=
  exists m e,
    BigFloat.val x = BigFloat.Finite false m e /\
    lo <= BigFloat.gexp m e <= hi /\
    Z.odd (Z.pos m) = true /\ BigFloat.bitlen m <= BigFloat.prec x.

(** The relative error of one rounding at 97 bits or more. *)
Definition eps0 : Q := pow2 (-97).

(** A Swap event as a pool emits it and a configuration as a token
    contract allows it: [sqrtPriceX96] is a non-zero [uint160], the
    decimals are [uint8]. *)
Definition validSwap (pool : PoolConfig) (event : SwapEvent) : Prop :=
  0 < SqrtPriceX96 event < 2 ^ 160 /\
  0 <= Decimals0 pool <= 255 /\ 0 <= Decimals1 pool <= 255.

(** The forward price in the words of the specification, computed with the
    operations of [big.Float]: the square of [sqrtPriceX96 / 2^96],
    multiplied by [10^(decimals0 - decimals1)] if [decimals0 > decimals1],
    divided by [10^(decimals1 - decimals0)] if [decimals0 < decimals1]. *)
Definition specForwardPrice (sqrtPriceX96 decimals0 decimals1 : Z)
  : option BigFloat.Float :=
  ratio ← BigFloat.Quo (BigFloat.SetInt sqrtPriceX96)
            (BigFloat.SetInt (2 ^ 96));
  raw ← BigFloat.Mul ratio ratio;
  if decimals0 >? decimals1 then
    BigFloat.Mul raw (BigFloat.SetInt (10 ^ (decimals0 - decimals1)))
  else if decimals0 <? decimals1 then
    BigFloat.Quo raw (BigFloat.SetInt (10 ^ (decimals1 - decimals0)))
  else Some raw.

(** The forward price of the specification, in exact arithmetic:
    [(sqrtPriceX96 / 2^96)^2 * 10^(decimals0 - decimals1)]. *)
Definition exactForwardPrice (sqrtPriceX96 decimals0 decimals1 : Z) : Q :=
  let r := (inject_Z sqrtPriceX96 / inject_Z (2 ^ 96))%Q in
  (r * r * Qpower 10 (decimals0 - decimals1))%Q.

(** ** Reading the caches *)

(** The record a best-price entry holds for a key, per direction; an absent
    entry holds none. *)
Definition bestForward (k : string) (st : Caches) : option PriceInfo :=
  bestPriceCache st !! k ≫= Forward.
Definition bestReverse (k : string) (st : Caches) : option PriceInfo :=
  bestPriceCache st !! k ≫= Reverse.

(** The comparison of the source: the incoming record takes the place of
    the held one when there is none, or when its [LogPrice] is greater. *)
Definition keepGreater (held : option PriceInfo) (new : PriceInfo)
  : PriceInfo :=
  match held with
  | None => new
  | Some old => if cmpGt (LogPrice new) (LogPrice old) then new else old
  end.

(** The records of a pool in a list. *)
Definition recordsOf (addr : string) (l : list PriceInfo) : list PriceInfo :=
  List.filter (fun info => String.eqb (PoolAddr info) addr) l.

(** A stand-in for [math.Log] to run the model on examples: the integer
    part of the binary logarithm. *)
Definition log2Floor (m : positive) (e : Z) : Z * Z :=
  (Z.log2 (Z.pos m) + e, 0).

(** Statements about every [math.Log]. *)
Definition forEveryLog (P : (positive -> Z -> Z * Z) -> Prop) : Prop :=
  forall ln64, P ln64.

(** The caches a handler leaves, when it returns. *)
Definition cachesOf (r : Result (Caches * LogLine)) : option Caches :=
  match r with
  | Returned (st, _) => Some st
  | Panicked _ => None
  end.

(** The pool addresses of a bucket, in order. *)
Definition poolAddrs (l : list PriceInfo) : list string := PoolAddr <$> l.

(** The states a process goes through: the empty caches of its start, and
    the caches after every update that returned.  The updates of all
    subscriptions run one at a time, under [cacheMutex]. *)
Inductive reachable (ln64 : positive -> Z -> Z * Z) : Caches -> Prop :=
| reachable_init : reachable ln64 initCaches
| reachable_update clk pool price dex st st' :
    reachable ln64 st ->
    updatePriceCache ln64 clk pool price dex st = Returned st' ->
    reachable ln64 st'.

(** No bucket holds two records of one pool. *)
Definition uniquePools (pc : gmap string (list PriceInfo)) : Prop :=
  forall k, NoDup (poolAddrs (bucket k pc)).

(** ** Runs of the handlers *)

(** One call of a handler, by the goroutine of some subscription. *)
Inductive Call : Type :=
| UniswapCall (clk : Clock) (unpacked : Unpacked SwapEvent)
    (pool : PoolConfig)
| CurveCall (clk : Clock) (unpacked : Unpacked TokenExchange)
    (pool : PoolConfig).

(** The calls of all subscriptions in the order they take [cacheMutex]. *)
Fixpoint run (ln64 : positive -> Z -> Z * Z) (calls : list Call)
    (st : Caches) : Result (Caches * list LogLine) :=
  match calls with
  | [] => Returned (st, [])
  | call :: rest =>
      let r :=
        match call with
        | UniswapCall clk unpacked pool =>
            handleUniswapEvent ln64 clk unpacked pool st
        | CurveCall clk unpacked pool =>
            handleCurveEvent ln64 clk unpacked pool st
        end in
      match r with
      | Panicked why => Panicked why
      | Returned (st1, line) => logged line (run ln64 rest st1)
      end
  end.

(** [math.Log(a) < math.Log(b)], as the update computes and compares the
    two logarithms. *)
Definition logLt (ln64 : positive -> Z -> Z * Z) (a b : BigFloat.Float)
  : Prop :=
  exists la lb,
    logOf ln64 a = Some la /\ logOf ln64 b = Some lb /\
    BigFloat.Cmp la lb = Lt.

(** The full scan of a bucket for its record of greatest [LogPrice]; of
    equal ones, the earlier stays. *)
Definition scanBest (l : list PriceInfo) : option PriceInfo :=
  fold_left (fun best info => Some (keepGreater best info)) l None.

(** Two pools of the same pair and orientation, and the readings of the
    clock of a call. *)
Module Ex.

Definition P1 : PoolConfig := mkPool "0xP1" "A" "B" 1 2 18 18 "uniswap".
Definition P2 : PoolConfig := mkPool "0xP2" "A" "B" 1 2 18 18 "uniswap".

(** A Curve pool of the same pair. *)
Definition Crv : PoolConfig := mkPool "0xC1" "A" "B" 1 2 18 18 "curve".

Definition at_ (t : Z) : Clock := mkClock t t t t.

Definition swap (sqrtPriceX96 : Z) : Unpacked SwapEvent :=
  Decoded (mkSwap 0 0 sqrtPriceX96 0 0).

(** The prices 16, 4 and 1 as the Uniswap decoder computes them from the
    square roots [2^98], [2^97] and [2^96]. *)
Definition p16 : BigFloat.Float :=
  BigFloat.mkFloat 99 (BigFloat.Finite false 1 4).
Definition p4 : BigFloat.Float :=
  BigFloat.mkFloat 98 (BigFloat.Finite false 1 2).
Definition p1 : BigFloat.Float :=
  BigFloat.mkFloat 97 (BigFloat.Finite false 1 0).

End Ex.

(** ** Sequences of updates *)

(** [a.Cmp(b) >= 0] *)
Definition cmpGe (a b : BigFloat.Float) : Prop := (BigFloat.Cmp a b) <> Lt.

(** One call of [updatePriceCache]: its three arguments and the readings
    of the clock it makes. *)
Record Update : Type := mkUpdate {
  clockOf : Clock;
  poolOf : PoolConfig;
  priceOf : BigFloat.Float;
  dexOf : string
}.

(** The calls of [updatePriceCache] in the order they take [cacheMutex];
    a panic of one ends the process. *)
Fixpoint updateAll (ln64 : positive -> Z -> Z * Z) (us : list Update)
    (st : Caches) : Result Caches :=
  match us with
  | [] => Returned st
  | u :: rest =>
      match updatePriceCache ln64 (clockOf u) (poolOf u) (priceOf u)
              (dexOf u) st with
      | Panicked why => Panicked why
      | Returned st1 => updateAll ln64 rest st1
      end
  end.

(** What a sequence of updates reports: the pool and the price of each. *)
Definition reports (us : list Update) : list (PoolConfig * BigFloat.Float) :=
  (fun u => (poolOf u, priceOf u)) <$> us.

(** Two best records, or none on either side, of equal [LogPrice] under
    [Cmp]. *)
Definition sameLogPrice (a b : option PriceInfo) : Prop :=
  match a, b with
  | Some x, Some y => BigFloat.Cmp (LogPrice x) (LogPrice y) = Eq
  | None, None => True
  | _, _ => False
  end.

(** The records of the other pools in a list, in order. *)
Definition othersOf (addr : string) (l : list PriceInfo) : list PriceInfo :=
  List.filter (fun info => negb (String.eqb (PoolAddr info) addr)) l.

(** The two maps hold the same keys; no bucket is empty and no best-price
    entry is without a record. *)
Definition sameKeys (st : Caches) : Prop :=
  forall k,
    (is_Some (priceCache st !! k) <-> is_Some (bestPriceCache st !! k)) /\
    (priceCache st !! k ≠ Some []) /\
    (forall best, bestPriceCache st !! k = Some best ->
       is_Some (Forward best) \/ is_Some (Reverse best)).

(** Two pools share no key. *)
Definition unrelated (p q : PoolConfig) : Prop :=
  forwardPair p ≠ forwardPair q /\ forwardPair p ≠ reversePair q /\
  reversePair p ≠ forwardPair q /\ reversePair p ≠ reversePair q.

(** Whether a token symbol holds the separator of the keys. *)
Fixpoint hasUnderscore (s : string) : bool :=
  match s with
  | EmptyString => false
  | String c rest => String.eqb (String c "") "_" || hasUnderscore rest
  end.

(** ** The handlers on the events of a chain *)

(** [x.Signbit()] *)
Definition Signbit (v : BigFloat.Value) : bool :=
  match v with
  | BigFloat.Zero n | BigFloat.Inf n | BigFloat.Finite n _ _ => n
  end.

(** [x.IsInf()] *)
Definition IsInf (v : BigFloat.Value) : bool :=
  match v with
  | BigFloat.Inf _ => true
  | _ => false
  end.

(** A TokenExchange event as a pool emits it and a configuration as a token
    contract allows it: the amounts are [uint256], the decimals [uint8]. *)
Definition validExchange (pool : PoolConfig) (event : TokenExchange) : Prop :=
  0 <= TokensSold event < 2 ^ 256 /\ 0 <= TokensBought event < 2 ^ 256 /\
  0 <= Decimals0 pool <= 255 /\ 0 <= Decimals1 pool <= 255.

(** The price of a TokenExchange event in exact arithmetic, with the
    adjustment the decoder makes: by [10^(decimals1 - decimals0)] when
    [decimals1 > decimals0], by 1 otherwise. *)
Definition exactCurvePrice (sold bought decimals0 decimals1 : Z) : Q :=
  (inject_Z sold / inject_Z bought
   * inject_Z (if decimals0 <? decimals1 then 10 ^ (decimals1 - decimals0)
               else 1))%Q.

(** The pool and the price a handler passes to [updatePriceCache]; none
    for a log that does not decode, or when the arithmetic panics. *)
Definition callReport (call : Call) : option (PoolConfig * BigFloat.Float) :=
  match call with
  | UniswapCall _ (Decoded event) pool =>
      price ← Decoder.uniswapPrice pool event; Some (pool, price)
  | CurveCall _ (Decoded event) pool =>
      price ← Decoder.curvePrice pool event; Some (pool, price)
  | _ => None
  end.

(** A run without its log lines. *)
Definition cachesAfter (r : Result (Caches * list LogLine)) : Result Caches :=
  match r with
  | Returned (st, _) => Returned st
  | Panicked why => Panicked why
  end.

(** The arrivals that are logs. *)
Definition isLog {E : Type} (a : Arrival E) : bool :=
  match a with
  | Log _ _ => true
  | SubErr _ => false
  end.

(** ** The prices at the start *)

(** What the node answers to the two requests of [getUniswapPrice] and
    [getCurvePrice]: an error of [HeaderByNumber], an error of
    [FilterLogs], or the logs of the latest block, each with the result of
    its unpacking. *)
Inductive Fetched (E : Type) : Type :=
| HeaderError (err : string)
| FilterError (err : string)
| Logs (logs : list (Unpacked E)).
Arguments HeaderError {E} err.
Arguments FilterError {E} err.
Arguments Logs {E} logs.

(** The lines written at the start. *)
Inductive SeedLine : Type :=
| FailedToGetLatestBlock (poolAddr : string) (err : string)
| FailedToGetLogs (poolAddr : string) (err : string)
| HandlerLine (line : LogLine).

(** The body [getUniswapPrice] and [getCurvePrice] share: the two requests,
    then the handler on the last log of the block, if it has one. *)
Definition getLatestPrice {E : Type}
    (handle : Clock -> Unpacked E -> PoolConfig -> Caches ->
              Result (Caches * LogLine))
    (clk : Clock) (fetched : Fetched E) (poolAddr : string)
    (pool : PoolConfig) (st : Caches) : Result (Caches * list SeedLine) :=
  match fetched with
  | HeaderError err => Returned (st, [FailedToGetLatestBlock poolAddr err])
  | FilterError err => Returned (st, [FailedToGetLogs poolAddr err])
  | Logs logs =>
      match last logs with
      | None => Returned (st, [])
      | Some vLog =>
          match handle clk vLog pool st with
          | Panicked why => Panicked why
          | Returned (st', line) => Returned (st', [HandlerLine line])
          end
      end
  end.

Definition getUniswapPrice (ln64 : positive -> Z -> Z * Z) (clk : Clock)
    (fetched : Fetched SwapEvent) (poolAddr : string) (pool : PoolConfig)
    (st : Caches) : Result (Caches * list SeedLine) :=
  getLatestPrice (handleUniswapEvent ln64) clk fetched poolAddr pool st.

Definition getCurvePrice (ln64 : positive -> Z -> Z * Z) (clk : Clock)
    (fetched : Fetched TokenExchange) (poolAddr : string) (pool : PoolConfig)
    (st : Caches) : Result (Caches * list SeedLine) :=
  getLatestPrice (handleCurveEvent ln64) clk fetched poolAddr pool st.

(** One entry of [config.Pools] as the loop of [getInitialPrices] visits
    it: its key, the pool, what the node answers to a request for the Swap
    logs and for the TokenExchange logs of the key, and the readings of the
    clock of the update, if one is made. *)
Record Visit : Type := mkVisit {
  poolKey : string;
  visited : PoolConfig;
  swapLogs : Fetched SwapEvent;
  exchangeLogs : Fetched TokenExchange;
  visitClock : Clock
}.

(** [getInitialPrices] over the entries of [config.Pools] in the order the
    [range] yields them, which the language leaves open. *)
Fixpoint getInitialPrices (ln64 : positive -> Z -> Z * Z)
    (visits : list Visit) (st : Caches) : Result (Caches * list SeedLine) :=
  match visits with
  | [] => Returned (st, [])
  | v :: rest =>
      let r :=
        if String.eqb (Type_ (visited v)) "uniswap" then
          getUniswapPrice ln64 (visitClock v) (swapLogs v) (poolKey v)
            (visited v) st
        else if String.eqb (Type_ (visited v)) "curve" then
          getCurvePrice ln64 (visitClock v) (exchangeLogs v) (poolKey v)
            (visited v) st
        else Returned (st, []) in
      match r with
      | Panicked why => Panicked why
      | Returned (st1, out) =>
          match getInitialPrices ln64 rest st1 with
          | Panicked why => Panicked why
          | Returned (st', out') => Returned (st', out ++ out')
          end
      end
  end.

(** What the visit of one entry did: at most one update and at most one
    line; the update, if any, is of the pool of the entry, at the clock of
    the visit, under the type of the pool as name of the exchange, and its
    price is the one the decoder of that type computes from the last log
    of the block. *)
Definition seeded (v : Visit) (us : list Update) (lines : list SeedLine)
  : Prop :=
  (length us <= 1)%nat /\ (length lines <= 1)%nat /\
  forall u, u ∈ us ->
    poolOf u = visited v /\ clockOf u = visitClock v /\
    dexOf u = Type_ (visited v) /\
    ((Type_ (visited v) = "uniswap"%string /\
      exists logs event,
        swapLogs v = Logs logs /\ last logs = Some (Decoded event) /\
        Decoder.uniswapPrice (visited v) event = Some (priceOf u)) \/
     (Type_ (visited v) = "curve"%string /\
      exists logs event,
        exchangeLogs v = Logs logs /\ last logs = Some (Decoded event) /\
        Decoder.curvePrice (visited v) event = Some (priceOf u))).

(** A block without logs, or a request that failed. *)
Definition nothingFetched {E : Type} (fetched : Fetched E) : Prop :=
  match fetched with
  | Logs (_ :: _) => False
  | _ => True
  end.

(** Updates and visits to run the model on: the pools of [Ex] reporting
    the prices 16, 4 and 1, a pool of another pair, and three entries of a
    configuration. *)
Module ExRun.

Definition u16 : Update := mkUpdate (Ex.at_ 100) Ex.P1 Ex.p16 "uniswap".
Definition u4 : Update := mkUpdate (Ex.at_ 200) Ex.P2 Ex.p4 "uniswap".
Definition u1 : Update := mkUpdate (Ex.at_ 300) Ex.P1 Ex.p1 "uniswap".

Definition CD : PoolConfig := mkPool "0xD1" "C" "D" 3 4 6 18 "curve".

(** A pool of a type the process does not know. *)
Definition Bal : PoolConfig :=
  mkPool "0xB1" "A" "B" 1 2 18 18 "balancer".

Definition visits : list Visit :=
  [mkVisit "0xP1" Ex.P1 (Logs [Ex.swap (2 ^ 97); Ex.swap (2 ^ 98)])
     (Logs []) (Ex.at_ 100);
   mkVisit "0xC1" Ex.Crv (Logs [Ex.swap (2 ^ 97)]) (FilterError "timeout")
     (Ex.at_ 200);
   mkVisit "0xB1" Bal (Logs [Ex.swap (2 ^ 96)]) (Logs []) (Ex.at_ 300)].

Definition quiet : list Visit :=
  [mkVisit "0xP1" Ex.P1 (Logs []) (Logs []) (Ex.at_ 100);
   mkVisit "0xC1" Ex.Crv (HeaderError "EOF") (FilterError "timeout")
     (Ex.at_ 200)].

End ExRun.

(** * Proofs *)

(** ** The steps of an update *)

Section UpdateSteps.

Implicit Types (k : string) (info : PriceInfo) (bc : gmap string BestPriceInfo)
  (pc : gmap string (list PriceInfo)).

Lemma bestForwardStep_other k k' info now bc :
  k ≠ k' -> bestForwardStep k info now bc !! k' = bc !! k'.
Proof. intros Hne. unfold bestForwardStep. by rewrite lookup_insert_ne. Qed.

Lemma bestReverseStep_other k k' info now bc :
  k ≠ k' -> bestReverseStep k info now bc !! k' = bc !! k'.
Proof. intros Hne. unfold bestReverseStep. by rewrite lookup_insert_ne. Qed.

Lemma bestForwardStep_Forward k info now bc :
  bestForwardStep k info now bc !! k ≫= Forward
  = Some (keepGreater (bc !! k ≫= Forward) info).
Proof.
  unfold bestForwardStep. rewrite lookup_insert_eq.
  destruct (bc !! k) as [[[old|] r t]|]; simpl; try reflexivity.
  by destruct (cmpGt _ _).
Qed.

Lemma bestReverseStep_Reverse k info now bc :
  bestReverseStep k info now bc !! k ≫= Reverse
  = Some (keepGreater (bc !! k ≫= Reverse) info).
Proof.
  unfold bestReverseStep. rewrite lookup_insert_eq.
  destruct (bc !! k) as [[f [old|] t]|]; simpl; try reflexivity.
  by destruct (cmpGt _ _).
Qed.

(** The forward step leaves every [Reverse] field as it was. *)
Lemma bestForwardStep_Reverse k k' info now bc :
  bestForwardStep k info now bc !! k' ≫= Reverse = bc !! k' ≫= Reverse.
Proof.
  destruct (decide (k = k')) as [<-|Hne].
  - unfold bestForwardStep. rewrite lookup_insert_eq.
    destruct (bc !! k) as [[[old|] r t]|]; simpl; try reflexivity.
    by destruct (cmpGt _ _).
  - by rewrite bestForwardStep_other.
Qed.

(** The reverse step leaves every [Forward] field as it was. *)
Lemma bestReverseStep_Forward k k' info now bc :
  bestReverseStep k info now bc !! k' ≫= Forward = bc !! k' ≫= Forward.
Proof.
  destruct (decide (k = k')) as [<-|Hne].
  - unfold bestReverseStep. rewrite lookup_insert_eq.
    destruct (bc !! k) as [[f [old|] t]|]; simpl; try reflexivity.
    by destruct (cmpGt _ _).
  - by rewrite bestReverseStep_other.
Qed.

Lemma bucket_putRecord_eq k addr info pc :
  bucket k (putRecord k addr info pc)
  = removePool addr (bucket k pc) ++ [info].
Proof. unfold bucket at 1, putRecord. by rewrite lookup_insert_eq. Qed.

Lemma bucket_putRecord_ne k k' addr info pc :
  k ≠ k' -> bucket k' (putRecord k addr info pc) = bucket k' pc.
Proof.
  intros Hne. unfold bucket, putRecord. by rewrite lookup_insert_ne.
Qed.

End UpdateSteps.

(** What an update that returns has done, written out. *)
Lemma updatePriceCache_Returned ln64 clk pool price dex st st' :
  updatePriceCache ln64 clk pool price dex st = Returned st' ->
  exists logPrice reversePrice,
    logOf ln64 price = Some logPrice /\
    BigFloat.Quo Float64.NewFloat_1 price = Some reversePrice /\
    let priceInfo :=
      mkPriceInfo dex (Address pool) price logPrice (nowForward clk) in
    let reversePriceInfo :=
      mkPriceInfo dex (Address pool) reversePrice (BigFloat.Neg logPrice)
        (nowReverse clk) in
    priceCache st'
    = putRecord (reversePair pool) (Address pool) reversePriceInfo
        (putRecord (forwardPair pool) (Address pool) priceInfo
           (priceCache st)) /\
    bestPriceCache st'
    = bestReverseStep (reversePair pool) reversePriceInfo
        (nowBestReverse clk)
        (bestForwardStep (forwardPair pool) priceInfo (nowBestForward clk)
           (bestPriceCache st)).
Proof.
  unfold updatePriceCache. intros H.
  destruct (logOf ln64 price) as [logPrice|]; [|discriminate].
  destruct (BigFloat.Quo _ price) as [reversePrice|]; [|discriminate].
  injection H as <-. exists logPrice, reversePrice. simpl. auto.
Qed.

Lemma updatePriceCache_returns ln64 clk pool price dex st logPrice
    reversePrice :
  logOf ln64 price = Some logPrice ->
  BigFloat.Quo Float64.NewFloat_1 price = Some reversePrice ->
  updatePriceCache ln64 clk pool price dex st
  = Returned
      (mkCaches
         (putRecord (reversePair pool) (Address pool)
            (mkPriceInfo dex (Address pool) reversePrice
               (BigFloat.Neg logPrice) (nowReverse clk))
            (putRecord (forwardPair pool) (Address pool)
               (mkPriceInfo dex (Address pool) price logPrice
                  (nowForward clk))
               (priceCache st)))
         (bestReverseStep (reversePair pool)
            (mkPriceInfo dex (Address pool) reversePrice
               (BigFloat.Neg logPrice) (nowReverse clk))
            (nowBestReverse clk)
            (bestForwardStep (forwardPair pool)
               (mkPriceInfo dex (Address pool) price logPrice
                  (nowForward clk))
               (nowBestForward clk) (bestPriceCache st)))).
Proof. intros Hlog Hquo. unfold updatePriceCache. by rewrite Hlog, Hquo. Qed.

Lemma handleUniswapEvent_returns ln64 clk event pool st price logPrice
    reversePrice :
  Decoder.uniswapPrice pool event = Some price ->
  logOf ln64 price = Some logPrice ->
  BigFloat.Quo Float64.NewFloat_1 price = Some reversePrice ->
  exists st',
    updatePriceCache ln64 clk pool price "uniswap" st = Returned st' /\
    handleUniswapEvent ln64 clk (Decoded event) pool st
    = Returned (st', UniswapPriceUpdate (Token0 pool) (Token1 pool) price
                       (Tick event)).
Proof.
  intros Hp Hl Hq. eexists. split.
  - by apply updatePriceCache_returns.
  - unfold handleUniswapEvent. rewrite Hp.
    by rewrite (updatePriceCache_returns _ _ _ _ _ _ _ _ Hl Hq).
Qed.

Lemma handleCurveEvent_returns ln64 clk event pool st price logPrice
    reversePrice :
  Decoder.curvePrice pool event = Some price ->
  logOf ln64 price = Some logPrice ->
  BigFloat.Quo Float64.NewFloat_1 price = Some reversePrice ->
  exists st',
    updatePriceCache ln64 clk pool price "curve" st = Returned st' /\
    handleCurveEvent ln64 clk (Decoded event) pool st
    = Returned (st', CurvePriceUpdate (Token0 pool) (Token1 pool) price
                       (SoldID event) (BoughtID event)).
Proof.
  intros Hp Hl Hq. eexists. split.
  - by apply updatePriceCache_returns.
  - unfold handleCurveEvent. rewrite Hp.
    by rewrite (updatePriceCache_returns _ _ _ _ _ _ _ _ Hl Hq).
Qed.

Lemma run_cons_uniswap ln64 clk unpacked pool rest st st1 line :
  handleUniswapEvent ln64 clk unpacked pool st = Returned (st1, line) ->
  run ln64 (UniswapCall clk unpacked pool :: rest) st
  = logged line (run ln64 rest st1).
Proof. intros H. simpl. by rewrite H. Qed.

(** The forward side of an update of a pool whose keys differ. *)
Lemma update_forward_view ln64 clk pool price dex st st' logPrice :
  forwardPair pool ≠ reversePair pool ->
  logOf ln64 price = Some logPrice ->
  updatePriceCache ln64 clk pool price dex st = Returned st' ->
  bucket (forwardPair pool) (priceCache st')
  = removePool (Address pool) (bucket (forwardPair pool) (priceCache st))
    ++ [mkPriceInfo dex (Address pool) price logPrice (nowForward clk)] /\
  bestForward (forwardPair pool) st'
  = Some (keepGreater (bestForward (forwardPair pool) st)
            (mkPriceInfo dex (Address pool) price logPrice (nowForward clk))).
Proof.
  intros Hkeys Hlog Hret.
  destruct (updatePriceCache_Returned _ _ _ _ _ _ _ Hret)
    as (logPrice' & reversePrice & Hlog' & _ & Hpc & Hbc).
  assert (logPrice' = logPrice) as -> by congruence.
  simpl in Hpc, Hbc. unfold bestForward. rewrite Hpc, Hbc. split.
  - rewrite bucket_putRecord_ne by done. apply bucket_putRecord_eq.
  - rewrite bestReverseStep_Forward. apply bestForwardStep_Forward.
Qed.

(** The two records of an update, as the caches show them whatever the
    keys of the pool. *)
Lemma update_records_view ln64 clk pool price dex st logPrice reversePrice :
  logOf ln64 price = Some logPrice ->
  BigFloat.Quo Float64.NewFloat_1 price = Some reversePrice ->
  exists st',
    updatePriceCache ln64 clk pool price dex st = Returned st' /\
    last (bucket (reversePair pool) (priceCache st'))
    = Some (mkPriceInfo dex (Address pool) reversePrice
              (BigFloat.Neg logPrice) (nowReverse clk)) /\
    bestForward (forwardPair pool) st'
    = Some (keepGreater (bestForward (forwardPair pool) st)
              (mkPriceInfo dex (Address pool) price logPrice
                 (nowForward clk))) /\
    bestReverse (reversePair pool) st'
    = Some (keepGreater (bestReverse (reversePair pool) st)
              (mkPriceInfo dex (Address pool) reversePrice
                 (BigFloat.Neg logPrice) (nowReverse clk))) /\
    (forwardPair pool ≠ reversePair pool ->
     last (bucket (forwardPair pool) (priceCache st'))
     = Some (mkPriceInfo dex (Address pool) price logPrice
               (nowForward clk))).
Proof.
  intros Hlog Hquo. eexists. split; [by apply updatePriceCache_returns|].
  unfold bestForward, bestReverse. simpl. repeat split.
  - rewrite bucket_putRecord_eq. apply last_snoc.
  - rewrite bestReverseStep_Forward. apply bestForwardStep_Forward.
  - rewrite bestReverseStep_Reverse. by rewrite bestForwardStep_Reverse.
  - intros Hkeys. rewrite bucket_putRecord_ne by done.
    rewrite bucket_putRecord_eq. apply last_snoc.
Qed.

Lemma cmpGt_Lt a b : BigFloat.Cmp a b = Lt -> cmpGt a b = false.
Proof. unfold cmpGt. by intros ->. Qed.

(** ** Which best-price fields an update writes *)

(** C9. An update from a pool with tokens A (token0) and B (token1), whose
    two pair keys "A_B" and "B_A" differ, writes the [Forward] field of the
    best-price entry of "A_B" and the [Reverse] field of the entry of "B_A",
    each by the comparison of the incoming record with the record the same
    field held; the [Reverse] field of "A_B", the [Forward] field of "B_A"
    and both fields of every other entry are left unchanged.  So the record
    of a pool is only ever compared with a record of the same field, which
    a pool of the same orientation wrote. *)
Theorem update_writes_forward_of_own_key_reverse_of_mirror_key
    ln64 clk pool price dex st st' :
  forwardPair pool ≠ reversePair pool ->
  updatePriceCache ln64 clk pool price dex st = Returned st' ->
  exists priceInfo reversePriceInfo,
    PoolAddr priceInfo = Address pool /\
    Price priceInfo = price /\
    PoolAddr reversePriceInfo = Address pool /\
    bestForward (forwardPair pool) st'
    = Some (keepGreater (bestForward (forwardPair pool) st) priceInfo) /\
    bestReverse (reversePair pool) st'
    = Some (keepGreater (bestReverse (reversePair pool) st)
              reversePriceInfo) /\
    bestReverse (forwardPair pool) st' = bestReverse (forwardPair pool) st /\
    bestForward (reversePair pool) st' = bestForward (reversePair pool) st /\
    (forall k, k ≠ forwardPair pool ->
               bestForward k st' = bestForward k st) /\
    (forall k, k ≠ reversePair pool ->
               bestReverse k st' = bestReverse k st).
Proof.
  intros Hkeys Hret.
  destruct (updatePriceCache_Returned _ _ _ _ _ _ _ Hret)
    as (logPrice & reversePrice & _ & _ & _ & Hbest).
  simpl in Hbest.
  eexists (mkPriceInfo dex (Address pool) price logPrice (nowForward clk)),
    (mkPriceInfo dex (Address pool) reversePrice (BigFloat.Neg logPrice)
       (nowReverse clk)).
  unfold bestForward, bestReverse. rewrite Hbest. simpl.
  repeat split.
  - rewrite bestReverseStep_Forward. apply bestForwardStep_Forward.
  - rewrite bestReverseStep_Reverse. by rewrite bestForwardStep_Reverse.
  - rewrite bestReverseStep_other by done. apply bestForwardStep_Reverse.
  - rewrite bestReverseStep_Forward.
    by rewrite bestForwardStep_other.
  - intros k Hk. rewrite bestReverseStep_Forward.
    by rewrite bestForwardStep_other.
  - intros k Hk. rewrite bestReverseStep_other by done.
    apply bestForwardStep_Reverse.
Qed.

Lemma update_writes_forward_of_own_key_reverse_of_mirror_key_witness :
  forwardPair Ex.P1 ≠ reversePair Ex.P1 /\
  exists st',
    updatePriceCache log2Floor (Ex.at_ 100) Ex.P1 Ex.p4 "uniswap" initCaches
    = Returned st' /\
    bestReverse (forwardPair Ex.P1) st'
    = bestReverse (forwardPair Ex.P1) initCaches /\
    bestForward (reversePair Ex.P1) st'
    = bestForward (reversePair Ex.P1) initCaches.
Proof.
  assert (Hk : forwardPair Ex.P1 ≠ reversePair Ex.P1)
    by (vm_compute; discriminate).
  split; [exact Hk|].
  assert (Hret : exists st',
             updatePriceCache log2Floor (Ex.at_ 100) Ex.P1 Ex.p4 "uniswap"
               initCaches = Returned st') by (eexists; reflexivity).
  destruct Hret as [st' Hret]. exists st'. split; [exact Hret|].
  destruct (update_writes_forward_of_own_key_reverse_of_mirror_key
              log2Floor (Ex.at_ 100) Ex.P1 Ex.p4 "uniswap" initCaches st'
              Hk Hret)
    as (fwd & rev & _ & _ & _ & _ & _ & Hr & Hf & _).
  split; [exact Hr|exact Hf].
Defined.

(** ** Events that do not decode *)

(** C8. When the payload of a log does not decode, either handler writes
    one line to the logger and returns with both caches exactly as they
    were, and the loop of the subscription goes on with the next arrival,
    from the same caches. *)
Theorem undecodable_event_is_logged_and_dropped
    ln64 clk err poolAddr pool st
    (swaps : list (Arrival SwapEvent))
    (exchanges : list (Arrival TokenExchange)) :
  handleUniswapEvent ln64 clk (UnpackError err) pool st
  = Returned (st, FailedToUnpack "Uniswap" err) /\
  handleCurveEvent ln64 clk (UnpackError err) pool st
  = Returned (st, FailedToUnpack "Curve" err) /\
  subscriptionLoop (handleUniswapEvent ln64) poolAddr pool
    (Log clk (UnpackError err) :: swaps) st
  = logged (FailedToUnpack "Uniswap" err)
      (subscriptionLoop (handleUniswapEvent ln64) poolAddr pool swaps st) /\
  subscriptionLoop (handleCurveEvent ln64) poolAddr pool
    (Log clk (UnpackError err) :: exchanges) st
  = logged (FailedToUnpack "Curve" err)
      (subscriptionLoop (handleCurveEvent ln64) poolAddr pool exchanges st).
Proof. repeat split. Qed.

(** ** The asset indices of a TokenExchange event *)

(** C10. The price the Curve decoder computes, and the caches its handler
    leaves, are the same for any two events with the same [TokensSold] and
    [TokensBought], whatever their buyers and their asset indices [SoldID]
    and [BoughtID]: the indices are never compared with the orientation of
    the pool. *)
Theorem curve_price_ignores_asset_indices
    ln64 clk pool st sold bought buyer soldID boughtID
    buyer' soldID' boughtID' :
  Decoder.curvePrice pool (mkExchange buyer soldID sold boughtID bought)
  = Decoder.curvePrice pool (mkExchange buyer' soldID' sold boughtID' bought)
  /\
  cachesOf (handleCurveEvent ln64 clk
              (Decoded (mkExchange buyer soldID sold boughtID bought))
              pool st)
  = cachesOf (handleCurveEvent ln64 clk
                (Decoded (mkExchange buyer' soldID' sold boughtID' bought))
                pool st).
Proof.
  split; [reflexivity|].
  unfold handleCurveEvent, Decoder.curvePrice. simpl.
  destruct (BigFloat.Quo _ _) as [price|]; simpl; [|reflexivity].
  destruct (negb _).
  - destruct (BigFloat.Mul _ _) as [price'|]; [|reflexivity].
    by destruct (updatePriceCache _ _ _ _ _ _).
  - by destruct (updatePriceCache _ _ _ _ _ _).
Qed.

(** ** One record per pool in every bucket *)

Section RemovePool.

Implicit Types (l : list PriceInfo) (addr : string).

Lemma poolAddrs_removePool_subset addr a l :
  a ∈ poolAddrs (removePool addr l) -> a ∈ poolAddrs l.
Proof.
  unfold poolAddrs. induction l as [|info rest IH]; simpl; [done|].
  destruct (String.eqb_spec (PoolAddr info) addr); simpl.
  - intros. by apply list_elem_of_further.
  - rewrite !elem_of_cons. intros [->|H]; auto.
Qed.

Lemma NoDup_removePool addr l :
  NoDup (poolAddrs l) -> NoDup (poolAddrs (removePool addr l)).
Proof.
  unfold poolAddrs. induction l as [|info rest IH]; simpl; [done|].
  rewrite NoDup_cons. intros [Hnotin Hnd].
  destruct (String.eqb_spec (PoolAddr info) addr); simpl; [done|].
  apply NoDup_cons. split; [|auto].
  intros Hin. apply Hnotin. by apply poolAddrs_removePool_subset in Hin.
Qed.

(** In a bucket with one record per pool, the removal leaves none of the
    pool. *)
Lemma removePool_gone addr l :
  NoDup (poolAddrs l) -> addr ∉ poolAddrs (removePool addr l).
Proof.
  unfold poolAddrs. induction l as [|info rest IH]; simpl.
  - intros _. apply not_elem_of_nil.
  - rewrite NoDup_cons. intros [Hnotin Hnd].
    destruct (String.eqb_spec (PoolAddr info) addr) as [<-|Hne]; simpl;
      [done|].
    rewrite not_elem_of_cons. split; [congruence|auto].
Qed.

Lemma recordsOf_absent addr l : addr ∉ poolAddrs l -> recordsOf addr l = [].
Proof.
  unfold poolAddrs, recordsOf. induction l as [|info rest IH]; simpl;
    [done|].
  rewrite not_elem_of_cons. intros [Hne Hnotin].
  destruct (String.eqb_spec (PoolAddr info) addr); [congruence|auto].
Qed.

Lemma NoDup_put addr info l :
  PoolAddr info = addr ->
  NoDup (poolAddrs l) -> NoDup (poolAddrs (removePool addr l ++ [info])).
Proof.
  intros Haddr Hnd. unfold poolAddrs. rewrite fmap_app. simpl.
  apply NoDup_app. split; [by apply NoDup_removePool|]. split.
  - intros a Hin. rewrite list_elem_of_singleton. intros ->.
    rewrite Haddr in Hin. by apply (removePool_gone addr l).
  - apply NoDup_singleton.
Qed.

Lemma recordsOf_put addr info l :
  PoolAddr info = addr ->
  NoDup (poolAddrs l) -> recordsOf addr (removePool addr l ++ [info]) = [info].
Proof.
  intros Haddr Hnd. unfold recordsOf. rewrite List.filter_app.
  fold (recordsOf addr (removePool addr l)).
  rewrite recordsOf_absent by (by apply removePool_gone).
  simpl. rewrite Haddr, String.eqb_refl. reflexivity.
Qed.

End RemovePool.

Lemma uniquePools_putRecord k addr info pc :
  PoolAddr info = addr ->
  uniquePools pc -> uniquePools (putRecord k addr info pc).
Proof.
  intros Haddr Hpc k'. destruct (decide (k = k')) as [<-|Hne].
  - rewrite bucket_putRecord_eq. by apply NoDup_put.
  - by rewrite bucket_putRecord_ne.
Qed.

Lemma reachable_uniquePools ln64 st :
  reachable ln64 st -> uniquePools (priceCache st).
Proof.
  induction 1 as [|clk pool price dex st st' _ IH Hret].
  - intros k. unfold bucket. simpl. rewrite lookup_empty. apply NoDup_nil_2.
  - destruct (updatePriceCache_Returned _ _ _ _ _ _ _ Hret)
      as (logPrice & reversePrice & _ & _ & Hpc & _).
    simpl in Hpc. rewrite Hpc.
    by repeat apply uniquePools_putRecord.
Qed.

(** ** The logarithm of the reverse record *)

Lemma Neg_involutive (x : BigFloat.Float) : BigFloat.Neg (BigFloat.Neg x) = x.
Proof.
  destruct x as [p [n|n|n m e]]; unfold BigFloat.Neg; simpl;
    by rewrite negb_involutive.
Qed.

Lemma Cmp_refl (x : BigFloat.Float) : BigFloat.Cmp x x = Eq.
Proof.
  unfold BigFloat.Cmp. rewrite Z.compare_refl.
  destruct (BigFloat.val x) as [n|n|n m e]; try reflexivity.
  unfold BigFloat.ucmp. destruct n; apply Z.compare_refl.
Qed.

(** What [Neg] does to a number, read through its precision, its sign bit,
    its being an infinity, its exact value and its comparison with zero. *)
Lemma Neg_prec (x : BigFloat.Float) :
  BigFloat.prec (BigFloat.Neg x) = BigFloat.prec x.
Proof. reflexivity. Qed.

Lemma Neg_Signbit (x : BigFloat.Float) :
  Signbit (BigFloat.val (BigFloat.Neg x)) = negb (Signbit (BigFloat.val x)).
Proof. by destruct x as [p [n|n|n m e]]. Qed.

Lemma Neg_IsInf (x : BigFloat.Float) :
  IsInf (BigFloat.val (BigFloat.Neg x)) = IsInf (BigFloat.val x).
Proof. by destruct x as [p [n|n|n m e]]. Qed.

Lemma Neg_F2Q (x : BigFloat.Float) :
  (F2Q (BigFloat.val (BigFloat.Neg x)) == - F2Q (BigFloat.val x))%Q.
Proof.
  destruct x as [p [n|n|n m e]]; simpl; try (by vm_compute).
  destruct n; simpl.
  - change (inject_Z (Z.neg m)) with (- inject_Z (Z.pos m))%Q. ring.
  - change (inject_Z (Z.neg m)) with (- inject_Z (Z.pos m))%Q. ring.
Qed.

Lemma Neg_Cmp_zero (x : BigFloat.Float) p n :
  BigFloat.Cmp (BigFloat.Neg x) (BigFloat.mkFloat p (BigFloat.Zero n))
  = CompOpp (BigFloat.Cmp x (BigFloat.mkFloat p (BigFloat.Zero n))).
Proof. by destruct x as [q [[]|[]|[] m e]]. Qed.

(** C6. After an update that returned, from a pool whose two pair keys
    differ, the record it appended to the bucket of the forward key carries
    the logarithm computed from the price, and the record it appended to
    the bucket of the reverse key carries the negation of that very number,
    not a second logarithm: each [LogPrice] is the [Neg] of the other, and
    [Cmp] finds the forward one equal to the negated reverse one.  Read
    without [Neg]: the reverse [LogPrice] has the precision of the forward
    one, the opposite sign bit, is an infinity exactly when the forward one
    is, its exact value is minus the exact value of the forward one, and
    it compares with zero the opposite way (below zero where the forward
    one is above). *)
Theorem reverse_log_price_is_negated_forward_log_price
    ln64 clk pool price dex st st' :
  forwardPair pool ≠ reversePair pool ->
  updatePriceCache ln64 clk pool price dex st = Returned st' ->
  exists fwd rev,
    last (bucket (forwardPair pool) (priceCache st')) = Some fwd /\
    last (bucket (reversePair pool) (priceCache st')) = Some rev /\
    Price fwd = price /\
    logOf ln64 price = Some (LogPrice fwd) /\
    LogPrice rev = BigFloat.Neg (LogPrice fwd) /\
    LogPrice fwd = BigFloat.Neg (LogPrice rev) /\
    BigFloat.Cmp (LogPrice fwd) (BigFloat.Neg (LogPrice rev)) = Eq /\
    BigFloat.prec (LogPrice rev) = BigFloat.prec (LogPrice fwd) /\
    Signbit (BigFloat.val (LogPrice rev))
    = negb (Signbit (BigFloat.val (LogPrice fwd))) /\
    IsInf (BigFloat.val (LogPrice rev))
    = IsInf (BigFloat.val (LogPrice fwd)) /\
    (F2Q (BigFloat.val (LogPrice rev))
     == - F2Q (BigFloat.val (LogPrice fwd)))%Q /\
    BigFloat.Cmp (LogPrice rev) (BigFloat.mkFloat 53 (BigFloat.Zero false))
    = CompOpp (BigFloat.Cmp (LogPrice fwd)
                 (BigFloat.mkFloat 53 (BigFloat.Zero false))).
Proof.
  intros Hkeys Hret.
  destruct (updatePriceCache_Returned _ _ _ _ _ _ _ Hret)
    as (logPrice & reversePrice & Hlog & _ & Hpc & _).
  simpl in Hpc.
  exists (mkPriceInfo dex (Address pool) price logPrice (nowForward clk)),
    (mkPriceInfo dex (Address pool) reversePrice (BigFloat.Neg logPrice)
       (nowReverse clk)).
  rewrite Hpc. cbn [Price LogPrice].
  split; [|split; [|split; [|split; [|split; [|split; [|split;
    [|split; [|split; [|split; [|split]]]]]]]]]].
  - rewrite bucket_putRecord_ne by done. rewrite bucket_putRecord_eq.
    apply last_snoc.
  - rewrite bucket_putRecord_eq. apply last_snoc.
  - done.
  - done.
  - done.
  - by rewrite Neg_involutive.
  - rewrite Neg_involutive. apply Cmp_refl.
  - apply Neg_prec.
  - apply Neg_Signbit.
  - apply Neg_IsInf.
  - apply Neg_F2Q.
  - apply Neg_Cmp_zero.
Qed.

(** The price 4 of the pool 0xP1, with the binary logarithm in the place
    of [math.Log]: the forward record carries the logarithm [+2], the
    reverse record the finite number of value [-2], with the sign bit set,
    which compares below zero. *)
Lemma reverse_log_price_is_negated_forward_log_price_witness :
  forwardPair Ex.P1 ≠ reversePair Ex.P1 /\
  exists st' fwd rev,
    updatePriceCache log2Floor (Ex.at_ 100) Ex.P1 Ex.p4 "uniswap" initCaches
    = Returned st' /\
    last (bucket (forwardPair Ex.P1) (priceCache st')) = Some fwd /\
    last (bucket (reversePair Ex.P1) (priceCache st')) = Some rev /\
    BigFloat.val (LogPrice fwd) = BigFloat.Finite false 1 1 /\
    LogPrice fwd = BigFloat.Neg (LogPrice rev) /\
    Signbit (BigFloat.val (LogPrice rev)) = true /\
    IsInf (BigFloat.val (LogPrice rev)) = false /\
    (F2Q (BigFloat.val (LogPrice rev)) == - (2 # 1))%Q /\
    BigFloat.Cmp (LogPrice rev) (BigFloat.mkFloat 53 (BigFloat.Zero false))
    = Lt.
Proof.
  assert (Hk : forwardPair Ex.P1 ≠ reversePair Ex.P1)
    by (vm_compute; discriminate).
  split; [exact Hk|].
  assert (Hret : exists st',
             updatePriceCache log2Floor (Ex.at_ 100) Ex.P1 Ex.p4 "uniswap"
               initCaches = Returned st') by (eexists; reflexivity).
  destruct Hret as [st' Hret].
  destruct (reverse_log_price_is_negated_forward_log_price
              log2Floor (Ex.at_ 100) Ex.P1 Ex.p4 "uniswap" initCaches st'
              Hk Hret)
    as (fwd & rev & Hf & Hr & _ & Hlog & _ & Hn & _ & _ & Hs & Hi & Hq & Hc).
  assert (Hv : LogPrice fwd
               = BigFloat.mkFloat 53 (BigFloat.Finite false 1 1)).
  { assert (E : logOf log2Floor Ex.p4
                = Some (BigFloat.mkFloat 53 (BigFloat.Finite false 1 1)))
      by reflexivity.
    congruence. }
  rewrite Hv in Hs, Hi, Hq, Hc.
  exists st', fwd, rev.
  split; [exact Hret|]. split; [exact Hf|]. split; [exact Hr|].
  split; [by rewrite Hv|]. split; [exact Hn|]. split; [exact Hs|].
  split; [exact Hi|]. split; [|exact Hc].
  rewrite Hq. by vm_compute.
Defined.

Lemma uniswapPrice_p16 :
  Decoder.uniswapPrice Ex.P1 (mkSwap 0 0 (2 ^ 98) 0 0) = Some Ex.p16.
Proof. vm_compute. reflexivity. Qed.

Lemma uniswapPrice_p4 :
  Decoder.uniswapPrice Ex.P2 (mkSwap 0 0 (2 ^ 97) 0 0) = Some Ex.p4.
Proof. vm_compute. reflexivity. Qed.

Lemma uniswapPrice_p1 :
  Decoder.uniswapPrice Ex.P1 (mkSwap 0 0 (2 ^ 96) 0 0) = Some Ex.p1.
Proof. vm_compute. reflexivity. Qed.

(** ** The best price after the best pool reports a worse price *)

(** C1, at the input of the specification's own scenario.  Pool 0xP1 reports
    the price 16 and pool 0xP2 the price 4, for the same pair; then 0xP1
    reports the price 1.  With [math.Log] increasing over 1, 4 and 16, the
    bucket of "A_B" then holds the record of 0xP2 at 4 and the record of
    0xP1 at 1, and its full scan finds the record of 0xP2; but the
    best-price entry still holds the record of 0xP1 at 16, a record that is
    no longer in the bucket. *)
Theorem best_price_stays_with_the_degraded_pool ln64 :
  logLt ln64 Ex.p4 Ex.p16 -> logLt ln64 Ex.p1 Ex.p4 ->
  logLt ln64 Ex.p1 Ex.p16 ->
  exists st out l16 l4 l1,
    run ln64
      [UniswapCall (Ex.at_ 100) (Ex.swap (2 ^ 98)) Ex.P1;
       UniswapCall (Ex.at_ 200) (Ex.swap (2 ^ 97)) Ex.P2;
       UniswapCall (Ex.at_ 300) (Ex.swap (2 ^ 96)) Ex.P1] initCaches
    = Returned (st, out) /\
    bucket "A_B" (priceCache st)
    = [mkPriceInfo "uniswap" "0xP2" Ex.p4 l4 200;
       mkPriceInfo "uniswap" "0xP1" Ex.p1 l1 300] /\
    scanBest (bucket "A_B" (priceCache st))
    = Some (mkPriceInfo "uniswap" "0xP2" Ex.p4 l4 200) /\
    bestForward "A_B" st
    = Some (mkPriceInfo "uniswap" "0xP1" Ex.p16 l16 100) /\
    bestForward "A_B" st ≠ scanBest (bucket "A_B" (priceCache st)) /\
    mkPriceInfo "uniswap" "0xP1" Ex.p16 l16 100
    ∉ bucket "A_B" (priceCache st).
Proof.
  intros (l4 & l16 & H4 & H16 & Hlt1) (l1 & l4' & H1 & H4' & Hlt2)
    (l1' & l16' & H1' & H16' & Hlt3).
  assert (l4' = l4) as -> by congruence.
  assert (l1' = l1) as -> by congruence.
  assert (l16' = l16) as -> by congruence.
  clear H4' H1' H16'.
  apply cmpGt_Lt in Hlt1, Hlt2, Hlt3.
  assert (Hk1 : forwardPair Ex.P1 ≠ reversePair Ex.P1)
    by (vm_compute; discriminate).
  assert (Hk2 : forwardPair Ex.P2 ≠ reversePair Ex.P2)
    by (vm_compute; discriminate).
  destruct (handleUniswapEvent_returns ln64 (Ex.at_ 100) _ Ex.P1 initCaches
              _ _ _ uniswapPrice_p16 H16 eq_refl) as (s1 & Hu1 & Hh1).
  destruct (handleUniswapEvent_returns ln64 (Ex.at_ 200) _ Ex.P2 s1
              _ _ _ uniswapPrice_p4 H4 eq_refl) as (s2 & Hu2 & Hh2).
  destruct (handleUniswapEvent_returns ln64 (Ex.at_ 300) _ Ex.P1 s2
              _ _ _ uniswapPrice_p1 H1 eq_refl) as (s3 & Hu3 & Hh3).
  destruct (update_forward_view _ _ _ _ _ _ _ _ Hk1 H16 Hu1) as [Hb1 Hf1].
  destruct (update_forward_view _ _ _ _ _ _ _ _ Hk2 H4 Hu2) as [Hb2 Hf2].
  destruct (update_forward_view _ _ _ _ _ _ _ _ Hk1 H1 Hu3) as [Hb3 Hf3].
  change (forwardPair Ex.P1) with "A_B"%string in *.
  change (forwardPair Ex.P2) with "A_B"%string in *.
  exists s3. eexists. exists l16, l4, l1. split.
  { unfold Ex.swap. rewrite (run_cons_uniswap _ _ _ _ _ _ _ _ Hh1).
    rewrite (run_cons_uniswap _ _ _ _ _ _ _ _ Hh2).
    rewrite (run_cons_uniswap _ _ _ _ _ _ _ _ Hh3). reflexivity. }
  rewrite Hb3, Hf3, Hb2, Hf2, Hb1, Hf1.
  unfold bestForward, bucket. simpl. rewrite !lookup_empty. simpl.
  rewrite Hlt1. simpl. rewrite Hlt3.
  unfold scanBest. simpl. rewrite Hlt2.
  repeat split; [discriminate|].
  rewrite !not_elem_of_cons. repeat split; [discriminate..|].
  apply not_elem_of_nil.
Qed.

Lemma best_price_stays_with_the_degraded_pool_witness :
  logLt log2Floor Ex.p4 Ex.p16 /\ logLt log2Floor Ex.p1 Ex.p4 /\
  logLt log2Floor Ex.p1 Ex.p16 /\
  exists st out l16 l4 l1,
    run log2Floor
      [UniswapCall (Ex.at_ 100) (Ex.swap (2 ^ 98)) Ex.P1;
       UniswapCall (Ex.at_ 200) (Ex.swap (2 ^ 97)) Ex.P2;
       UniswapCall (Ex.at_ 300) (Ex.swap (2 ^ 96)) Ex.P1] initCaches
    = Returned (st, out) /\
    bucket "A_B" (priceCache st)
    = [mkPriceInfo "uniswap" "0xP2" Ex.p4 l4 200;
       mkPriceInfo "uniswap" "0xP1" Ex.p1 l1 300] /\
    scanBest (bucket "A_B" (priceCache st))
    = Some (mkPriceInfo "uniswap" "0xP2" Ex.p4 l4 200) /\
    bestForward "A_B" st
    = Some (mkPriceInfo "uniswap" "0xP1" Ex.p16 l16 100) /\
    bestForward "A_B" st ≠ scanBest (bucket "A_B" (priceCache st)) /\
    mkPriceInfo "uniswap" "0xP1" Ex.p16 l16 100
    ∉ bucket "A_B" (priceCache st).
Proof.
  assert (H1 : logLt log2Floor Ex.p4 Ex.p16)
    by (eexists _, _; repeat split; reflexivity).
  assert (H2 : logLt log2Floor Ex.p1 Ex.p4)
    by (eexists _, _; repeat split; reflexivity).
  assert (H3 : logLt log2Floor Ex.p1 Ex.p16)
    by (eexists _, _; repeat split; reflexivity).
  repeat split; try assumption.
  exact (best_price_stays_with_the_degraded_pool log2Floor H1 H2 H3).
Defined.

(** ** Prices that are not strictly positive and finite *)

(** C3, refuted, at two events.  The Swap event with [SqrtPriceX96 = 0]
    decodes to the price 0; the TokenExchange event with [TokensSold = 1]
    and [TokensBought = 0] decodes to the price +Inf.  Whatever [math.Log]
    is, the handler returns from either as from any other event, and has
    written both caches: the bucket of "A_B" holds a record with that
    price (and the logarithm -Inf, resp. +Inf), which is also the best
    forward record of "A_B". *)
Lemma zero_price_event_is_inserted :
  forEveryLog (fun ln64 =>
    let zero := BigFloat.mkFloat 97 (BigFloat.Zero false) in
    let inf := BigFloat.mkFloat 64 (BigFloat.Inf false) in
    let fromZero :=
      mkPriceInfo "uniswap" "0xP1" zero
        (BigFloat.mkFloat 53 (BigFloat.Inf true)) 100 in
    let fromInf :=
      mkPriceInfo "curve" "0xC1" inf
        (BigFloat.mkFloat 53 (BigFloat.Inf false)) 100 in
    exists st1 st2,
      Decoder.uniswapPrice Ex.P1 (mkSwap 0 0 0 0 0) = Some zero /\
      handleUniswapEvent ln64 (Ex.at_ 100) (Ex.swap 0) Ex.P1 initCaches
      = Returned (st1, UniswapPriceUpdate "A" "B" zero 0) /\
      bucket "A_B" (priceCache st1) = [fromZero] /\
      bestForward "A_B" st1 = Some fromZero /\
      bucket "A_B" (priceCache st1) ≠ bucket "A_B" (priceCache initCaches) /\
      bestForward "A_B" st1 ≠ bestForward "A_B" initCaches /\
      Decoder.curvePrice Ex.Crv (mkExchange 0 0 1 1 0) = Some inf /\
      handleCurveEvent ln64 (Ex.at_ 100) (Decoded (mkExchange 0 0 1 1 0))
        Ex.Crv initCaches
      = Returned (st2, CurvePriceUpdate "A" "B" inf 0 1) /\
      bucket "A_B" (priceCache st2) = [fromInf] /\
      bestForward "A_B" st2 = Some fromInf /\
      bucket "A_B" (priceCache st2) ≠ bucket "A_B" (priceCache initCaches) /\
      bestForward "A_B" st2 ≠ bestForward "A_B" initCaches).
Proof.
  intros ln64. cbv zeta.
  destruct (handleUniswapEvent_returns ln64 (Ex.at_ 100)
              (mkSwap 0 0 0 0 0) Ex.P1 initCaches
              (BigFloat.mkFloat 97 (BigFloat.Zero false))
              (BigFloat.mkFloat 53 (BigFloat.Inf true))
              (BigFloat.mkFloat 97 (BigFloat.Inf false))
              eq_refl eq_refl eq_refl) as (st1 & Hupd1 & Hret1).
  destruct (handleCurveEvent_returns ln64 (Ex.at_ 100)
              (mkExchange 0 0 1 1 0) Ex.Crv initCaches
              (BigFloat.mkFloat 64 (BigFloat.Inf false))
              (BigFloat.mkFloat 53 (BigFloat.Inf false))
              (BigFloat.mkFloat 64 (BigFloat.Zero false))
              eq_refl eq_refl eq_refl) as (st2 & Hupd2 & Hret2).
  assert (Hk1 : forwardPair Ex.P1 ≠ reversePair Ex.P1)
    by (vm_compute; discriminate).
  assert (Hk2 : forwardPair Ex.Crv ≠ reversePair Ex.Crv)
    by (vm_compute; discriminate).
  destruct (update_forward_view ln64 (Ex.at_ 100) Ex.P1
              (BigFloat.mkFloat 97 (BigFloat.Zero false)) "uniswap"
              initCaches st1 (BigFloat.mkFloat 53 (BigFloat.Inf true))
              Hk1 eq_refl Hupd1)
    as [Hb1 Hf1].
  destruct (update_forward_view ln64 (Ex.at_ 100) Ex.Crv
              (BigFloat.mkFloat 64 (BigFloat.Inf false)) "curve"
              initCaches st2 (BigFloat.mkFloat 53 (BigFloat.Inf false))
              Hk2 eq_refl Hupd2)
    as [Hb2 Hf2].
  change (forwardPair Ex.P1) with "A_B"%string in *.
  change (forwardPair Ex.Crv) with "A_B"%string in *.
  exists st1, st2. split; [reflexivity|]. split; [exact Hret1|].
  rewrite Hb1, Hf1, Hb2, Hf2. unfold bestForward, bucket. simpl.
  rewrite !lookup_empty. simpl.
  repeat split; try discriminate. exact Hret2.
Qed.

(** C3, as the code has it.  [updatePriceCache] has no guard on the price
    and no error result.  For a price of zero (of either sign) the update
    returns: it has appended the reverse record, whose price is an infinity
    and whose logarithm is +Inf, to the bucket of the reverse key, and the
    forward record, of price zero and logarithm -Inf, to the bucket of the
    forward key (when the keys differ), and it has passed both to the
    comparison of the best-price entries.  For a price of +Inf it does the
    same, with a forward logarithm of +Inf, a reverse price of zero and a
    reverse logarithm of -Inf.  For a price of -Inf, whose logarithm is
    NaN, the call panics in [SetFloat64], before either cache is written. *)
Theorem update_has_no_price_guard ln64 clk pool dex st p n :
  let fk := forwardPair pool in
  let rk := reversePair pool in
  let inserted price logPrice reversePrice :=
    let fwd :=
      mkPriceInfo dex (Address pool) price logPrice (nowForward clk) in
    let rev :=
      mkPriceInfo dex (Address pool) reversePrice (BigFloat.Neg logPrice)
        (nowReverse clk) in
    exists st',
      updatePriceCache ln64 clk pool price dex st = Returned st' /\
      last (bucket rk (priceCache st')) = Some rev /\
      bestForward fk st' = Some (keepGreater (bestForward fk st) fwd) /\
      bestReverse rk st' = Some (keepGreater (bestReverse rk st) rev) /\
      (fk ≠ rk -> last (bucket fk (priceCache st')) = Some fwd) in
  inserted (BigFloat.mkFloat p (BigFloat.Zero n))
    (BigFloat.mkFloat 53 (BigFloat.Inf true))
    (BigFloat.mkFloat (Z.max 53 p) (BigFloat.Inf n)) /\
  inserted (BigFloat.mkFloat p (BigFloat.Inf false))
    (BigFloat.mkFloat 53 (BigFloat.Inf false))
    (BigFloat.mkFloat (Z.max 53 p) (BigFloat.Zero false)) /\
  updatePriceCache ln64 clk pool (BigFloat.mkFloat p (BigFloat.Inf true))
    dex st
  = Panicked "Float.SetFloat64(NaN)".
Proof.
  cbv zeta. split; [|split].
  - by apply update_records_view.
  - by apply update_records_view.
  - reflexivity.
Qed.

(** ** Rounding *)

Import BigFloat.

(** [0 < 2 ^ k] and the like. *)
Ltac pow_pos := apply Z.pow_pos_nonneg; lia.

Lemma bitlen_bounds m : 2 ^ (bitlen m - 1) <= Z.pos m < 2 ^ bitlen m.
Proof.
  unfold bitlen.
  replace (Z.log2 (Z.pos m) + 1 - 1) with (Z.log2 (Z.pos m)) by lia.
  replace (Z.log2 (Z.pos m) + 1) with (Z.succ (Z.log2 (Z.pos m))) by lia.
  apply Z.log2_spec. lia.
Qed.

Lemma bitlen_pos m : 1 <= bitlen m.
Proof. unfold bitlen. pose proof (Z.log2_nonneg (Z.pos m)). lia. Qed.

Lemma bitlen_unique m b : 2 ^ (b - 1) <= Z.pos m < 2 ^ b -> bitlen m = b.
Proof.
  intros H. unfold bitlen.
  assert (0 <= b - 1).
  { destruct (Z.le_gt_cases 0 (b - 1)); [done|].
    assert (b <= 0) by lia.
    assert (2 ^ b <= 2 ^ 0) by (apply Z.pow_le_mono_r; lia). simpl in *. lia. }
  rewrite (Z.log2_unique (Z.pos m) (b - 1)); [lia|lia|].
  replace (Z.succ (b - 1)) with b by lia. done.
Qed.

Lemma normalize_spec m : forall e m' e',
  normalize m e = (m', e') ->
  e <= e' /\ Z.pos m = Z.pos m' * 2 ^ (e' - e) /\ gexp m' e' = gexp m e /\
  Z.odd (Z.pos m') = true.
Proof.
  induction m as [m IH|m IH|]; intros e m' e' H; simpl in H.
  - injection H as <- <-. rewrite Z.sub_diag. repeat split; try lia.
  - apply IH in H as (Hle & Hval & Hg & Hodd).
    repeat split; try lia.
    + replace (e' - e) with (Z.succ (e' - (e + 1))) by lia.
      rewrite Z.pow_succ_r by lia. lia.
    + rewrite Hg. unfold gexp, bitlen.
      change (Z.pos m~0) with (2 * Z.pos m). rewrite Z.log2_double by lia. lia.
    + done.
  - injection H as <- <-. rewrite Z.sub_diag. repeat split; try lia.
Qed.

Lemma roundMant_exact p m sb : bitlen m <= p -> roundMant p m sb = (Z.pos m, 0).
Proof. intros H. unfold roundMant. by rewrite (proj2 (Z.leb_le _ _) H). Qed.

Lemma roundMant_spec p m sb q s :
  1 <= p -> p < bitlen m ->
  roundMant p m sb = (q, s) ->
  s = bitlen m - p /\
  2 ^ (p - 1) <= q <= 2 ^ p /\
  q * 2 ^ s - 2 ^ (s - 1) <= Z.pos m /\
  Z.pos m + Z.b2z sb <= q * 2 ^ s + 2 ^ (s - 1).
Proof.
  intros Hp Hbits. unfold roundMant.
  rewrite (proj2 (Z.leb_gt _ _) Hbits).
  set (r := bitlen m - p - 1).
  assert (Hr : 0 <= r) by (unfold r; lia).
  pose proof (bitlen_bounds m) as [Hlo Hhi].
  set (M := Z.pos m) in *.
  rewrite Z.shiftr_div_pow2 by lia.
  pose proof (Z.testbit_spec' M r Hr) as Hbit.
  assert (H2r : 0 < 2 ^ r) by pow_pos.
  assert (H2s : 2 ^ (r + 1) = 2 * 2 ^ r)
    by (replace (r + 1) with (Z.succ r) by lia; rewrite Z.pow_succ_r; lia).
  assert (Hdm : M = 2 ^ r * (M / 2 ^ r) + M mod 2 ^ r)
    by (apply Z.div_mod; lia).
  pose proof (Z.mod_pos_bound M (2 ^ r) H2r) as Hlow.
  assert (Hdm2 : M / 2 ^ r = 2 * (M / 2 ^ r / 2) + (M / 2 ^ r) mod 2)
    by (apply Z.div_mod; lia).
  rewrite Z.div_div in Hdm2 by lia.
  replace (2 ^ r * 2) with (2 ^ (r + 1)) in Hdm2 by lia.
  set (Q := M / 2 ^ (r + 1)) in *.
  set (lo := M mod 2 ^ r) in *.
  rewrite <- Hbit in Hdm2.
  assert (Hpw : 2 ^ (bitlen m - 1) = 2 ^ (p - 1) * 2 ^ (r + 1)).
  { rewrite <- Z.pow_add_r by lia. f_equal. unfold r. lia. }
  assert (Hpw' : 2 ^ bitlen m = 2 ^ p * 2 ^ (r + 1)).
  { rewrite <- Z.pow_add_r by lia. f_equal. unfold r. lia. }
  assert (Hpp : 0 < 2 ^ (p - 1)) by pow_pos.
  assert (Hp2 : 2 ^ p = 2 * 2 ^ (p - 1)).
  { replace p with (Z.succ (p - 1)) at 1 by lia. rewrite Z.pow_succ_r; lia. }
  assert (HQ : 2 ^ (p - 1) <= Q < 2 ^ p).
  { split.
    - apply Z.div_le_lower_bound; [lia|]. lia.
    - apply Z.div_lt_upper_bound; [lia|]. lia. }
  intros H. injection H as <- <-.
  replace (r + 1 - 1) with r by lia.
  split; [unfold r; lia|].
  destruct (Z.testbit M r) eqn:Erb; simpl in *.
  - destruct sb; simpl.
    + split; [lia|]. rewrite H2s. nia.
    + destruct (lo =? 0) eqn:Elo; simpl.
      * apply Z.eqb_eq in Elo.
        destruct (Z.odd Q) eqn:Eodd; (split; [lia|rewrite H2s; nia]).
      * apply Z.eqb_neq in Elo. split; [lia|]. rewrite H2s. nia.
  - split; [lia|]. rewrite H2s. destruct sb; simpl; nia.
Qed.

Lemma bitlen_le_of_lt m b : 0 <= b -> Z.pos m < 2 ^ b -> bitlen m <= b.
Proof.
  intros Hb H. pose proof (bitlen_bounds m) as [Hlo _].
  destruct (Z.le_gt_cases (bitlen m) b) as [|Hgt]; [done|].
  assert (2 ^ b <= 2 ^ (bitlen m - 1)) by (apply Z.pow_le_mono_r; lia). lia.
Qed.

Lemma bitlen_mono m1 m2 : Z.pos m1 <= Z.pos m2 -> bitlen m1 <= bitlen m2.
Proof. intros H. unfold bitlen. pose proof (Z.log2_le_mono _ _ H). lia. Qed.

Lemma finite_spec n m e :
  exists m' e', finite n m e = Finite n m' e' /\
    e <= e' /\ Z.pos m = Z.pos m' * 2 ^ (e' - e) /\
    gexp m' e' = gexp m e /\ Z.odd (Z.pos m') = true /\
    bitlen m' <= bitlen m.
Proof.
  unfold finite. destruct (normalize m e) as [m' e'] eqn:E.
  apply normalize_spec in E as (H1 & H2 & H3 & H4).
  exists m', e'. repeat split; try done.
  apply bitlen_mono. rewrite H2.
  assert (0 < 2 ^ (e' - e)) by pow_pos. nia.
Qed.

Lemma bitlen_ge m a : 0 <= a -> 2 ^ a <= Z.pos m -> a + 1 <= bitlen m.
Proof.
  intros Ha H. pose proof (bitlen_bounds m) as [_ Hhi].
  destruct (Z.le_gt_cases (a + 1) (bitlen m)) as [|Hgt]; [done|].
  assert (2 ^ bitlen m <= 2 ^ a) by (apply Z.pow_le_mono_r; lia). lia.
Qed.

Lemma odd_pow2_factor m d p :
  0 <= d -> 0 <= p -> Z.odd (Z.pos m) = true ->
  2 ^ p = Z.pos m * 2 ^ d -> Z.pos m = 1.
Proof.
  intros Hd Hp Hodd H.
  assert (0 < 2 ^ d) by pow_pos.
  destruct (Z.lt_trichotomy d p) as [Hlt|[->|Hgt]].
  - assert (Hsplit : 2 ^ p = 2 ^ (p - d) * 2 ^ d).
    { rewrite <- Z.pow_add_r by lia. f_equal. lia. }
    assert (Hm : Z.pos m = 2 ^ (p - d)) by nia.
    rewrite Hm in Hodd.
    replace (p - d) with (Z.succ (p - d - 1)) in Hodd by lia.
    rewrite Z.pow_succ_r, Z.odd_mul in Hodd by lia. discriminate.
  - nia.
  - assert (2 ^ p < 2 ^ d) by (apply Z.pow_lt_mono_r; lia). nia.
Qed.

(** Rounding a mantissa and normalising the result. *)
Lemma round_core p n m e sb :
  1 <= p ->
  exists q s m' e',
    roundMant p m sb = (Z.pos q, s) /\
    finite n q (e + s) = Finite n m' e' /\
    0 <= s /\ e + s <= e' /\ Z.pos q = Z.pos m' * 2 ^ (e' - (e + s)) /\
    gexp m' e' = gexp q (e + s) /\
    gexp m e <= gexp q (e + s) <= gexp m e + 1 /\
    Z.odd (Z.pos m') = true /\ bitlen m' <= p /\
    (bitlen m <= p -> q = m /\ s = 0) /\
    (p < bitlen m ->
     s = bitlen m - p /\ 1 <= s /\ 2 ^ (p + s - 1) <= Z.pos m /\
     Z.pos q * 2 ^ s - 2 ^ (s - 1) <= Z.pos m /\
     Z.pos m + Z.b2z sb <= Z.pos q * 2 ^ s + 2 ^ (s - 1)).
Proof.
  intros Hp. destruct (Z.le_gt_cases (bitlen m) p) as [Hfit|Hbig].
  - rewrite roundMant_exact by done.
    destruct (finite_spec n m (e + 0)) as (m' & e' & Hf & H1 & H2 & H3 & H4 & H5).
    exists m, 0, m', e'. repeat split; try lia; try done;
      unfold gexp; lia.
  - destruct (roundMant p m sb) as [q s] eqn:E.
    destruct (roundMant_spec _ _ _ _ _ Hp Hbig E) as (Hs & Hq & Hlo & Hhi).
    assert (Hpp : 0 < 2 ^ (p - 1)) by pow_pos.
    destruct q as [|q|q]; try lia.
    assert (Hbq : p <= bitlen q <= p + 1).
    { split.
      - pose proof (bitlen_ge q (p - 1)). lia.
      - apply bitlen_le_of_lt; [lia|].
        replace (p + 1) with (Z.succ p) by lia.
        rewrite Z.pow_succ_r by lia. lia. }
    destruct (finite_spec n q (e + s)) as (m' & e' & Hf & H1 & H2 & H3 & H4 & H5).
    pose proof (bitlen_bounds m) as [Hmlo _].
    exists q, s, m', e'. repeat split; try lia; try done.
    + unfold gexp. lia.
    + unfold gexp. lia.
    + destruct (Z.eq_dec (Z.pos q) (2 ^ p)) as [Heq|Hne].
      * rewrite Heq in H2.
        assert (Hm1 : Z.pos m' = 1)
          by (apply (odd_pow2_factor m' (e' - (e + s)) p); [lia|lia|done|done]).
        unfold bitlen. rewrite Hm1. simpl. lia.
      * apply bitlen_le_of_lt; [lia|].
        assert (0 < 2 ^ (e' - (e + s))) by pow_pos. nia.
    + replace (p + s - 1) with (bitlen m - 1) by lia. done.
Qed.

Lemma setExpAndRound_wf p n m e sb :
  1 <= p -> wfValue p (setExpAndRound p n m e sb).
Proof.
  intros Hp. unfold setExpAndRound.
  destruct (Z.ltb_spec (gexp m e) MinExp); [done|].
  rewrite Z.gtb_ltb. destruct (Z.ltb_spec MaxExp (gexp m e)); [done|].
  destruct (round_core p n m e sb Hp)
    as (q & s & m' & e' & -> & Hf & Hs & He & Hq & Hg & Hgq & Hodd & Hfit & _).
  rewrite Z.gtb_ltb. destruct (Z.ltb_spec MaxExp (gexp q (e + s))); [done|].
  rewrite Hf. simpl. repeat split; try done; lia.
Qed.

Lemma setExpAndRound_finite p n m e sb :
  1 <= p -> MinExp <= gexp m e < MaxExp ->
  exists q s m' e',
    setExpAndRound p n m e sb = Finite n m' e' /\
    0 <= s /\ e + s <= e' /\ Z.pos q = Z.pos m' * 2 ^ (e' - (e + s)) /\
    gexp m' e' = gexp q (e + s) /\
    gexp m e <= gexp m' e' <= gexp m e + 1 /\
    Z.odd (Z.pos m') = true /\ bitlen m' <= p /\
    (bitlen m <= p -> q = m /\ s = 0) /\
    (p < bitlen m ->
     s = bitlen m - p /\ 1 <= s /\ 2 ^ (p + s - 1) <= Z.pos m /\
     Z.pos q * 2 ^ s - 2 ^ (s - 1) <= Z.pos m /\
     Z.pos m + Z.b2z sb <= Z.pos q * 2 ^ s + 2 ^ (s - 1)).
Proof.
  intros Hp [Hmin Hmax]. unfold setExpAndRound.
  destruct (Z.ltb_spec (gexp m e) MinExp); [lia|].
  rewrite Z.gtb_ltb. destruct (Z.ltb_spec MaxExp (gexp m e)); [lia|].
  destruct (round_core p n m e sb Hp)
    as (q & s & m' & e' & -> & Hf & Hs & He & Hq & Hg & Hgq & Hodd & Hfit & Hex & Hrd).
  rewrite Z.gtb_ltb. destruct (Z.ltb_spec MaxExp (gexp q (e + s))); [lia|].
  exists q, s, m', e'. repeat split; try done; lia.
Qed.
(** ** Values and errors as rational numbers *)

Lemma pow2_pos e : (0 < pow2 e)%Q.
Proof. apply Qpower_0_lt. reflexivity. Qed.

Lemma pow2_add a b : (pow2 (a + b) == pow2 a * pow2 b)%Q.
Proof. unfold pow2. apply Qpower_plus. discriminate. Qed.

Lemma pow2_inject n : 0 <= n -> (pow2 n == inject_Z (2 ^ n))%Q.
Proof. intros H. unfold pow2. symmetry. apply (Zpower_Qpower 2 n H). Qed.

Lemma pow2_inv n : (pow2 n * pow2 (- n) == 1)%Q.
Proof. rewrite <- pow2_add. rewrite Z.add_opp_diag_r. reflexivity. Qed.

Lemma Qabs_inject z : Qabs (inject_Z z) = inject_Z (Z.abs z).
Proof. reflexivity. Qed.

(** A bound between integers, read between dyadic numbers. *)
Lemma dyadic_rel_bound (a b P e : Z) :
  0 <= P -> Z.abs (a - b) * 2 ^ P <= b ->
  (Qabs (inject_Z a * pow2 e - inject_Z b * pow2 e)
   <= inject_Z b * pow2 e * pow2 (- P))%Q.
Proof.
  intros HP H.
  assert (Hq : (Qabs (inject_Z a - inject_Z b) * pow2 P <= inject_Z b)%Q).
  { rewrite pow2_inject by done.
    unfold Qminus. rewrite <- inject_Z_opp, <- inject_Z_plus.
    rewrite Qabs_inject, <- inject_Z_mult. rewrite <- Zle_Qle.
    by replace (a + - b) with (a - b) by lia. }
  pose proof (pow2_pos e) as He. pose proof (pow2_pos P) as HPp.
  pose proof (pow2_pos (- P)) as HPn. pose proof (pow2_inv P) as Hinv.
  assert (E1 : (inject_Z a * pow2 e - inject_Z b * pow2 e
                == (inject_Z a - inject_Z b) * pow2 e)%Q) by ring.
  rewrite E1, Qabs_Qmult, (Qabs_pos (pow2 e)) by (by apply Qlt_le_weak).
  set (A := Qabs (inject_Z a - inject_Z b)) in *.
  assert (HA : (0 <= A)%Q) by apply Qabs_nonneg.
  set (B := inject_Z b) in *. set (E := pow2 e) in *.
  set (X := pow2 P) in *. set (Y := pow2 (- P)) in *.
  assert (H1 : (A <= B * Y)%Q).
  { assert (E2 : (A == A * X * Y)%Q)
      by (rewrite <- Qmult_assoc, Hinv; ring).
    rewrite E2. apply Qmult_le_compat_r; [done|]. by apply Qlt_le_weak. }
  assert (E3 : (B * E * Y == B * Y * E)%Q) by ring.
  rewrite E3. apply Qmult_le_compat_r; [done|]. by apply Qlt_le_weak.
Qed.

Lemma rounded_value (q m' : positive) (s e e' : Z) :
  0 <= s -> e + s <= e' -> Z.pos q = Z.pos m' * 2 ^ (e' - (e + s)) ->
  (F2Q (Finite false m' e') == inject_Z (Z.pos q * 2 ^ s) * pow2 e)%Q.
Proof.
  intros Hs He Hq. simpl. rewrite Hq.
  rewrite !inject_Z_mult, <- !pow2_inject by lia.
  rewrite <- !Qmult_assoc, <- !pow2_add.
  replace (e' - (e + s) + (s + e)) with e' by lia. reflexivity.
Qed.

Lemma bitlen_mul m1 m2 :
  bitlen m1 + bitlen m2 - 1 <= bitlen (m1 * m2) <= bitlen m1 + bitlen m2.
Proof.
  pose proof (bitlen_bounds m1) as [L1 U1].
  pose proof (bitlen_bounds m2) as [L2 U2].
  pose proof (bitlen_pos m1). pose proof (bitlen_pos m2).
  assert (0 < 2 ^ (bitlen m1 - 1)) by pow_pos.
  assert (0 < 2 ^ (bitlen m2 - 1)) by pow_pos.
  split.
  - pose proof (bitlen_ge (m1 * m2) (bitlen m1 - 1 + (bitlen m2 - 1))) as Hge.
    rewrite Z.pow_add_r in Hge by lia.
    rewrite Pos2Z.inj_mul in Hge.
    assert (2 ^ (bitlen m1 - 1) * 2 ^ (bitlen m2 - 1) <= Z.pos m1 * Z.pos m2) by nia.
    lia.
  - apply bitlen_le_of_lt; [lia|].
    rewrite Z.pow_add_r, Pos2Z.inj_mul by lia. nia.
Qed.

Lemma Mul_pos x y lo1 hi1 lo2 hi2 :
  posFinite x lo1 hi1 -> posFinite y lo2 hi2 ->
  1 <= resultPrec x y ->
  MinExp < lo1 + lo2 -> hi1 + hi2 < MaxExp ->
  exists z,
    Mul x y = Some z /\ prec z = resultPrec x y /\
    posFinite z (lo1 + lo2 - 1) (hi1 + hi2 + 1) /\
    relErr (F2Q (val z)) (F2Q (val x) * F2Q (val y)) (pow2 (- prec z)).
Proof.
  intros (m1 & e1 & Hx & Hg1 & _ & _) (m2 & e2 & Hy & Hg2 & _ & _) HP Hlo Hhi.
  unfold Mul. rewrite Hx, Hy. simpl xorb.
  set (P := resultPrec x y) in *.
  pose proof (bitlen_mul m1 m2) as Hbm.
  assert (Hg : gexp m1 e1 + gexp m2 e2 - 1 <= gexp (m1 * m2) (e1 + e2)
               <= gexp m1 e1 + gexp m2 e2) by (unfold gexp in *; lia).
  destruct (setExpAndRound_finite P false (m1 * m2) (e1 + e2) false HP)
    as (q & s & m' & e' & Hr & Hs & He & Hq & Hgq & Hge & Hodd & Hfit & Hex & Hrd);
    [lia|].
  eexists. split; [reflexivity|]. simpl. split; [reflexivity|]. split.
  - exists m', e'. simpl. rewrite Hr. repeat split; try done; lia.
  - rewrite Hr. unfold relErr.
    rewrite (rounded_value q m' s (e1 + e2) e') by done.
    assert (Hxy : (F2Q (Finite false m1 e1) * F2Q (Finite false m2 e2)
                   == inject_Z (Z.pos (m1 * m2)) * pow2 (e1 + e2))%Q).
    { simpl. rewrite Pos2Z.inj_mul, inject_Z_mult, pow2_add. ring. }
    rewrite Hxy. apply dyadic_rel_bound; [lia|].
    destruct (Z.le_gt_cases (bitlen (m1 * m2)) P) as [Hc|Hc].
    + destruct (Hex Hc) as [-> ->]. rewrite Z.mul_1_r, Z.sub_diag. simpl. lia.
    + destruct (Hrd Hc) as (Hs' & Hs1 & Hm & Hl & Hu). simpl in Hu.
      assert (Hpw : 2 ^ (P + s - 1) = 2 ^ (s - 1) * 2 ^ P).
      { rewrite <- Z.pow_add_r by lia. f_equal. lia. }
      assert (0 < 2 ^ P) by pow_pos.
      assert (0 < 2 ^ (s - 1)) by pow_pos.
      nia.
Qed.

Lemma Quo_pos x y lo1 hi1 lo2 hi2 :
  posFinite x lo1 hi1 -> posFinite y lo2 hi2 ->
  1 <= resultPrec x y ->
  MinExp <= lo1 - hi2 -> hi1 - lo2 + 1 < MaxExp ->
  exists z,
    Quo x y = Some z /\ prec z = resultPrec x y /\
    posFinite z (lo1 - hi2) (hi1 - lo2 + 2) /\
    relErr (F2Q (val z) * F2Q (val y)) (F2Q (val x)) (pow2 (- prec z)).
Proof.
  intros (m1 & e1 & Hx & Hg1 & _ & _) (m2 & e2 & Hy & Hg2 & _ & _) HP Hlo Hhi.
  unfold Quo. rewrite Hx, Hy. simpl xorb.
  set (P := resultPrec x y) in *. unfold uquo.
  set (k := Z.max 0 (P + 1 + bitlen m2 - bitlen m1)).
  assert (Hk : 0 <= k) by (unfold k; lia).
  set (nn := Z.pos m1 * 2 ^ k).
  pose proof (bitlen_bounds m1) as [L1 U1].
  pose proof (bitlen_bounds m2) as [L2 U2].
  pose proof (bitlen_pos m1) as B1. pose proof (bitlen_pos m2) as B2.
  assert (H2k : 0 < 2 ^ k) by pow_pos.
  set (t := bitlen m1 - 1 + k - bitlen m2).
  assert (Ht : P <= t) by (unfold t, k; lia).
  assert (Hlow : 2 ^ t <= nn / Z.pos m2).
  { apply Z.div_le_lower_bound; [lia|].
    assert (E : 2 ^ (bitlen m1 - 1) * 2 ^ k = 2 ^ t * 2 ^ bitlen m2).
    { rewrite <- !Z.pow_add_r by lia. f_equal. unfold t. lia. }
    assert (0 < 2 ^ t) by pow_pos.
    unfold nn. nia. }
  assert (Hupp : nn / Z.pos m2 < 2 ^ (t + 2)).
  { apply Z.div_lt_upper_bound; [lia|].
    assert (E : 2 ^ bitlen m1 * 2 ^ k = 2 ^ (t + 2) * 2 ^ (bitlen m2 - 1)).
    { rewrite <- !Z.pow_add_r by lia. f_equal. unfold t. lia. }
    assert (0 < 2 ^ (t + 2)) by pow_pos.
    unfold nn. nia. }
  assert (0 < 2 ^ t) by pow_pos.
  destruct (nn / Z.pos m2) as [|q0|q0] eqn:Eq0; try lia.
  assert (Hb0 : t + 1 <= bitlen q0 <= t + 2).
  { split; [apply bitlen_ge; lia|apply bitlen_le_of_lt; lia]. }
  assert (Hg : gexp m1 e1 - gexp m2 e2 <= gexp q0 (e1 - e2 - k)
               <= gexp m1 e1 - gexp m2 e2 + 1) by (unfold gexp, t in *; lia).
  set (sb := negb (nn mod Z.pos m2 =? 0)).
  destruct (setExpAndRound_finite P false q0 (e1 - e2 - k) sb HP)
    as (q & s & m' & e' & Hr & Hs & He & Hq & Hgq & Hge & Hodd & Hfit & Hex & Hrd);
    [lia|].
  eexists. split; [reflexivity|]. simpl. split; [reflexivity|]. split.
  - exists m', e'. simpl. rewrite Hr. repeat split; try done; lia.
  - rewrite Hr. unfold relErr.
    rewrite (rounded_value q m' s (e1 - e2 - k) e') by done.
    assert (Hzy : (inject_Z (Z.pos q * 2 ^ s) * pow2 (e1 - e2 - k)
                   * F2Q (Finite false m2 e2)
                   == inject_Z (Z.pos m2 * (Z.pos q * 2 ^ s)) * pow2 (e1 - k))%Q).
    { simpl. rewrite (inject_Z_mult (Z.pos m2)).
      replace (e1 - k) with (e1 - e2 - k + e2) by lia.
      rewrite pow2_add. ring. }
    assert (Hxv : (F2Q (Finite false m1 e1) == inject_Z nn * pow2 (e1 - k))%Q).
    { simpl. unfold nn. rewrite inject_Z_mult, <- pow2_inject by lia.
      rewrite <- Qmult_assoc, <- pow2_add.
      replace (k + (e1 - k)) with e1 by lia. reflexivity. }
    rewrite Hzy, Hxv. apply dyadic_rel_bound; [lia|].
    destruct (Hrd ltac:(lia)) as (Hs' & Hs1 & Hm & Hl & Hu).
    pose proof (Z.div_mod nn (Z.pos m2) ltac:(lia)) as Hdm.
    pose proof (Z.mod_pos_bound nn (Z.pos m2) ltac:(lia)) as Hrem.
    rewrite Eq0 in Hdm.
    assert (Hpw : 2 ^ (P + s - 1) = 2 ^ (s - 1) * 2 ^ P).
    { rewrite <- Z.pow_add_r by lia. f_equal. lia. }
    assert (0 < 2 ^ P) by pow_pos.
    assert (0 < 2 ^ (s - 1)) by pow_pos.
    set (Qv := Z.pos q * 2 ^ s) in *. set (Hf := 2 ^ (s - 1)) in *.
    assert (Hup : nn <= Z.pos m2 * Qv + Z.pos m2 * Hf).
    { unfold sb in Hu. destruct (Z.eqb_spec (nn mod Z.pos m2) 0) as [E0|E0];
        simpl in Hu; nia. }
    assert (Hdn : Z.pos m2 * Qv - Z.pos m2 * Hf <= nn) by nia.
    assert (Hsm1 : Z.pos m2 * (Hf * 2 ^ P) <= Z.pos m2 * Z.pos q0)
      by (apply Z.mul_le_mono_nonneg_l; lia).
    assert (Hsm : Z.pos m2 * Hf * 2 ^ P <= nn) by lia.
    assert (Habs : Z.abs (Z.pos m2 * Qv - nn) <= Z.pos m2 * Hf) by lia.
    apply Z.le_trans with (Z.pos m2 * Hf * 2 ^ P); [|done].
    apply Z.mul_le_mono_nonneg_r; lia.
Qed.

Lemma relErr_bounds u v d :
  relErr u v d <-> (v - v * d <= u <= v + v * d)%Q.
Proof. unfold relErr. rewrite Qabs_diff_Qle_condition. lra. Qed.

Lemma relErr_exact v : (0 <= v)%Q -> relErr v v 0.
Proof. intros H. apply relErr_bounds. lra. Qed.

Lemma relErr_weaken u v d d' :
  (0 <= v)%Q -> (d <= d')%Q -> relErr u v d -> relErr u v d'.
Proof.
  rewrite !relErr_bounds. intros Hv Hd [H1 H2].
  assert ((v * d <= v * d')%Q) by nra. lra.
Qed.

Lemma relErr_mul u1 v1 d1 u2 v2 d2 :
  (0 <= v1)%Q -> (0 <= v2)%Q -> (0 <= d1 <= 1)%Q -> (0 <= d2 <= 1)%Q ->
  relErr u1 v1 d1 -> relErr u2 v2 d2 ->
  relErr (u1 * u2) (v1 * v2) (d1 + d2 + d1 * d2).
Proof.
  rewrite !relErr_bounds. intros Hv1 Hv2 Hd1 Hd2 [L1 U1] [L2 U2].
  assert (Hl1 : (0 <= v1 - v1 * d1)%Q) by nra.
  assert (Hl2 : (0 <= v2 - v2 * d2)%Q) by nra.
  assert (Hu1 : (0 <= u1)%Q) by lra. assert (Hu2 : (0 <= u2)%Q) by lra.
  split.
  - assert (A : ((v1 - v1 * d1) * (v2 - v2 * d2) <= u1 * (v2 - v2 * d2))%Q)
      by (apply Qmult_le_compat_r; lra).
    assert (B : (u1 * (v2 - v2 * d2) <= u1 * u2)%Q)
      by (rewrite !(Qmult_comm u1); apply Qmult_le_compat_r; lra).
    assert (C : (0 <= v1 * v2 * (d1 * d2))%Q)
      by (apply Qmult_le_0_compat; apply Qmult_le_0_compat; lra).
    lra.
  - assert (A : (u1 * u2 <= (v1 + v1 * d1) * u2)%Q)
      by (apply Qmult_le_compat_r; lra).
    assert (B : ((v1 + v1 * d1) * u2 <= (v1 + v1 * d1) * (v2 + v2 * d2))%Q)
      by (rewrite !(Qmult_comm (v1 + v1 * d1)); apply Qmult_le_compat_r; lra).
    lra.
Qed.

Lemma relErr_trans u v w d1 d2 :
  (0 <= v)%Q -> (0 <= d1)%Q -> (0 <= d2)%Q ->
  relErr u v d1 -> relErr w u d2 -> relErr w v (d1 + d2 + d1 * d2).
Proof.
  rewrite !relErr_bounds. intros Hv Hd1 Hd2 [L1 U1] [L2 U2].
  assert (u * d2 <= (v + v * d1) * d2)%Q by nra.
  split; nra.
Qed.

Lemma relErr_div c b t d :
  (0 < t)%Q -> relErr (c * t) b d -> relErr c (b / t) d.
Proof.
  rewrite !relErr_bounds. intros Ht [L U].
  assert (Hi : (0 < / t)%Q) by (by apply Qinv_lt_0_compat).
  assert (E : (b / t == b * / t)%Q) by reflexivity.
  assert (E1 : (c == c * t * / t)%Q) by (field; lra).
  rewrite E. split.
  - rewrite E1.
    assert ((b - b * d) * / t <= c * t * / t)%Q by (apply Qmult_le_compat_r; lra).
    lra.
  - rewrite E1 at 1.
    assert (c * t * / t <= (b + b * d) * / t)%Q by (apply Qmult_le_compat_r; lra).
    lra.
Qed.

Lemma pow2_le a b : a <= b -> (pow2 a <= pow2 b)%Q.
Proof. intros H. unfold pow2. apply Qpower_le_compat_l; [done|]. discriminate. Qed.

Lemma wrap64_small z : - 2 ^ 63 <= z < 2 ^ 63 -> GoInt.wrap64 z = z.
Proof.
  intros H. unfold GoInt.wrap64.
  rewrite Z.mod_small; lia.
Qed.

Lemma BitLen_pos m : GoInt.BitLen (Z.pos m) = bitlen m.
Proof. reflexivity. Qed.

Lemma BitLen_bound x b : 0 < x < 2 ^ b -> 1 <= GoInt.BitLen x <= b.
Proof.
  intros [H0 Hb]. destruct x as [|m|m]; try lia.
  rewrite BitLen_pos. split; [apply bitlen_pos|].
  assert (0 <= b).
  { destruct (Z.le_gt_cases 0 b); [done|]. rewrite Z.pow_neg_r in Hb; lia. }
  by apply bitlen_le_of_lt.
Qed.

Lemma pow10_bound k : 0 <= k -> 0 < 10 ^ k < 2 ^ (4 * k + 1).
Proof.
  intros Hk. split; [apply Z.pow_pos_nonneg; lia|].
  replace (4 * k + 1) with (Z.succ (4 * k)) by lia.
  rewrite Z.pow_succ_r, Z.pow_mul_r by lia. change (2 ^ 4) with 16.
  assert (10 ^ k <= 16 ^ k) by (apply Z.pow_le_mono_l; lia).
  assert (0 < 16 ^ k) by pow_pos. lia.
Qed.

Lemma SetInt_pos x :
  0 < x -> GoInt.BitLen x < MaxExp ->
  posFinite (SetInt x) (GoInt.BitLen x) (GoInt.BitLen x) /\
  prec (SetInt x) = Z.max (GoInt.BitLen x) 64 /\
  (F2Q (val (SetInt x)) == inject_Z x)%Q.
Proof.
  intros Hx Hb. destruct x as [|m|m]; try lia.
  rewrite BitLen_pos in *. unfold SetInt. rewrite BitLen_pos. simpl.
  set (p := Z.max (bitlen m) 64).
  pose proof (bitlen_pos m) as Hb1.
  destruct (setExpAndRound_finite p false m 0 false)
    as (q & s & m' & e' & Hr & Hs & He & Hq & Hgq & Hge & Hodd & Hfit & Hex & _).
  { lia. }
  { unfold gexp, MinExp. simpl. lia. }
  destruct (Hex ltac:(lia)) as [-> ->].
  rewrite Hr. rewrite Z.add_0_r in Hgq. split; [|split; [done|]].
  - exists m', e'. simpl. unfold gexp in *. repeat split; try done; lia.
  - rewrite (rounded_value m m' 0 0 e') by done.
    rewrite Z.mul_1_r. unfold pow2. simpl. ring.
Qed.

Lemma relErr_proper : Proper (Qeq ==> Qeq ==> Qeq ==> iff) relErr.
Proof.
  intros u u' Hu v v' Hv d d' Hd. unfold relErr. by rewrite Hu, Hv, Hd.
Qed.

#[local] Existing Instance relErr_proper.

Lemma relErr_scale u v d c :
  (0 <= c)%Q -> relErr u v d -> relErr (u * c) (v * c) d.
Proof.
  rewrite !relErr_bounds. intros Hc [L U]. split.
  - assert ((v - v * d) * c <= u * c)%Q by (apply Qmult_le_compat_r; lra). lra.
  - assert (u * c <= (v + v * d) * c)%Q by (apply Qmult_le_compat_r; lra). lra.
Qed.

Lemma inject_Z_pos z : 0 < z -> (0 < inject_Z z)%Q.
Proof. intros H. change 0%Q with (inject_Z 0). by rewrite <- Zlt_Qlt. Qed.

Lemma posFinite_pos x lo hi : posFinite x lo hi -> (0 < F2Q (val x))%Q.
Proof.
  intros (m & e & Hv & _). rewrite Hv. simpl.
  assert (0 < inject_Z (Z.pos m))%Q by (by apply inject_Z_pos).
  pose proof (pow2_pos e). by apply Qmult_lt_0_compat.
Qed.

Lemma uniswapPrice_valid pool event :
  validSwap pool event ->
  let x := SqrtPriceX96 event in
  let d0 := Decimals0 pool in
  let d1 := Decimals1 pool in
  exists s sq price,
    Quo (SetInt x) (SetInt (2 ^ 96)) = Some s /\
    Mul s s = Some sq /\
    Decoder.uniswapPrice pool event = Some price /\
    (d1 < d0 -> Mul sq (SetInt (10 ^ (d0 - d1))) = Some price) /\
    (d0 < d1 -> Quo sq (SetInt (10 ^ (d1 - d0))) = Some price) /\
    (d0 = d1 -> price = sq) /\
    posFinite price (-1300) 1300 /\ 97 <= prec price /\
    relErr (F2Q (val price)) (exactForwardPrice x d0 d1) (pow2 (-94)).
Proof.
  intros (Hx & Hd0 & Hd1). cbv zeta.
  set (x := SqrtPriceX96 event) in *.
  set (d0 := Decimals0 pool) in *. set (d1 := Decimals1 pool) in *.
  assert (HME : MaxExp = 2147483647) by reflexivity.
  assert (HMI : MinExp = -2147483648) by reflexivity.
  pose proof (BitLen_bound x 160 Hx) as Hbx.
  destruct (SetInt_pos x) as (HX & HXp & HXv); [lia|lia|].
  destruct (SetInt_pos (2 ^ 96)) as (HD & HDp & HDv); [lia|by vm_compute|].
  change (GoInt.BitLen (2 ^ 96)) with 97 in HD, HDp.
  destruct (Quo_pos _ _ _ _ _ _ HX HD) as (s & Hs & Hsp & Hsf & Hse);
    [unfold resultPrec; lia|lia|lia|].
  unfold resultPrec in Hsp. rewrite HXp, HDp in Hsp.
  destruct (Mul_pos _ _ _ _ _ _ Hsf Hsf) as (sq & Hsq & Hsqp & Hsqf & Hsqe);
    [unfold resultPrec; lia|lia|lia|].
  unfold resultPrec in Hsqp.
  assert (Hx0 : (0 < inject_Z x)%Q) by (apply inject_Z_pos; lia).
  assert (H96 : (0 < inject_Z (2 ^ 96))%Q) by (by apply inject_Z_pos).
  set (x0 := (inject_Z x / inject_Z (2 ^ 96))%Q).
  assert (Hx0p : (0 <= x0)%Q).
  { unfold x0. apply Qlt_le_weak, Qlt_shift_div_l; lra. }
  assert (He0 : (0 <= eps0 <= 1)%Q) by (split; by vm_compute).
  (* the ratio *)
  assert (E1 : relErr (F2Q (val s)) x0 eps0).
  { rewrite HDv, HXv in Hse. apply relErr_div in Hse; [|done].
    eapply relErr_weaken; [done| |exact Hse]. apply pow2_le. lia. }
  (* its square *)
  assert (E2 : relErr (F2Q (val s) * F2Q (val s)) (x0 * x0)
                 (eps0 + eps0 + eps0 * eps0)).
  { by apply relErr_mul. }
  assert (Hx2 : (0 <= x0 * x0)%Q) by (by apply Qmult_le_0_compat).
  assert (E3 : relErr (F2Q (val sq)) (F2Q (val s) * F2Q (val s)) eps0).
  { eapply relErr_weaken; [| |exact Hsqe].
    - pose proof (posFinite_pos _ _ _ Hsf).
      apply Qmult_le_0_compat; by apply Qlt_le_weak.
    - apply pow2_le. lia. }
  set (dd2 := (eps0 + eps0 + eps0 * eps0)%Q) in *.
  assert (Hdd2 : (0 <= dd2)%Q) by (by vm_compute).
  pose proof (relErr_trans _ _ _ _ _ Hx2 Hdd2 (proj1 He0) E2 E3) as E4.
  set (dd3 := (dd2 + eps0 + dd2 * eps0)%Q) in *.
  assert (Hdd3 : (0 <= dd3)%Q) by (by vm_compute).
  exists s, sq. unfold Decoder.uniswapPrice. fold x d0 d1.
  change (GoInt.Exp 2 96) with (2 ^ 96). rewrite Hs. simpl. rewrite Hsq. simpl.
  unfold GoInt.sub. rewrite wrap64_small by lia.
  destruct (Z.lt_trichotomy d0 d1) as [Hlt|[Heq|Hgt]].
  - (* division by 10^(d1-d0) *)
    destruct (Z.gtb_spec (d0 - d1) 0); [lia|].
    destruct (Z.ltb_spec (d0 - d1) 0); [|lia].
    unfold GoInt.neg. rewrite wrap64_small by lia.
    replace (- (d0 - d1)) with (d1 - d0) by lia.
    set (k := d1 - d0) in *.
    unfold GoInt.Exp. destruct (Z.leb_spec k 0); [lia|].
    pose proof (pow10_bound k ltac:(lia)) as Hpk.
    pose proof (BitLen_bound (10 ^ k) (4 * k + 1) Hpk) as Hbk.
    destruct (SetInt_pos (10 ^ k)) as (HT & HTp & HTv); [lia|lia|].
    destruct (Quo_pos _ _ _ _ _ _ Hsqf HT) as (price & Hp & Hpp & Hpf & Hpe);
      [unfold resultPrec; lia|lia|lia|].
    unfold resultPrec in Hpp.
    exists price. rewrite Hp. repeat split; try done; try lia.
    + destruct Hpf as (m & e & Hv & Hg & Ho & Hb). exists m, e.
      repeat split; try done; lia.
    + assert (Ht : (0 < inject_Z (10 ^ k))%Q) by (apply inject_Z_pos; lia).
      rewrite HTv in Hpe. apply relErr_div in Hpe; [|done].
      assert (E5 : relErr (F2Q (val price)) (F2Q (val sq) / inject_Z (10 ^ k)) eps0).
      { eapply relErr_weaken; [| |exact Hpe].
        - pose proof (posFinite_pos _ _ _ Hsqf).
          apply Qlt_le_weak, Qlt_shift_div_l; [done|]. lra.
        - apply pow2_le. lia. }
      assert (Hit : (0 <= / inject_Z (10 ^ k))%Q)
        by (apply Qlt_le_weak, Qinv_lt_0_compat; done).
      pose proof (relErr_scale _ _ _ _ Hit E4) as E6.
      assert (Hv6 : (0 <= x0 * x0 * / inject_Z (10 ^ k))%Q)
        by (by apply Qmult_le_0_compat).
      pose proof (relErr_trans _ _ _ _ _ Hv6 Hdd3 (proj1 He0) E6 E5) as E7.
      unfold exactForwardPrice. fold x0.
      replace (d0 - d1) with (- k) by lia.
      rewrite Qpower_opp, <- (Zpower_Qpower 10 k) by lia.
      eapply relErr_weaken; [done| |exact E7]. by vm_compute.
  - (* equal decimals *)
    destruct (Z.gtb_spec (d0 - d1) 0); [lia|].
    destruct (Z.ltb_spec (d0 - d1) 0); [lia|].
    exists sq. repeat split; try done; try lia.
    + destruct Hsqf as (m & e & Hv & Hg & Ho & Hb). exists m, e.
      repeat split; try done; lia.
    + unfold exactForwardPrice. fold x0.
      replace (d0 - d1) with 0 by lia. simpl Qpower. rewrite Qmult_1_r.
      eapply relErr_weaken; [done| |exact E4]. by vm_compute.
  - (* multiplication by 10^(d0-d1) *)
    destruct (Z.gtb_spec (d0 - d1) 0); [|lia].
    set (k := d0 - d1) in *.
    unfold GoInt.Exp. destruct (Z.leb_spec k 0); [lia|].
    pose proof (pow10_bound k ltac:(lia)) as Hpk.
    pose proof (BitLen_bound (10 ^ k) (4 * k + 1) Hpk) as Hbk.
    destruct (SetInt_pos (10 ^ k)) as (HT & HTp & HTv); [lia|lia|].
    destruct (Mul_pos _ _ _ _ _ _ Hsqf HT) as (price & Hp & Hpp & Hpf & Hpe);
      [unfold resultPrec; lia|lia|lia|].
    unfold resultPrec in Hpp.
    exists price. rewrite Hp. repeat split; try done; try lia.
    + destruct Hpf as (m & e & Hv & Hg & Ho & Hb). exists m, e.
      repeat split; try done; lia.
    + assert (Ht : (0 < inject_Z (10 ^ k))%Q) by (apply inject_Z_pos; lia).
      rewrite HTv in Hpe.
      assert (Htl : (0 <= inject_Z (10 ^ k))%Q) by (by apply Qlt_le_weak).
      pose proof (relErr_scale _ _ _ _ Htl E4) as E6.
      assert (E5 : relErr (F2Q (val price)) (F2Q (val sq) * inject_Z (10 ^ k)) eps0).
      { eapply relErr_weaken; [| |exact Hpe].
        - pose proof (posFinite_pos _ _ _ Hsqf).
          apply Qmult_le_0_compat; [by apply Qlt_le_weak|done].
        - apply pow2_le. lia. }
      assert (Hv6 : (0 <= x0 * x0 * inject_Z (10 ^ k))%Q)
        by (by apply Qmult_le_0_compat).
      pose proof (relErr_trans _ _ _ _ _ Hv6 Hdd3 (proj1 He0) E6 E5) as E7.
      unfold exactForwardPrice. fold x0. fold k.
      rewrite <- (Zpower_Qpower 10 k) by lia.
      eapply relErr_weaken; [done| |exact E7]. by vm_compute.
Qed.

Lemma setExpAndRound_sign p n m e sb :
  match setExpAndRound p n m e sb with
  | Zero n' | Inf n' | Finite n' _ _ => n' = n
  end.
Proof.
  unfold setExpAndRound.
  destruct (_ <? _); [done|]. destruct (_ >? _); [done|].
  destruct (roundMant p m sb) as [[|q|q] s]; try done.
  destruct (_ >? _); [done|]. unfold finite. by destruct (normalize _ _).
Qed.

(** The logarithm of a finite, strictly positive price is a number. *)
Lemma logOf_positive ln64 price m e :
  val price = Finite false m e -> exists l, logOf ln64 price = Some l.
Proof.
  intros Hv. unfold logOf, Float64.ofFloat. rewrite Hv.
  destruct (normalize m e) as [m0 e0].
  destruct (_ || _); [by eexists|].
  destruct (_ =? 0); [simpl; destruct (ln64 _ _) as [[|r|r] re]; by eexists|].
  match goal with
  | |- context [setExpAndRound ?p false m0 e0 false] =>
      pose proof (setExpAndRound_sign p false m0 e0 false) as Hs;
      destruct (setExpAndRound p false m0 e0 false) as [n'|n'|n' m' e']
  end; subst; try (by eexists).
  destruct (_ >? _); [by eexists|]. destruct (_ && _); [by eexists|].
  simpl. destruct (ln64 _ _) as [[|r|r] re]; by eexists.
Qed.

Lemma NewFloat_1_posFinite : posFinite Float64.NewFloat_1 1 1.
Proof. exists 1%positive, 0. by vm_compute. Qed.

(** ** The product of the forward and the reverse price *)

(** C7, as the code has it.  For a Swap event with a non-zero [uint160]
    square-root price, of a pool with [uint8] decimals, the handler returns
    and stores the forward price [p] and, as reverse price, the quotient
    [Quo(1, p)]: 1 divided by [p], rounded to nearest at the precision of
    [p], which is 97 bits or more.  Both are finite, and the exact product
    of the two stored prices differs from 1 by at most [2^-prec(p)]. *)
Theorem forward_times_reverse_is_one_within_rounding
    ln64 clk pool event st :
  validSwap pool event ->
  exists price reversePrice logPrice st',
    Decoder.uniswapPrice pool event = Some price /\
    Quo Float64.NewFloat_1 price = Some reversePrice /\
    handleUniswapEvent ln64 clk (Decoded event) pool st
    = Returned (st', UniswapPriceUpdate (Token0 pool) (Token1 pool) price
                       (Tick event)) /\
    last (bucket (reversePair pool) (priceCache st'))
    = Some (mkPriceInfo "uniswap" (Address pool) reversePrice
              (Neg logPrice) (nowReverse clk)) /\
    (forwardPair pool ≠ reversePair pool ->
     last (bucket (forwardPair pool) (priceCache st'))
     = Some (mkPriceInfo "uniswap" (Address pool) price logPrice
               (nowForward clk))) /\
    97 <= prec price /\ prec reversePrice = prec price /\
    (Qabs (F2Q (val price) * F2Q (val reversePrice) - 1)
     <= pow2 (- prec price))%Q.
Proof.
  intros Hvalid.
  destruct (uniswapPrice_valid pool event Hvalid)
    as (s & sq & price & _ & _ & Hprice & _ & _ & _ & Hpf & Hprec & _).
  assert (HME : MaxExp = 2147483647) by reflexivity.
  assert (HMI : MinExp = -2147483648) by reflexivity.
  destruct (Quo_pos _ _ _ _ _ _ NewFloat_1_posFinite Hpf)
    as (reversePrice & Hrev & Hrp & _ & Herr);
    [unfold resultPrec; simpl; lia|lia|lia|].
  assert (Hrp' : prec reversePrice = prec price).
  { rewrite Hrp. unfold resultPrec. simpl. lia. }
  destruct Hpf as (m & e & Hv & _).
  destruct (logOf_positive ln64 price m e Hv) as [logPrice Hlog].
  destruct (update_records_view ln64 clk pool price "uniswap" st logPrice
              reversePrice Hlog Hrev) as (st' & Hupd & Hlast & _ & _ & Hfwd).
  exists price, reversePrice, logPrice, st'.
  repeat split; try done.
  - unfold handleUniswapEvent. by rewrite Hprice, Hupd.
  - unfold relErr in Herr. rewrite Hrp' in Herr.
    assert (E : (F2Q (val Float64.NewFloat_1) == 1)%Q) by reflexivity.
    rewrite E in Herr. rewrite Qmult_1_l in Herr.
    by rewrite (Qmult_comm (F2Q (val price))).
Qed.

Lemma forward_times_reverse_is_one_within_rounding_witness :
  validSwap Ex.P1 (mkSwap 0 0 (11 * 2 ^ 96) 0 0) /\
  exists price reversePrice,
    Decoder.uniswapPrice Ex.P1 (mkSwap 0 0 (11 * 2 ^ 96) 0 0) = Some price /\
    Quo Float64.NewFloat_1 price = Some reversePrice /\
    (Qabs (F2Q (val price) * F2Q (val reversePrice) - 1)
     <= pow2 (- prec price))%Q.
Proof.
  assert (Hvalid : validSwap Ex.P1 (mkSwap 0 0 (11 * 2 ^ 96) 0 0))
    by (unfold validSwap; simpl; lia).
  split; [exact Hvalid|].
  destruct (forward_times_reverse_is_one_within_rounding log2Floor
              (Ex.at_ 100) Ex.P1 (mkSwap 0 0 (11 * 2 ^ 96) 0 0) initCaches
              Hvalid)
    as (price & reversePrice & _ & _ & Hp & Hr & _ & _ & _ & _ & _ & Hb).
  exists price, reversePrice. auto.
Defined.

(** C7, refuted.  The Swap event with [SqrtPriceX96 = 11 * 2^96], of a pool
    with equal decimals, decodes to the price 121, stored at 100 bits of
    precision; the reverse price stored with it is 1/121 rounded to 100
    bits.  Their product computed by [Mul] compares below 1, and their
    exact product is not 1 either. *)
Lemma forward_times_reverse_is_below_one :
  forEveryLog (fun ln64 =>
    exists st' fwd rev product,
      validSwap Ex.P1 (mkSwap 0 0 (11 * 2 ^ 96) 0 0) /\
      handleUniswapEvent ln64 (Ex.at_ 100) (Ex.swap (11 * 2 ^ 96)) Ex.P1
        initCaches
      = Returned (st', UniswapPriceUpdate "A" "B" (Price fwd) 0) /\
      last (bucket "A_B" (priceCache st')) = Some fwd /\
      last (bucket "B_A" (priceCache st')) = Some rev /\
      Price fwd = mkFloat 100 (Finite false 121 0) /\
      Price rev
      = mkFloat 100 (Finite false 670492879459559352857760373091 (-106)) /\
      Mul (Price fwd) (Price rev) = Some product /\
      Cmp product Float64.NewFloat_1 = Lt /\
      ~ (F2Q (val (Price fwd)) * F2Q (val (Price rev)) == 1)%Q).
Proof.
  intros ln64.
  set (p := mkFloat 100 (Finite false 121 0)).
  set (r := mkFloat 100 (Finite false 670492879459559352857760373091 (-106))).
  assert (Hprice : Decoder.uniswapPrice Ex.P1 (mkSwap 0 0 (11 * 2 ^ 96) 0 0)
                   = Some p) by (vm_compute; reflexivity).
  assert (Hquo : Quo Float64.NewFloat_1 p = Some r)
    by (vm_compute; reflexivity).
  destruct (logOf_positive ln64 p 121 0 eq_refl) as [logPrice Hlog].
  assert (Hk : forwardPair Ex.P1 ≠ reversePair Ex.P1)
    by (vm_compute; discriminate).
  destruct (update_records_view ln64 (Ex.at_ 100) Ex.P1 p "uniswap"
              initCaches logPrice r Hlog Hquo)
    as (st' & Hupd & Hlast & _ & _ & Hfwd).
  specialize (Hfwd Hk).
  exists st', (mkPriceInfo "uniswap" "0xP1" p logPrice 100),
    (mkPriceInfo "uniswap" "0xP1" r (Neg logPrice) 100).
  eexists. split; [unfold validSwap; simpl; lia|].
  split.
  { unfold handleUniswapEvent, Ex.swap. by rewrite Hprice, Hupd. }
  split; [exact Hfwd|]. split; [exact Hlast|].
  split; [reflexivity|]. split; [reflexivity|].
  split; [vm_compute; reflexivity|].
  split; [vm_compute; reflexivity|].
  intros H. vm_compute in H. discriminate.
Qed.

(** ** The price of the Uniswap decoder *)

(** C5. For every Swap event of a pool with [uint8] decimals, the decoder
    computes the forward price of the specification: the square of the
    ratio [sqrtPriceX96 / 2^96], multiplied by
    [10^(decimals0 - decimals1)] when [decimals0 > decimals1], divided by
    [10^(decimals1 - decimals0)] when [decimals0 < decimals1], and left as
    it is when they are equal.  The operations are those of [big.Float],
    each rounding to nearest at 97 bits or more: for a non-zero [uint160]
    square-root price, the price returned is finite and positive and lies
    within a relative error of [2^-94] of the exact number
    [(sqrtPriceX96 / 2^96)^2 * 10^(decimals0 - decimals1)]. *)
Theorem uniswap_price_is_squared_ratio_adjusted_by_decimals pool event :
  0 <= Decimals0 pool <= 255 -> 0 <= Decimals1 pool <= 255 ->
  let x := SqrtPriceX96 event in
  let d0 := Decimals0 pool in
  let d1 := Decimals1 pool in
  Decoder.uniswapPrice pool event = specForwardPrice x d0 d1 /\
  (0 < x < 2 ^ 160 ->
   exists price,
     Decoder.uniswapPrice pool event = Some price /\
     posFinite price (-1300) 1300 /\ 97 <= prec price /\
     relErr (F2Q (val price)) (exactForwardPrice x d0 d1) (pow2 (-94))).
Proof.
  intros Hd0 Hd1. cbv zeta. split.
  - unfold Decoder.uniswapPrice, specForwardPrice.
    change (GoInt.Exp 2 96) with (2 ^ 96).
    destruct (Quo _ _) as [s|]; [simpl|reflexivity].
    destruct (Mul s s) as [sq|]; [simpl|reflexivity].
    unfold GoInt.sub, GoInt.neg. rewrite !wrap64_small by lia.
    destruct (Z.gtb_spec (Decimals0 pool - Decimals1 pool) 0),
      (Z.gtb_spec (Decimals0 pool) (Decimals1 pool)); try lia.
    + unfold GoInt.Exp.
      by destruct (Z.leb_spec (Decimals0 pool - Decimals1 pool) 0); [lia|].
    + destruct (Z.ltb_spec (Decimals0 pool - Decimals1 pool) 0),
        (Z.ltb_spec (Decimals0 pool) (Decimals1 pool)); try lia;
        [|reflexivity].
      replace (- (Decimals0 pool - Decimals1 pool))
        with (Decimals1 pool - Decimals0 pool) by lia.
      unfold GoInt.Exp.
      by destruct (Z.leb_spec (Decimals1 pool - Decimals0 pool) 0); [lia|].
  - intros Hx.
    destruct (uniswapPrice_valid pool event (conj Hx (conj Hd0 Hd1)))
      as (s & sq & price & _ & _ & Hp & _ & _ & _ & Hf & Hprec & He).
    exists price. auto.
Qed.

Lemma uniswap_price_is_squared_ratio_adjusted_by_decimals_witness :
  let pool := mkPool "0xAAA" "USDC" "WETH" 1 2 6 18 "uniswap" in
  let event := mkSwap 0 0 (2 ^ 96 * 10 ^ 6) 0 0 in
  0 <= Decimals0 pool <= 255 /\ 0 <= Decimals1 pool <= 255 /\
  0 < SqrtPriceX96 event < 2 ^ 160 /\
  Decoder.uniswapPrice pool event = specForwardPrice (2 ^ 96 * 10 ^ 6) 6 18 /\
  exists price,
    Decoder.uniswapPrice pool event = Some price /\
    relErr (F2Q (val price)) (exactForwardPrice (2 ^ 96 * 10 ^ 6) 6 18)
      (pow2 (-94)).
Proof.
  cbv zeta.
  assert (Hd0 : 0 <= Decimals0 (mkPool "0xAAA" "USDC" "WETH" 1 2 6 18
                                  "uniswap") <= 255) by (simpl; lia).
  assert (Hd1 : 0 <= Decimals1 (mkPool "0xAAA" "USDC" "WETH" 1 2 6 18
                                  "uniswap") <= 255) by (simpl; lia).
  assert (Hx : 0 < SqrtPriceX96 (mkSwap 0 0 (2 ^ 96 * 10 ^ 6) 0 0) < 2 ^ 160)
    by (simpl; lia).
  split; [exact Hd0|]. split; [exact Hd1|]. split; [exact Hx|].
  destruct (uniswap_price_is_squared_ratio_adjusted_by_decimals
              (mkPool "0xAAA" "USDC" "WETH" 1 2 6 18 "uniswap")
              (mkSwap 0 0 (2 ^ 96 * 10 ^ 6) 0 0) Hd0 Hd1) as [Hspec Hacc].
  split; [exact Hspec|].
  destruct (Hacc Hx) as (price & Hp & _ & _ & He).
  exists price. split; [exact Hp|exact He].
Defined.

(** ** The decimal adjustment of the Curve decoder *)

Lemma normalize_odd m e : Z.odd (Z.pos m) = true -> normalize m e = (m, e).
Proof. by destruct m. Qed.

(** Rounding a well-formed number returns it. *)
Lemma setExpAndRound_id p n m e :
  wfValue p (Finite n m e) -> setExpAndRound p n m e false = Finite n m e.
Proof.
  intros (Hodd & Hfit & Hmin & Hmax). unfold setExpAndRound.
  destruct (Z.ltb_spec (gexp m e) MinExp); [lia|].
  rewrite Z.gtb_ltb. destruct (Z.ltb_spec MaxExp (gexp m e)); [lia|].
  rewrite roundMant_exact, Z.add_0_r by done.
  rewrite Z.gtb_ltb. destruct (Z.ltb_spec MaxExp (gexp m e)); [lia|].
  unfold finite. by rewrite normalize_odd.
Qed.

Lemma Quo_wf x y z :
  1 <= resultPrec x y -> Quo x y = Some z ->
  prec z = resultPrec x y /\ wfValue (prec z) (val z).
Proof.
  intros Hp. unfold Quo.
  destruct (val x) as [n1|n1|n1 m1 e1], (val y) as [n2|n2|n2 m2 e2];
    intros H; try discriminate; injection H as <-; simpl;
    (split; [reflexivity|]); try done.
  unfold uquo. destruct (_ / _); try done. by apply setExpAndRound_wf.
Qed.

(** Multiplying by the [big.Float] of the integer 1 changes nothing. *)
Lemma Mul_one z :
  64 <= prec z -> wfValue (prec z) (val z) -> Mul z (SetInt 1) = Some z.
Proof.
  intros Hp Hwf. unfold Mul.
  change (val (SetInt 1)) with (Finite false 1 0).
  assert (HP : resultPrec z (SetInt 1) = prec z).
  { unfold resultPrec. change (prec (SetInt 1)) with 64. lia. }
  rewrite HP. destruct z as [p [n|n|n m e]]; simpl in *.
  - by rewrite xorb_false_r.
  - by rewrite xorb_false_r.
  - rewrite xorb_false_r, Pos.mul_1_r, Z.add_0_r.
    by rewrite setExpAndRound_id.
Qed.

Lemma SetInt_prec x : 64 <= prec (SetInt x).
Proof. unfold SetInt. simpl. lia. Qed.

(** C2, as the code has it (the claim fails).  When
    [Decimals1 - Decimals0] is negative, [Exp(10, Decimals1 - Decimals0)]
    is 1, and the Curve decoder returns the raw ratio
    [TokensSold / TokensBought] as it is, for every event: the adjustment
    is a multiplication by 1, where the claim has a division by
    [10^(Decimals0 - Decimals1)]. *)
Theorem curve_adjustment_by_negative_exponent_is_identity pool event :
  - 2 ^ 63 <= Decimals1 pool - Decimals0 pool < 0 ->
  GoInt.Exp 10 (GoInt.sub (Decimals1 pool) (Decimals0 pool)) = 1 /\
  Decoder.curvePrice pool event
  = Quo (SetInt (TokensSold event)) (SetInt (TokensBought event)).
Proof.
  intros Hd.
  assert (Hsub : GoInt.sub (Decimals1 pool) (Decimals0 pool)
                 = Decimals1 pool - Decimals0 pool).
  { unfold GoInt.sub. apply wrap64_small. lia. }
  assert (Hexp : GoInt.Exp 10 (GoInt.sub (Decimals1 pool) (Decimals0 pool))
                 = 1).
  { rewrite Hsub. unfold GoInt.Exp. by destruct (Z.leb_spec
      (Decimals1 pool - Decimals0 pool) 0); [|lia]. }
  split; [exact Hexp|].
  unfold Decoder.curvePrice. rewrite Hexp, Hsub.
  destruct (Z.eqb_spec (Decimals1 pool - Decimals0 pool) 0); [lia|].
  destruct (Quo _ _) as [price|] eqn:Hq; [simpl|reflexivity].
  pose proof (SetInt_prec (TokensSold event)) as Hp1.
  assert (HP : 64 <= resultPrec (SetInt (TokensSold event))
                       (SetInt (TokensBought event)))
    by (unfold resultPrec; lia).
  assert (HP1 : 1 <= resultPrec (SetInt (TokensSold event))
                       (SetInt (TokensBought event))) by lia.
  destruct (Quo_wf _ _ _ HP1 Hq) as [Hp Hwf].
  apply Mul_one; [|done]. by rewrite Hp.
Qed.

(** The failing input of C2: [Decimals0 = 18], [Decimals1 = 6],
    [TokensSold = 10^18], [TokensBought = 10^6].  The raw ratio is [10^12],
    and so is the price returned; the division by [10^12] gives 1. *)
Lemma curve_adjustment_by_negative_exponent_is_identity_witness :
  let pool := mkPool "0xC1" "A" "B" 1 2 18 6 "curve" in
  let event := mkExchange 0 0 (10 ^ 18) 1 (10 ^ 6) in
  - 2 ^ 63 <= Decimals1 pool - Decimals0 pool < 0 /\
  GoInt.sub (Decimals1 pool) (Decimals0 pool) = -12 /\
  GoInt.Exp 10 (-12) = 1 /\
  Decoder.curvePrice pool event
  = Quo (SetInt (TokensSold event)) (SetInt (TokensBought event)) /\
  Decoder.curvePrice pool event = Some (SetInt (10 ^ 12)) /\
  Quo (SetInt (10 ^ 12)) (SetInt (10 ^ 12)) = Some (SetInt 1) /\
  Decoder.curvePrice pool event ≠ Some (SetInt 1).
Proof.
  cbv zeta.
  assert (Hd : - 2 ^ 63 <= Decimals1 (mkPool "0xC1" "A" "B" 1 2 18 6 "curve")
                           - Decimals0 (mkPool "0xC1" "A" "B" 1 2 18 6 "curve")
               < 0) by (simpl; lia).
  split; [exact Hd|].
  split; [reflexivity|]. split; [reflexivity|].
  split.
  - exact (proj2 (curve_adjustment_by_negative_exponent_is_identity
                    (mkPool "0xC1" "A" "B" 1 2 18 6 "curve")
                    (mkExchange 0 0 (10 ^ 18) 1 (10 ^ 6)) Hd)).
  - split; [vm_compute; reflexivity|].
    split; [vm_compute; reflexivity|]. vm_compute. discriminate.
Defined.

(** ** The order of [Cmp] *)

Lemma ucmp_antisym m1 e1 m2 e2 :
  ucmp m2 e2 m1 e1 = CompOpp (ucmp m1 e1 m2 e2).
Proof. unfold ucmp. rewrite (Z.min_comm e2 e1). apply Z.compare_antisym. Qed.

Lemma Cmp_antisym x y : Cmp y x = CompOpp (Cmp x y).
Proof.
  unfold Cmp. rewrite (Z.compare_antisym (ord (val x)) (ord (val y))).
  destruct (ord (val x) ?= ord (val y)) eqn:E; simpl; try reflexivity.
  destruct (val x) as [n1|n1|n1 m1 e1], (val y) as [n2|n2|n2 m2 e2];
    try reflexivity.
  apply Z.compare_eq in E. simpl in E.
  destruct n1, n2; try discriminate; apply ucmp_antisym.
Qed.

(** The comparison of two magnitudes, at any exponent below both. *)
Lemma ucmp_shift m1 e1 m2 e2 e0 :
  e0 <= e1 -> e0 <= e2 ->
  ucmp m1 e1 m2 e2 = (Z.pos m1 * 2 ^ (e1 - e0) ?= Z.pos m2 * 2 ^ (e2 - e0)).
Proof.
  intros H1 H2. unfold ucmp. set (e := Z.min e1 e2).
  assert (He : e0 <= e) by (unfold e; lia).
  replace (e1 - e0) with ((e1 - e) + (e - e0)) by lia.
  replace (e2 - e0) with ((e2 - e) + (e - e0)) by lia.
  rewrite !Z.pow_add_r by (unfold e; lia).
  rewrite !Z.mul_assoc. apply Zmult_compare_compat_r.
  apply Z.lt_gt, Z.pow_pos_nonneg; lia.
Qed.

Lemma ucmp_trans m1 e1 m2 e2 m3 e3 :
  ucmp m1 e1 m2 e2 <> Lt -> ucmp m2 e2 m3 e3 <> Lt -> ucmp m1 e1 m3 e3 <> Lt.
Proof.
  set (e0 := Z.min e1 (Z.min e2 e3)).
  rewrite (ucmp_shift m1 e1 m2 e2 e0), (ucmp_shift m2 e2 m3 e3 e0),
    (ucmp_shift m1 e1 m3 e3 e0) by (unfold e0; lia).
  rewrite !Z.compare_lt_iff. lia.
Qed.

Lemma cmpGe_refl x : cmpGe x x.
Proof. unfold cmpGe. by rewrite Cmp_refl. Qed.

Lemma cmpGe_trans x y z : cmpGe x y -> cmpGe y z -> cmpGe x z.
Proof.
  unfold cmpGe, Cmp.
  destruct (Z.compare_spec (ord (val x)) (ord (val y))) as [Exy|Exy|Exy];
    destruct (Z.compare_spec (ord (val y)) (ord (val z))) as [Eyz|Eyz|Eyz];
    intros H1 H2; try congruence.
  - replace (ord (val x) ?= ord (val z)) with Eq
      by (symmetry; apply Z.compare_eq_iff; lia).
    destruct (val x) as [n1|n1|n1 m1 e1], (val y) as [n2|n2|n2 m2 e2],
      (val z) as [n3|n3|n3 m3 e3]; simpl in *; try congruence;
      destruct n1, n2, n3; try lia.
    + exact (ucmp_trans _ _ _ _ _ _ H2 H1).
    + exact (ucmp_trans _ _ _ _ _ _ H1 H2).
  - replace (ord (val x) ?= ord (val z)) with Gt
      by (symmetry; apply Z.compare_gt_iff; lia). congruence.
  - replace (ord (val x) ?= ord (val z)) with Gt
      by (symmetry; apply Z.compare_gt_iff; lia). congruence.
  - replace (ord (val x) ?= ord (val z)) with Gt
      by (symmetry; apply Z.compare_gt_iff; lia). congruence.
Qed.

Lemma cmpGe_antisym x y : cmpGe x y -> cmpGe y x -> Cmp x y = Eq.
Proof.
  unfold cmpGe. rewrite (Cmp_antisym x y). by destruct (Cmp x y).
Qed.

Lemma keepGreater_ge_held held new :
  cmpGe (LogPrice (keepGreater (Some held) new)) (LogPrice held).
Proof.
  unfold keepGreater, cmpGt, cmpGe.
  destruct (Cmp (LogPrice new) (LogPrice held)) eqn:E;
    rewrite ?Cmp_refl, ?E; discriminate.
Qed.

Lemma keepGreater_ge_new held new :
  cmpGe (LogPrice (keepGreater held new)) (LogPrice new).
Proof.
  unfold keepGreater, cmpGt, cmpGe.
  destruct held as [old|]; [|by rewrite Cmp_refl].
  destruct (Cmp (LogPrice new) (LogPrice old)) eqn:E;
    rewrite ?Cmp_refl; try discriminate; rewrite Cmp_antisym, E; discriminate.
Qed.

Lemma keepGreater_cases held new :
  keepGreater held new = new \/ held = Some (keepGreater held new).
Proof.
  unfold keepGreater. destruct held as [old|]; [|by left].
  destruct (cmpGt _ _); [by left|by right].
Qed.

(** ** The best records along a sequence of updates *)

(** The best records of any key after an update. *)
Lemma update_best_fields ln64 clk pool price dex st st' :
  updatePriceCache ln64 clk pool price dex st = Returned st' ->
  exists logPrice reversePrice,
    logOf ln64 price = Some logPrice /\
    Quo Float64.NewFloat_1 price = Some reversePrice /\
    forall k,
      bestForward k st'
      = (if decide (k = forwardPair pool)
         then Some (keepGreater (bestForward k st)
                      (mkPriceInfo dex (Address pool) price logPrice
                         (nowForward clk)))
         else bestForward k st) /\
      bestReverse k st'
      = (if decide (k = reversePair pool)
         then Some (keepGreater (bestReverse k st)
                      (mkPriceInfo dex (Address pool) reversePrice
                         (Neg logPrice) (nowReverse clk)))
         else bestReverse k st).
Proof.
  intros Hret.
  destruct (updatePriceCache_Returned _ _ _ _ _ _ _ Hret)
    as (logPrice & reversePrice & Hlog & Hquo & _ & Hbc).
  simpl in Hbc. exists logPrice, reversePrice.
  split; [done|]. split; [done|].
  intros k. unfold bestForward, bestReverse. rewrite Hbc. split.
  - rewrite bestReverseStep_Forward.
    destruct (decide (k = forwardPair pool)) as [->|Hne].
    + apply bestForwardStep_Forward.
    + by rewrite bestForwardStep_other.
  - destruct (decide (k = reversePair pool)) as [->|Hne].
    + rewrite bestReverseStep_Reverse. by rewrite bestForwardStep_Reverse.
    + rewrite bestReverseStep_other by done. apply bestForwardStep_Reverse.
Qed.

Lemma updateAll_cons ln64 u us st st' :
  updateAll ln64 (u :: us) st = Returned st' ->
  exists st1,
    updatePriceCache ln64 (clockOf u) (poolOf u) (priceOf u) (dexOf u) st
    = Returned st1 /\
    updateAll ln64 us st1 = Returned st'.
Proof.
  simpl. destruct (updatePriceCache _ _ _ _ _ _) as [st1|]; [|done]. eauto.
Qed.

Lemma updateAll_reachable ln64 us st st' :
  reachable ln64 st -> updateAll ln64 us st = Returned st' ->
  reachable ln64 st'.
Proof.
  revert st. induction us as [|u us IH]; intros st Hreach Hrun.
  - by injection Hrun as <-.
  - destruct (updateAll_cons _ _ _ _ _ Hrun) as (st1 & Hupd & Hrest).
    apply (IH st1); [|done]. by eapply reachable_update.
Qed.

Lemma updateAll_best_monotone ln64 us st st' :
  updateAll ln64 us st = Returned st' ->
  forall k h,
    (bestForward k st = Some h ->
     exists h', bestForward k st' = Some h' /\
                cmpGe (LogPrice h') (LogPrice h)) /\
    (bestReverse k st = Some h ->
     exists h', bestReverse k st' = Some h' /\
                cmpGe (LogPrice h') (LogPrice h)).
Proof.
  revert st. induction us as [|u us IH]; intros st Hrun k h.
  - injection Hrun as <-.
    split; intros Hh; exists h; (split; [done|apply cmpGe_refl]).
  - destruct (updateAll_cons _ _ _ _ _ Hrun) as (st1 & Hupd & Hrest).
    destruct (update_best_fields _ _ _ _ _ _ _ Hupd)
      as (logPrice & reversePrice & _ & _ & Hk).
    destruct (Hk k) as [Hf Hr]. split; intros Hh.
    + rewrite Hh in Hf. destruct (decide (k = forwardPair (poolOf u))).
      * destruct (proj1 (IH st1 Hrest k _) Hf) as (h' & Hh' & Hge).
        exists h'. split; [done|].
        eapply cmpGe_trans; [exact Hge|apply keepGreater_ge_held].
      * exact (proj1 (IH st1 Hrest k h) Hf).
    + rewrite Hh in Hr. destruct (decide (k = reversePair (poolOf u))).
      * destruct (proj2 (IH st1 Hrest k _) Hr) as (h' & Hh' & Hge).
        exists h'. split; [done|].
        eapply cmpGe_trans; [exact Hge|apply keepGreater_ge_held].
      * exact (proj2 (IH st1 Hrest k h) Hr).
Qed.

(** The best records are at least every price reported. *)
Lemma updateAll_best_dominates ln64 us st st' pool price logPrice :
  updateAll ln64 us st = Returned st' ->
  (pool, price) ∈ reports us ->
  logOf ln64 price = Some logPrice ->
  (exists h, bestForward (forwardPair pool) st' = Some h /\
             cmpGe (LogPrice h) logPrice) /\
  (exists h, bestReverse (reversePair pool) st' = Some h /\
             cmpGe (LogPrice h) (Neg logPrice)).
Proof.
  revert st. induction us as [|u us IH]; intros st Hrun Hin Hlog.
  - by apply elem_of_nil in Hin.
  - destruct (updateAll_cons _ _ _ _ _ Hrun) as (st1 & Hupd & Hrest).
    unfold reports in Hin. rewrite fmap_cons, elem_of_cons in Hin.
    destruct Hin as [E|Hin]; [|by apply (IH st1)].
    injection E as -> ->.
    destruct (update_best_fields _ _ _ _ _ _ _ Hupd)
      as (logPrice' & reversePrice & Hlog' & _ & Hk).
    assert (logPrice' = logPrice) as -> by congruence.
    split.
    + destruct (Hk (forwardPair (poolOf u))) as [Hf _].
      rewrite decide_True in Hf by done.
      destruct (proj1 (updateAll_best_monotone _ _ _ _ Hrest _ _) Hf)
        as (h & Hh & Hge).
      exists h. split; [done|].
      eapply cmpGe_trans; [exact Hge|]. apply keepGreater_ge_new.
    + destruct (Hk (reversePair (poolOf u))) as [_ Hr].
      rewrite decide_True in Hr by done.
      destruct (proj2 (updateAll_best_monotone _ _ _ _ Hrest _ _) Hr)
        as (h & Hh & Hge).
      exists h. split; [done|].
      eapply cmpGe_trans; [exact Hge|]. apply keepGreater_ge_new.
Qed.

(** A best record is the one held at the start or the record of one of the
    updates. *)
Lemma updateAll_best_origin ln64 us st st' :
  updateAll ln64 us st = Returned st' ->
  forall k h,
    (bestForward k st' = Some h ->
     bestForward k st = Some h \/
     exists pool price,
       (pool, price) ∈ reports us /\ forwardPair pool = k /\
       logOf ln64 price = Some (LogPrice h)) /\
    (bestReverse k st' = Some h ->
     bestReverse k st = Some h \/
     exists pool price logPrice,
       (pool, price) ∈ reports us /\ reversePair pool = k /\
       logOf ln64 price = Some logPrice /\ LogPrice h = Neg logPrice).
Proof.
  revert st. induction us as [|u us IH]; intros st Hrun k h.
  - injection Hrun as <-. split; by left.
  - destruct (updateAll_cons _ _ _ _ _ Hrun) as (st1 & Hupd & Hrest).
    destruct (update_best_fields _ _ _ _ _ _ _ Hupd)
      as (logPrice & reversePrice & Hlog & _ & Hk).
    destruct (Hk k) as [Hf Hr]. destruct (IH st1 Hrest k h) as [IHf IHr].
    unfold reports. rewrite fmap_cons. fold (reports us).
    split; intros Hh.
    + destruct (IHf Hh) as [Hheld|(pool & price & Hin & Hkey & Hl)].
      * rewrite Hheld in Hf.
        destruct (decide (k = forwardPair (poolOf u))) as [->|Hne];
          [|by left].
        injection Hf as Hf.
        destruct (keepGreater_cases
                    (bestForward (forwardPair (poolOf u)) st)
                    (mkPriceInfo (dexOf u) (Address (poolOf u)) (priceOf u)
                       logPrice (nowForward (clockOf u))))
          as [E|E].
        -- right. exists (poolOf u), (priceOf u).
           split; [apply list_elem_of_here|]. split; [done|].
           rewrite Hf, E. done.
        -- left. by rewrite E, <- Hf.
      * right. exists pool, price.
        split; [by apply list_elem_of_further|done].
    + destruct (IHr Hh) as [Hheld|(pool & price & l & Hin & Hkey & Hl & Hn)].
      * rewrite Hheld in Hr.
        destruct (decide (k = reversePair (poolOf u))) as [->|Hne];
          [|by left].
        injection Hr as Hr.
        destruct (keepGreater_cases
                    (bestReverse (reversePair (poolOf u)) st)
                    (mkPriceInfo (dexOf u) (Address (poolOf u)) reversePrice
                       (Neg logPrice) (nowReverse (clockOf u))))
          as [E|E].
        -- right. exists (poolOf u), (priceOf u), logPrice.
           split; [apply list_elem_of_here|]. split; [done|].
           split; [done|]. rewrite Hr, E. done.
        -- left. by rewrite E, <- Hr.
      * right. exists pool, price, l.
        split; [by apply list_elem_of_further|done].
Qed.

(** The best records of one sequence are at least those of another that
    reports no more. *)
Lemma updateAll_best_le ln64 us1 us2 st s1 s2 k :
  (forall r, r ∈ reports us1 -> r ∈ reports us2) ->
  updateAll ln64 us1 st = Returned s1 ->
  updateAll ln64 us2 st = Returned s2 ->
  (forall h1, bestForward k s1 = Some h1 ->
     exists h2, bestForward k s2 = Some h2 /\
                cmpGe (LogPrice h2) (LogPrice h1)) /\
  (forall h1, bestReverse k s1 = Some h1 ->
     exists h2, bestReverse k s2 = Some h2 /\
                cmpGe (LogPrice h2) (LogPrice h1)).
Proof.
  intros Hsub H1 H2. split; intros h1 Hh1.
  - destruct (proj1 (updateAll_best_origin _ _ _ _ H1 k h1) Hh1)
      as [Hheld|(pool & price & Hin & <- & Hl)].
    + exact (proj1 (updateAll_best_monotone _ _ _ _ H2 k h1) Hheld).
    + exact (proj1 (updateAll_best_dominates _ _ _ _ _ _ _ H2
                      (Hsub _ Hin) Hl)).
  - destruct (proj2 (updateAll_best_origin _ _ _ _ H1 k h1) Hh1)
      as [Hheld|(pool & price & l & Hin & <- & Hl & ->)].
    + exact (proj2 (updateAll_best_monotone _ _ _ _ H2 k h1) Hheld).
    + exact (proj2 (updateAll_best_dominates _ _ _ _ _ _ _ H2
                      (Hsub _ Hin) Hl)).
Qed.

Lemma sameLogPrice_of_le a b :
  (forall x, a = Some x ->
     exists y, b = Some y /\ cmpGe (LogPrice y) (LogPrice x)) ->
  (forall y, b = Some y ->
     exists x, a = Some x /\ cmpGe (LogPrice x) (LogPrice y)) ->
  sameLogPrice a b.
Proof.
  intros Hab Hba. destruct a as [x|], b as [y|]; simpl.
  - destruct (Hab x eq_refl) as (y' & [= <-] & Hyx).
    destruct (Hba y eq_refl) as (x' & [= <-] & Hxy).
    by apply cmpGe_antisym.
  - by destruct (Hab x eq_refl) as (y' & ? & _).
  - by destruct (Hba y eq_refl) as (x' & ? & _).
  - done.
Qed.

(** X1. The best record of a key and direction, once held, is never lost
    and never replaced by one of a lower [LogPrice]: whatever updates
    follow, of whatever pools, the entry holds a record whose [LogPrice]
    compares greater than or equal to the one held before. *)
Theorem best_price_never_decreases ln64 us st st' k h :
  updateAll ln64 us st = Returned st' ->
  (bestForward k st = Some h ->
   exists h', bestForward k st' = Some h' /\
              cmpGe (LogPrice h') (LogPrice h)) /\
  (bestReverse k st = Some h ->
   exists h', bestReverse k st' = Some h' /\
              cmpGe (LogPrice h') (LogPrice h)).
Proof. intros H. exact (updateAll_best_monotone ln64 us st st' H k h). Qed.

Lemma best_price_never_decreases_witness :
  exists st st' h,
    updateAll log2Floor [ExRun.u16] initCaches = Returned st /\
    updateAll log2Floor [ExRun.u4; ExRun.u1] st = Returned st' /\
    bestForward "A_B" st = Some h /\
    exists h', bestForward "A_B" st' = Some h' /\
               cmpGe (LogPrice h') (LogPrice h).
Proof.
  eexists _, _, _.
  split; [reflexivity|]. split; [reflexivity|]. split; [reflexivity|].
  match goal with
  | |- exists h', bestForward _ ?st' = Some h' /\
                  cmpGe (LogPrice h') (LogPrice ?h) =>
      refine (proj1 (best_price_never_decreases log2Floor
                       [ExRun.u4; ExRun.u1] _ st' "A_B" h _) _);
        reflexivity
  end.
Defined.

(** X2. After a sequence of updates, the best forward record of the key
    of a pool is at least the logarithm of every price that was reported
    for the pool in the sequence, and the best reverse record of its
    reverse key at least the negation of that logarithm. *)
Theorem best_price_dominates_every_report
    ln64 us st st' pool price logPrice :
  updateAll ln64 us st = Returned st' ->
  (pool, price) ∈ reports us ->
  logOf ln64 price = Some logPrice ->
  (exists h, bestForward (forwardPair pool) st' = Some h /\
             cmpGe (LogPrice h) logPrice) /\
  (exists h, bestReverse (reversePair pool) st' = Some h /\
             cmpGe (LogPrice h) (Neg logPrice)).
Proof. apply updateAll_best_dominates. Qed.

Lemma best_price_dominates_every_report_witness :
  exists st' l,
    updateAll log2Floor [ExRun.u16; ExRun.u4; ExRun.u1] initCaches
    = Returned st' /\
    (Ex.P2, Ex.p4) ∈ reports [ExRun.u16; ExRun.u4; ExRun.u1] /\
    logOf log2Floor Ex.p4 = Some l /\
    exists h, bestForward "A_B" st' = Some h /\ cmpGe (LogPrice h) l.
Proof.
  assert (Hin : (Ex.P2, Ex.p4) ∈ reports [ExRun.u16; ExRun.u4; ExRun.u1])
    by (apply list_elem_of_further, list_elem_of_here).
  eexists _, _.
  split; [reflexivity|]. split; [exact Hin|]. split; [reflexivity|].
  refine (proj1 (best_price_dominates_every_report log2Floor
                   [ExRun.u16; ExRun.u4; ExRun.u1] initCaches _ Ex.P2 Ex.p4 _
                   _ Hin _)); reflexivity.
Defined.

(** X3. The [LogPrice] of the best records does not depend on the order
    in which the updates take the mutex, nor on the clock: two sequences
    that report the same prices of the same pools, in any order, from the
    same caches, leave for every key best records of equal [LogPrice], or
    none on both sides.  (Which of two records of equal [LogPrice] is kept
    does depend on the order.) *)
Theorem best_log_price_does_not_depend_on_the_order
    ln64 us1 us2 st s1 s2 k :
  reports us1 ≡ₚ reports us2 ->
  updateAll ln64 us1 st = Returned s1 ->
  updateAll ln64 us2 st = Returned s2 ->
  sameLogPrice (bestForward k s1) (bestForward k s2) /\
  sameLogPrice (bestReverse k s1) (bestReverse k s2).
Proof.
  intros Hperm H1 H2.
  assert (H12 : forall r, r ∈ reports us1 -> r ∈ reports us2)
    by (intros r; by rewrite Hperm).
  assert (H21 : forall r, r ∈ reports us2 -> r ∈ reports us1)
    by (intros r; by rewrite Hperm).
  destruct (updateAll_best_le ln64 us1 us2 st s1 s2 k H12 H1 H2) as [Af Ar].
  destruct (updateAll_best_le ln64 us2 us1 st s2 s1 k H21 H2 H1) as [Bf Br].
  split; by apply sameLogPrice_of_le.
Qed.

Lemma best_log_price_does_not_depend_on_the_order_witness :
  let us1 := [ExRun.u16; ExRun.u4] in
  let us2 := [mkUpdate (Ex.at_ 100) Ex.P2 Ex.p4 "uniswap";
              mkUpdate (Ex.at_ 200) Ex.P1 Ex.p16 "uniswap"] in
  exists s1 s2,
    reports us1 ≡ₚ reports us2 /\
    updateAll log2Floor us1 initCaches = Returned s1 /\
    updateAll log2Floor us2 initCaches = Returned s2 /\
    sameLogPrice (bestForward "A_B" s1) (bestForward "A_B" s2).
Proof.
  cbv zeta.
  assert (Hperm : reports [ExRun.u16; ExRun.u4]
                  ≡ₚ reports [mkUpdate (Ex.at_ 100) Ex.P2 Ex.p4 "uniswap";
                              mkUpdate (Ex.at_ 200) Ex.P1 Ex.p16 "uniswap"])
    by apply perm_swap.
  eexists _, _.
  split; [exact Hperm|]. split; [reflexivity|]. split; [reflexivity|].
  refine (proj1 (best_log_price_does_not_depend_on_the_order log2Floor
                   _ _ initCaches _ _ "A_B" Hperm _ _)); reflexivity.
Defined.

(** ** The buckets along a sequence of updates *)

Lemma othersOf_removePool addr l :
  othersOf addr (removePool addr l) = othersOf addr l.
Proof.
  unfold othersOf. induction l as [|info rest IH]; simpl; [done|].
  destruct (String.eqb_spec (PoolAddr info) addr); simpl.
  - reflexivity.
  - destruct (String.eqb_spec (PoolAddr info) addr); [done|].
    simpl. by rewrite IH.
Qed.

Lemma othersOf_put addr info l :
  PoolAddr info = addr ->
  othersOf addr (removePool addr l ++ [info]) = othersOf addr l.
Proof.
  intros Ha. unfold othersOf. rewrite List.filter_app.
  fold (othersOf addr (removePool addr l)). rewrite othersOf_removePool.
  simpl. rewrite Ha, String.eqb_refl. simpl. apply app_nil_r.
Qed.

(** X4. An update touches the records of its own pool only: in every
    bucket the records of the other pools are the same after it, in the
    same order, and the buckets and best-price entries of all keys but the
    two keys of the pool are left as they were. *)
Theorem update_keeps_the_records_of_other_pools
    ln64 clk pool price dex st st' :
  updatePriceCache ln64 clk pool price dex st = Returned st' ->
  (forall k, othersOf (Address pool) (bucket k (priceCache st'))
             = othersOf (Address pool) (bucket k (priceCache st))) /\
  (forall k, k ≠ forwardPair pool -> k ≠ reversePair pool ->
             priceCache st' !! k = priceCache st !! k /\
             bestPriceCache st' !! k = bestPriceCache st !! k).
Proof.
  intros Hret.
  destruct (updatePriceCache_Returned _ _ _ _ _ _ _ Hret)
    as (logPrice & reversePrice & _ & _ & Hpc & Hbc).
  simpl in Hpc, Hbc. rewrite Hpc, Hbc. split.
  - intros k. destruct (decide (reversePair pool = k)) as [<-|Hr].
    + rewrite bucket_putRecord_eq, othersOf_put by done.
      destruct (decide (forwardPair pool = reversePair pool)) as [E|Hf].
      * rewrite E, bucket_putRecord_eq. by rewrite othersOf_put.
      * by rewrite bucket_putRecord_ne.
    + rewrite bucket_putRecord_ne by done.
      destruct (decide (forwardPair pool = k)) as [<-|Hf].
      * rewrite bucket_putRecord_eq. by rewrite othersOf_put.
      * by rewrite bucket_putRecord_ne.
  - intros k Hf Hr. split.
    + unfold putRecord. by rewrite !lookup_insert_ne.
    + rewrite bestReverseStep_other, bestForwardStep_other by done. done.
Qed.

Lemma update_keeps_the_records_of_other_pools_witness :
  exists st st',
    updateAll log2Floor [ExRun.u16] initCaches = Returned st /\
    updatePriceCache log2Floor (Ex.at_ 200) Ex.P2 Ex.p4 "uniswap" st
    = Returned st' /\
    othersOf "0xP2" (bucket "A_B" (priceCache st'))
    = othersOf "0xP2" (bucket "A_B" (priceCache st)).
Proof.
  eexists _, _. split; [reflexivity|]. split; [reflexivity|].
  refine (proj1 (update_keeps_the_records_of_other_pools log2Floor
                   (Ex.at_ 200) Ex.P2 Ex.p4 "uniswap" _ _ _) "A_B");
    reflexivity.
Defined.

Lemma poolAddrs_removePool_other addr a l :
  a ≠ addr -> a ∈ poolAddrs l -> a ∈ poolAddrs (removePool addr l).
Proof.
  unfold poolAddrs. intros Hne.
  induction l as [|info rest IH]; simpl; [done|].
  rewrite elem_of_cons. intros [->|Hin].
  - destruct (String.eqb_spec (PoolAddr info) addr); [done|].
    simpl. apply list_elem_of_here.
  - destruct (String.eqb_spec (PoolAddr info) addr); [done|].
    simpl. apply list_elem_of_further. by apply IH.
Qed.

Lemma poolAddrs_put addr info a l :
  PoolAddr info = addr ->
  a ∈ poolAddrs (removePool addr l ++ [info]) <-> a = addr \/ a ∈ poolAddrs l.
Proof.
  intros Ha. unfold poolAddrs. rewrite fmap_app, elem_of_app. simpl.
  rewrite list_elem_of_singleton, Ha. split.
  - intros [Hin| ->]; [|by left]. right.
    by apply (poolAddrs_removePool_subset addr a l).
  - intros [->|Hin]; [by right|].
    destruct (decide (a = addr)) as [->|Hne]; [by right|left].
    by apply poolAddrs_removePool_other.
Qed.

(** The pools of any bucket after an update. *)
Lemma update_poolAddrs ln64 clk pool price dex st st' k a :
  updatePriceCache ln64 clk pool price dex st = Returned st' ->
  a ∈ poolAddrs (bucket k (priceCache st')) <->
  (a = Address pool /\ (k = forwardPair pool \/ k = reversePair pool)) \/
  a ∈ poolAddrs (bucket k (priceCache st)).
Proof.
  intros Hret.
  destruct (updatePriceCache_Returned _ _ _ _ _ _ _ Hret)
    as (logPrice & reversePrice & _ & _ & Hpc & _).
  simpl in Hpc. rewrite Hpc.
  destruct (decide (reversePair pool = k)) as [<-|Hr].
  - rewrite bucket_putRecord_eq, poolAddrs_put by done.
    destruct (decide (forwardPair pool = reversePair pool)) as [E|Hf].
    + rewrite E, bucket_putRecord_eq, poolAddrs_put by done. tauto.
    + rewrite bucket_putRecord_ne by done. tauto.
  - rewrite bucket_putRecord_ne by done.
    destruct (decide (forwardPair pool = k)) as [<-|Hf].
    + rewrite bucket_putRecord_eq, poolAddrs_put by done. tauto.
    + rewrite bucket_putRecord_ne by done. split; [tauto|].
      intros [[_ [?|?]]|?]; congruence.
Qed.

(** X5. In every state the process reaches, the best record of a key, in
    either direction, is of a pool that has a record in the bucket of the
    key (the record in the bucket may be a later, lower one). *)
Theorem best_record_is_of_a_pool_of_the_bucket ln64 st k h :
  reachable ln64 st ->
  bestForward k st = Some h \/ bestReverse k st = Some h ->
  PoolAddr h ∈ poolAddrs (bucket k (priceCache st)).
Proof.
  intros Hreach. revert k h.
  induction Hreach as [|clk pool price dex st st' _ IH Hupd]; intros k h.
  - unfold bestForward, bestReverse. simpl. rewrite lookup_empty. simpl.
    intros [?|?]; discriminate.
  - destruct (update_best_fields _ _ _ _ _ _ _ Hupd)
      as (logPrice & reversePrice & _ & _ & Hk).
    destruct (Hk k) as [Hf Hr]. rewrite Hf, Hr.
    rewrite (update_poolAddrs _ _ _ _ _ _ _ k _ Hupd).
    intros [Hh|Hh].
    + destruct (decide (k = forwardPair pool)) as [->|Hne].
      * injection Hh as <-.
        destruct (keepGreater_cases (bestForward (forwardPair pool) st)
          (mkPriceInfo dex (Address pool) price logPrice (nowForward clk)))
          as [-> | E]; [left; auto|].
        right. apply IH. left. exact E.
      * right. apply IH. by left.
    + destruct (decide (k = reversePair pool)) as [->|Hne].
      * injection Hh as <-.
        destruct (keepGreater_cases (bestReverse (reversePair pool) st)
          (mkPriceInfo dex (Address pool) reversePrice (Neg logPrice)
             (nowReverse clk)))
          as [-> | E]; [left; auto|].
        right. apply IH. right. exact E.
      * right. apply IH. by right.
Qed.

Lemma best_record_is_of_a_pool_of_the_bucket_witness :
  exists st h,
    updatePriceCache log2Floor (Ex.at_ 100) Ex.P1 Ex.p16 "uniswap" initCaches
    = Returned st /\
    reachable log2Floor st /\
    bestForward "A_B" st = Some h /\
    PoolAddr h ∈ poolAddrs (bucket "A_B" (priceCache st)).
Proof.
  eexists _, _. split; [reflexivity|].
  match goal with
  | |- reachable _ ?st /\ _ =>
      assert (Hreach : reachable log2Floor st)
        by exact (reachable_update log2Floor (Ex.at_ 100) Ex.P1 Ex.p16
                    "uniswap" initCaches st (reachable_init log2Floor)
                    eq_refl)
  end.
  split; [exact Hreach|]. split; [reflexivity|].
  refine (best_record_is_of_a_pool_of_the_bucket log2Floor _ "A_B" _
            Hreach (or_introl _)); reflexivity.
Defined.

(** X6. No update ever takes a pool out of a bucket: a pool that has a
    record under a key has one under that key after any sequence of
    updates, however old its last report. *)
Theorem recorded_pools_are_never_dropped ln64 us st st' k a :
  updateAll ln64 us st = Returned st' ->
  a ∈ poolAddrs (bucket k (priceCache st)) ->
  a ∈ poolAddrs (bucket k (priceCache st')).
Proof.
  revert st. induction us as [|u us IH]; intros st Hrun Hin.
  - by injection Hrun as <-.
  - destruct (updateAll_cons _ _ _ _ _ Hrun) as (st1 & Hupd & Hrest).
    apply (IH st1 Hrest).
    rewrite (update_poolAddrs _ _ _ _ _ _ _ k a Hupd). by right.
Qed.

Lemma recorded_pools_are_never_dropped_witness :
  exists st st',
    updateAll log2Floor [ExRun.u16] initCaches = Returned st /\
    updateAll log2Floor [ExRun.u4; ExRun.u1] st = Returned st' /\
    "0xP1" ∈ poolAddrs (bucket "B_A" (priceCache st)) /\
    "0xP1" ∈ poolAddrs (bucket "B_A" (priceCache st')).
Proof.
  eexists _, _. split; [reflexivity|]. split; [reflexivity|].
  match goal with
  | |- _ ∈ poolAddrs (bucket _ (priceCache ?st)) /\
       _ ∈ poolAddrs (bucket _ (priceCache ?st')) =>
      assert (Hin : "0xP1" ∈ poolAddrs (bucket "B_A" (priceCache st)))
        by exact (list_elem_of_here "0xP1" []);
      split; [exact Hin|];
      exact (recorded_pools_are_never_dropped log2Floor
               [ExRun.u4; ExRun.u1] st st' "B_A" "0xP1" eq_refl Hin)
  end.
Defined.

Lemma bestForwardStep_entry k info now bc :
  exists best, bestForwardStep k info now bc !! k = Some best /\
               is_Some (Forward best).
Proof.
  unfold bestForwardStep. rewrite lookup_insert_eq.
  destruct (bc !! k) as [[[old|] r t]|]; simpl; eauto.
  destruct (cmpGt _ _); eauto.
Qed.

Lemma bestReverseStep_entry k info now bc :
  exists best, bestReverseStep k info now bc !! k = Some best /\
               is_Some (Reverse best).
Proof.
  unfold bestReverseStep. rewrite lookup_insert_eq.
  destruct (bc !! k) as [[f [old|] t]|]; simpl; eauto.
  destruct (cmpGt _ _); eauto.
Qed.

Lemma putRecord_lookup k k' addr info pc :
  putRecord k addr info pc !! k'
  = if decide (k = k') then Some (removePool addr (bucket k pc) ++ [info])
    else pc !! k'.
Proof.
  unfold putRecord. destruct (decide (k = k')) as [<-|Hne].
  - by rewrite lookup_insert_eq.
  - by rewrite lookup_insert_ne.
Qed.

(** X7. In every state the process reaches, the price cache and the
    best-price cache have the same keys, no bucket is empty, and every
    best-price entry holds a record in at least one direction. *)
Theorem caches_hold_the_same_keys ln64 st :
  reachable ln64 st -> sameKeys st.
Proof.
  induction 1 as [|clk pool price dex st st' _ IH Hupd]; intros k.
  - simpl. rewrite !lookup_empty. split; [|split]; done.
  - destruct (updatePriceCache_Returned _ _ _ _ _ _ _ Hupd)
      as (logPrice & reversePrice & _ & _ & Hpc & Hbc).
    simpl in Hpc, Hbc. rewrite Hpc, Hbc. clear Hpc Hbc.
    destruct (IH k) as (Hdom & Hne & Hrec).
    set (fi := mkPriceInfo dex (Address pool) price logPrice (nowForward clk)).
    set (ri := mkPriceInfo dex (Address pool) reversePrice (Neg logPrice)
                 (nowReverse clk)).
    rewrite !putRecord_lookup.
    destruct (decide (reversePair pool = k)) as [<-|Hr].
    + destruct (bestReverseStep_entry (reversePair pool) ri (nowBestReverse clk)
        (bestForwardStep (forwardPair pool) fi (nowBestForward clk)
           (bestPriceCache st))) as (best & -> & Hsome).
      split; [split; eauto|]. split.
      * intros [=E]. by destruct (removePool _ _).
      * intros ? [= <-]. by right.
    + rewrite bestReverseStep_other by done.
      destruct (decide (forwardPair pool = k)) as [<-|Hf].
      * destruct (bestForwardStep_entry (forwardPair pool) fi
          (nowBestForward clk) (bestPriceCache st)) as (best & -> & Hsome).
        split; [split; eauto|]. split.
        -- intros [=E]. by destruct (removePool _ _).
        -- intros ? [= <-]. by left.
      * rewrite bestForwardStep_other by done. done.
Qed.

Lemma caches_hold_the_same_keys_witness :
  exists st,
    updatePriceCache log2Floor (Ex.at_ 100) Ex.P1 Ex.p16 "uniswap" initCaches
    = Returned st /\
    reachable log2Floor st /\ sameKeys st.
Proof.
  eexists. split; [reflexivity|].
  match goal with
  | |- reachable _ ?st /\ _ =>
      assert (Hreach : reachable log2Floor st)
        by exact (reachable_update log2Floor (Ex.at_ 100) Ex.P1 Ex.p16
                    "uniswap" initCaches st (reachable_init log2Floor)
                    eq_refl)
  end.
  split; [exact Hreach|].
  exact (caches_hold_the_same_keys log2Floor _ Hreach).
Defined.

(** ** The same report twice, and reports of unrelated pools *)

Lemma removePool_snoc addr info l :
  PoolAddr info = addr -> addr ∉ poolAddrs l ->
  removePool addr (l ++ [info]) = l.
Proof.
  unfold poolAddrs. intros Ha. induction l as [|x rest IH]; simpl.
  - intros _. by rewrite Ha, String.eqb_refl.
  - rewrite not_elem_of_cons. intros [Hne Hnotin].
    destruct (String.eqb_spec (PoolAddr x) addr); [congruence|].
    by rewrite IH.
Qed.

(** A second record of the same pool under the same key takes the place of
    the first. *)
Lemma putRecord_absorb k addr i1 i2 pc :
  PoolAddr i1 = addr -> NoDup (poolAddrs (bucket k pc)) ->
  putRecord k addr i2 (putRecord k addr i1 pc) = putRecord k addr i2 pc.
Proof.
  intros Ha Hnd. unfold putRecord at 1. rewrite bucket_putRecord_eq.
  rewrite removePool_snoc by (done || by apply removePool_gone).
  unfold putRecord. by rewrite insert_insert_eq.
Qed.

Lemma putRecord_commute k k' addr addr' i i' pc :
  k ≠ k' ->
  putRecord k addr i (putRecord k' addr' i' pc)
  = putRecord k' addr' i' (putRecord k addr i pc).
Proof.
  intros Hne. unfold putRecord at 1 3.
  rewrite !bucket_putRecord_ne by done.
  unfold putRecord. by apply insert_insert_ne.
Qed.

(** A record that does not compare greater than the held one leaves the
    map of best prices as it is. *)
Lemma bestForwardStep_id k info now bc h :
  bc !! k ≫= Forward = Some h ->
  cmpGt (LogPrice info) (LogPrice h) = false ->
  bestForwardStep k info now bc = bc.
Proof.
  intros Hh Hc. unfold bestForwardStep.
  destruct (bc !! k) as [best|] eqn:E; [|done]. simpl in *.
  rewrite Hh, Hc. by apply insert_id.
Qed.

Lemma bestReverseStep_id k info now bc h :
  bc !! k ≫= Reverse = Some h ->
  cmpGt (LogPrice info) (LogPrice h) = false ->
  bestReverseStep k info now bc = bc.
Proof.
  intros Hh Hc. unfold bestReverseStep.
  destruct (bc !! k) as [best|] eqn:E; [|done]. simpl in *.
  rewrite Hh, Hc. by apply insert_id.
Qed.

Lemma cmpGt_keepGreater held new info :
  LogPrice info = LogPrice new ->
  cmpGt (LogPrice info) (LogPrice (keepGreater held new)) = false.
Proof.
  intros ->. pose proof (keepGreater_ge_new held new) as H.
  unfold cmpGe in H. unfold cmpGt. rewrite Cmp_antisym.
  by destruct (Cmp (LogPrice (keepGreater held new)) (LogPrice new)).
Qed.

(** X8. The same price of the same pool reported a second time, at any
    later reading of the clock, changes no best-price entry, not even its
    time; in the price cache it leaves what the second report alone would
    have left: the two records of the pool with the new times, in place of
    those of the first report. *)
Theorem repeated_report_changes_the_times_only
    ln64 clk1 clk2 pool price dex st st1 :
  reachable ln64 st ->
  updatePriceCache ln64 clk1 pool price dex st = Returned st1 ->
  exists st2 st2',
    updatePriceCache ln64 clk2 pool price dex st1 = Returned st2 /\
    updatePriceCache ln64 clk2 pool price dex st = Returned st2' /\
    bestPriceCache st2 = bestPriceCache st1 /\
    priceCache st2 = priceCache st2'.
Proof.
  intros Hreach Hupd.
  pose proof (reachable_uniquePools _ _ Hreach) as Huniq.
  destruct (update_best_fields _ _ _ _ _ _ _ Hupd)
    as (logPrice & reversePrice & Hlog & Hquo & Hk).
  destruct (updatePriceCache_Returned _ _ _ _ _ _ _ Hupd)
    as (logPrice' & reversePrice' & Hlog' & Hquo' & Hpc & _).
  assert (logPrice' = logPrice) as -> by congruence.
  assert (reversePrice' = reversePrice) as -> by congruence.
  simpl in Hpc.
  rewrite (updatePriceCache_returns _ clk2 _ _ _ st1 _ _ Hlog Hquo).
  rewrite (updatePriceCache_returns _ clk2 _ _ _ st _ _ Hlog Hquo).
  do 2 eexists. split; [reflexivity|]. split; [reflexivity|].
  simpl. split.
  - destruct (Hk (forwardPair pool)) as [Hf _].
    destruct (Hk (reversePair pool)) as [_ Hr].
    rewrite decide_True in Hf by done. rewrite decide_True in Hr by done.
    rewrite (bestForwardStep_id _ _ _ _ _ Hf) by (by apply cmpGt_keepGreater).
    by rewrite (bestReverseStep_id _ _ _ _ _ Hr)
      by (by apply cmpGt_keepGreater).
  - rewrite Hpc.
    set (f1 := mkPriceInfo dex (Address pool) price logPrice (nowForward clk1)).
    set (r1 := mkPriceInfo dex (Address pool) reversePrice (Neg logPrice)
                 (nowReverse clk1)).
    set (f2 := mkPriceInfo dex (Address pool) price logPrice (nowForward clk2)).
    set (r2 := mkPriceInfo dex (Address pool) reversePrice (Neg logPrice)
                 (nowReverse clk2)).
    set (pc := priceCache st) in *.
    destruct (decide (forwardPair pool = reversePair pool)) as [E|Hne].
    + rewrite E.
      rewrite (putRecord_absorb _ _ f1 r1 pc) by done.
      rewrite (putRecord_absorb _ _ r1 f2 pc) by done.
      done.
    + rewrite (putRecord_commute (forwardPair pool) (reversePair pool)) by done.
      rewrite (putRecord_absorb _ _ f1 f2 pc) by done.
      rewrite (putRecord_absorb _ _ r1 r2)
        by (done || by apply uniquePools_putRecord).
      done.
Qed.

Lemma repeated_report_changes_the_times_only_witness :
  exists st1,
    reachable log2Floor initCaches /\
    updatePriceCache log2Floor (Ex.at_ 100) Ex.P1 Ex.p16 "uniswap" initCaches
    = Returned st1 /\
    exists st2 st2',
      updatePriceCache log2Floor (Ex.at_ 200) Ex.P1 Ex.p16 "uniswap" st1
      = Returned st2 /\
      updatePriceCache log2Floor (Ex.at_ 200) Ex.P1 Ex.p16 "uniswap"
        initCaches = Returned st2' /\
      bestPriceCache st2 = bestPriceCache st1 /\
      priceCache st2 = priceCache st2'.
Proof.
  eexists. split; [apply reachable_init|]. split; [reflexivity|].
  refine (repeated_report_changes_the_times_only log2Floor (Ex.at_ 100)
            (Ex.at_ 200) Ex.P1 Ex.p16 "uniswap" initCaches _
            (reachable_init log2Floor) _); reflexivity.
Defined.

(** Steps on the entries of two different keys can be taken in either
    order. *)
Lemma bestForwardStep_commute k k' i i' n n' bc :
  k ≠ k' ->
  bestForwardStep k i n (bestForwardStep k' i' n' bc)
  = bestForwardStep k' i' n' (bestForwardStep k i n bc).
Proof.
  intros Hne. unfold bestForwardStep.
  rewrite !lookup_insert_ne by done. by apply insert_insert_ne.
Qed.

Lemma bestReverseStep_commute k k' i i' n n' bc :
  k ≠ k' ->
  bestReverseStep k i n (bestReverseStep k' i' n' bc)
  = bestReverseStep k' i' n' (bestReverseStep k i n bc).
Proof.
  intros Hne. unfold bestReverseStep.
  rewrite !lookup_insert_ne by done. by apply insert_insert_ne.
Qed.

Lemma bestForwardStep_bestReverseStep k k' i i' n n' bc :
  k ≠ k' ->
  bestForwardStep k i n (bestReverseStep k' i' n' bc)
  = bestReverseStep k' i' n' (bestForwardStep k i n bc).
Proof.
  intros Hne. unfold bestForwardStep, bestReverseStep.
  rewrite !lookup_insert_ne by done. by apply insert_insert_ne.
Qed.

(** X9. Updates of two pools that share no key can be taken in either
    order: the two caches are the same, entry for entry, bucket for bucket
    and time for time. *)
Theorem updates_of_unrelated_pools_commute
    ln64 clkp clkq p q pricep priceq dexp dexq st sp spq :
  unrelated p q ->
  updatePriceCache ln64 clkp p pricep dexp st = Returned sp ->
  updatePriceCache ln64 clkq q priceq dexq sp = Returned spq ->
  exists sq,
    updatePriceCache ln64 clkq q priceq dexq st = Returned sq /\
    updatePriceCache ln64 clkp p pricep dexp sq = Returned spq.
Proof.
  intros (Hff & Hfr & Hrf & Hrr) Hp Hq.
  destruct (updatePriceCache_Returned _ _ _ _ _ _ _ Hp)
    as (lp & rp & Hlp & Hqp & Hpcp & Hbcp).
  destruct (updatePriceCache_Returned _ _ _ _ _ _ _ Hq)
    as (lq & rq & Hlq & Hqq & Hpcq & Hbcq).
  simpl in *.
  rewrite (updatePriceCache_returns _ clkq _ _ _ st _ _ Hlq Hqq).
  eexists. split; [reflexivity|].
  rewrite (updatePriceCache_returns _ clkp _ _ _ _ _ _ Hlp Hqp).
  f_equal. destruct spq as [pc bc]. simpl in *. subst pc bc.
  rewrite Hpcp, Hbcp. f_equal.
  - rewrite (putRecord_commute (forwardPair q) (reversePair p)) by done.
    rewrite (putRecord_commute (forwardPair q) (forwardPair p)) by done.
    rewrite (putRecord_commute (reversePair q) (reversePair p)) by done.
    rewrite (putRecord_commute (reversePair q) (forwardPair p)) by done.
    done.
  - rewrite (bestForwardStep_bestReverseStep (forwardPair q) (reversePair p))
      by done.
    rewrite (bestForwardStep_commute (forwardPair q) (forwardPair p)) by done.
    rewrite (bestReverseStep_commute (reversePair q) (reversePair p)) by done.
    rewrite <- (bestForwardStep_bestReverseStep (forwardPair p) (reversePair q))
      by done.
    done.
Qed.

Lemma updates_of_unrelated_pools_commute_witness :
  exists sp spq,
    unrelated Ex.P1 ExRun.CD /\
    updatePriceCache log2Floor (Ex.at_ 100) Ex.P1 Ex.p16 "uniswap" initCaches
    = Returned sp /\
    updatePriceCache log2Floor (Ex.at_ 200) ExRun.CD Ex.p4 "curve" sp
    = Returned spq /\
    exists sq,
      updatePriceCache log2Floor (Ex.at_ 200) ExRun.CD Ex.p4 "curve" initCaches
      = Returned sq /\
      updatePriceCache log2Floor (Ex.at_ 100) Ex.P1 Ex.p16 "uniswap" sq
      = Returned spq.
Proof.
  assert (Hun : unrelated Ex.P1 ExRun.CD)
    by (repeat split; vm_compute; discriminate).
  eexists _, _. split; [exact Hun|]. split; [reflexivity|].
  split; [reflexivity|].
  refine (updates_of_unrelated_pools_commute log2Floor (Ex.at_ 100)
            (Ex.at_ 200) Ex.P1 ExRun.CD Ex.p16 Ex.p4 "uniswap" "curve"
            initCaches _ _ Hun _ _); reflexivity.
Defined.

(** ** Which events make a handler panic *)

Lemma setExpAndRound_Signbit p n m e sb :
  Signbit (setExpAndRound p n m e sb) = n.
Proof.
  pose proof (setExpAndRound_sign p n m e sb) as H.
  by destruct (setExpAndRound p n m e sb).
Qed.

Lemma SetInt_Signbit x : 0 <= x -> Signbit (val (SetInt x)) = false.
Proof.
  intros Hx. destruct x as [|m|m]; try lia; [done|].
  unfold SetInt. simpl. apply setExpAndRound_Signbit.
Qed.

Lemma SetInt_Finite x b :
  0 < x < 2 ^ b -> b < MaxExp ->
  exists m e, val (SetInt x) = Finite false m e.
Proof.
  intros Hx Hb. pose proof (BitLen_bound x b Hx).
  destruct (SetInt_pos x) as ((m & e & Hv & _) & _); [lia|lia|]. eauto.
Qed.

Lemma uquo_Signbit p n m1 e1 m2 e2 : Signbit (uquo p n m1 e1 m2 e2) = n.
Proof.
  unfold uquo. destruct (_ / _); try done. apply setExpAndRound_Signbit.
Qed.

(** Multiplying and dividing a number that is not negative by a finite,
    strictly positive one gives a result, and one that is not negative. *)
Lemma Mul_by_Finite x y m e :
  Signbit (val x) = false -> val y = Finite false m e ->
  exists z, Mul x y = Some z /\ Signbit (val z) = false.
Proof.
  intros Hx Hy. unfold Mul. rewrite Hy.
  destruct (val x) as [n|n|n m1 e1]; simpl in Hx; subst n; eexists;
    (split; [reflexivity|]); simpl; try done.
  apply setExpAndRound_Signbit.
Qed.

Lemma Quo_by_Finite x y m e :
  Signbit (val x) = false -> val y = Finite false m e ->
  exists z, Quo x y = Some z /\ Signbit (val z) = false.
Proof.
  intros Hx Hy. unfold Quo. rewrite Hy.
  destruct (val x) as [n|n|n m1 e1]; simpl in Hx; subst n; eexists;
    (split; [reflexivity|]); simpl; try done.
  apply uquo_Signbit.
Qed.

Lemma Mul_self x :
  Signbit (val x) = false ->
  exists z, Mul x x = Some z /\ Signbit (val z) = false.
Proof.
  intros Hx. unfold Mul.
  destruct (val x) as [n|n|n m1 e1]; simpl in Hx; subst n; eexists;
    (split; [reflexivity|]); simpl; try done.
  apply setExpAndRound_Signbit.
Qed.

(** The logarithm and the reverse of a price that is not negative. *)
Lemma logOf_not_negative ln64 price :
  Signbit (val price) = false -> exists l, logOf ln64 price = Some l.
Proof.
  intros Hs. destruct (val price) as [n|n|n m e] eqn:Hv; simpl in Hs; subst n.
  - unfold logOf, Float64.ofFloat. rewrite Hv. by eexists.
  - unfold logOf, Float64.ofFloat. rewrite Hv. by eexists.
  - by apply (logOf_positive ln64 price m e).
Qed.

Lemma update_returns_not_negative ln64 clk pool price dex st :
  Signbit (val price) = false ->
  exists st', updatePriceCache ln64 clk pool price dex st = Returned st'.
Proof.
  intros Hs. destruct (logOf_not_negative ln64 price Hs) as [l Hl].
  assert (exists r, Quo Float64.NewFloat_1 price = Some r) as [r Hr].
  { unfold Quo. simpl. destruct (val price); by eexists. }
  eexists. by apply updatePriceCache_returns.
Qed.

Lemma decimals_Exp_Finite k :
  -255 <= k <= 255 -> exists m e, val (SetInt (GoInt.Exp 10 k)) = Finite false m e.
Proof.
  intros Hk. unfold GoInt.Exp. destruct (Z.leb_spec k 0).
  - by exists 1%positive, 0.
  - pose proof (pow10_bound k ltac:(lia)) as Hp.
    apply (SetInt_Finite _ (4 * k + 1)); [done|].
    assert (HME : MaxExp = 2147483647) by reflexivity. lia.
Qed.

Lemma uniswapPrice_not_negative pool event :
  0 <= SqrtPriceX96 event ->
  0 <= Decimals0 pool <= 255 -> 0 <= Decimals1 pool <= 255 ->
  exists price,
    Decoder.uniswapPrice pool event = Some price /\
    Signbit (val price) = false.
Proof.
  intros Hx Hd0 Hd1. unfold Decoder.uniswapPrice.
  destruct (Quo_by_Finite (SetInt (SqrtPriceX96 event))
              (SetInt (GoInt.Exp 2 96)) (1%positive) 96)
    as (s & -> & Hs); [by apply SetInt_Signbit|by vm_compute|].
  simpl. destruct (Mul_self s Hs) as (sq & -> & Hsq). simpl.
  unfold GoInt.sub. rewrite wrap64_small by lia.
  destruct (Z.gtb_spec (Decimals0 pool - Decimals1 pool) 0).
  - destruct (decimals_Exp_Finite (Decimals0 pool - Decimals1 pool))
      as (m & e & Hv); [lia|].
    by apply (Mul_by_Finite _ _ m e).
  - destruct (Z.ltb_spec (Decimals0 pool - Decimals1 pool) 0); [|eauto].
    unfold GoInt.neg. rewrite wrap64_small by lia.
    destruct (decimals_Exp_Finite (- (Decimals0 pool - Decimals1 pool)))
      as (m & e & Hv); [lia|].
    by apply (Quo_by_Finite _ _ m e).
Qed.

(** X10. The Uniswap handler returns from every decoded event: for every
    square-root price that is not negative (the ABI makes it a [uint160])
    and a pool with [uint8] decimals, no operation of [big.Float] panics,
    whatever [math.Log] returns, and the price passed to the update is not
    negative.  A square-root price of zero gives the price 0, the
    logarithm -Inf and the reverse price +Inf. *)
Theorem uniswap_handler_returns_from_every_event
    ln64 clk event pool st :
  0 <= SqrtPriceX96 event ->
  0 <= Decimals0 pool <= 255 -> 0 <= Decimals1 pool <= 255 ->
  exists price st',
    Decoder.uniswapPrice pool event = Some price /\
    Signbit (val price) = false /\
    handleUniswapEvent ln64 clk (Decoded event) pool st
    = Returned (st', UniswapPriceUpdate (Token0 pool) (Token1 pool) price
                       (Tick event)).
Proof.
  intros Hx Hd0 Hd1.
  destruct (uniswapPrice_not_negative pool event Hx Hd0 Hd1)
    as (price & Hp & Hs).
  destruct (update_returns_not_negative ln64 clk pool price "uniswap" st Hs)
    as [st' Hupd].
  exists price, st'. split; [done|]. split; [done|].
  unfold handleUniswapEvent. by rewrite Hp, Hupd.
Qed.

Lemma uniswap_handler_returns_from_every_event_witness :
  exists price st',
    Decoder.uniswapPrice Ex.P1 (mkSwap 0 0 0 0 0) = Some price /\
    Signbit (val price) = false /\
    handleUniswapEvent log2Floor (Ex.at_ 100) (Ex.swap 0) Ex.P1 initCaches
    = Returned (st', UniswapPriceUpdate "A" "B" price 0).
Proof.
  apply (uniswap_handler_returns_from_every_event log2Floor (Ex.at_ 100)
           (mkSwap 0 0 0 0 0) Ex.P1 initCaches); simpl; lia.
Defined.

Lemma curvePrice_not_negative pool event :
  validExchange pool event ->
  TokensSold event ≠ 0 \/ TokensBought event ≠ 0 ->
  exists price,
    Decoder.curvePrice pool event = Some price /\
    Signbit (val price) = false.
Proof.
  intros (Hs & Hb & Hd0 & Hd1) Hnz. unfold Decoder.curvePrice.
  assert (HME : MaxExp = 2147483647) by reflexivity.
  assert (exists q, Quo (SetInt (TokensSold event))
                      (SetInt (TokensBought event)) = Some q /\
                    Signbit (val q) = false) as (q & -> & Hq).
  { destruct (Z.eq_dec (TokensBought event) 0) as [E|Hne].
    - rewrite E. destruct (SetInt_Finite (TokensSold event) 256)
        as (m & e & Hv); [lia|lia|].
      unfold Quo. rewrite Hv. by eexists.
    - destruct (SetInt_Finite (TokensBought event) 256)
        as (m & e & Hv); [lia|lia|].
      apply (Quo_by_Finite _ _ m e); [|done]. apply SetInt_Signbit. lia. }
  simpl. unfold GoInt.sub. rewrite wrap64_small by lia.
  destruct (Z.eqb_spec (Decimals1 pool - Decimals0 pool) 0); simpl; [eauto|].
  destruct (decimals_Exp_Finite (Decimals1 pool - Decimals0 pool))
    as (m & e & Hv); [lia|].
  by apply (Mul_by_Finite _ _ m e).
Qed.

(** X11. The Curve handler panics on exactly one kind of decoded event:
    for [uint256] amounts and [uint8] decimals, a TokenExchange log with
    [TokensSold = 0] and [TokensBought = 0] makes [Quo] divide zero by zero
    and panic with [ErrNaN], which nothing recovers; from every other event
    the handler returns (with the price 0 or +Inf when one amount is
    zero). *)
Theorem curve_handler_panics_on_two_zero_amounts
    ln64 clk pool event st :
  validExchange pool event ->
  (TokensSold event = 0 /\ TokensBought event = 0 ->
   handleCurveEvent ln64 clk (Decoded event) pool st
   = Panicked "big.ErrNaN") /\
  (TokensSold event ≠ 0 \/ TokensBought event ≠ 0 ->
   exists st' line,
     handleCurveEvent ln64 clk (Decoded event) pool st
     = Returned (st', line)).
Proof.
  intros Hvalid. split.
  - intros [Hs Hb]. unfold handleCurveEvent, Decoder.curvePrice.
    by rewrite Hs, Hb.
  - intros Hnz.
    destruct (curvePrice_not_negative pool event Hvalid Hnz)
      as (price & Hp & Hs).
    destruct (update_returns_not_negative ln64 clk pool price "curve" st Hs)
      as [st' Hupd].
    unfold handleCurveEvent. rewrite Hp, Hupd. by do 2 eexists.
Qed.

Lemma curve_handler_panics_on_two_zero_amounts_witness :
  validExchange Ex.Crv (mkExchange 0 0 0 1 0) /\
  handleCurveEvent log2Floor (Ex.at_ 100) (Decoded (mkExchange 0 0 0 1 0))
    Ex.Crv initCaches
  = Panicked "big.ErrNaN".
Proof.
  assert (Hvalid : validExchange Ex.Crv (mkExchange 0 0 0 1 0))
    by (unfold validExchange; simpl; lia).
  split; [exact Hvalid|].
  apply (proj1 (curve_handler_panics_on_two_zero_amounts log2Floor
                  (Ex.at_ 100) Ex.Crv (mkExchange 0 0 0 1 0) initCaches
                  Hvalid)).
  split; reflexivity.
Defined.

(** X12. For a TokenExchange event with non-zero [uint256] amounts, of a
    pool with [uint8] decimals, the Curve decoder returns a finite,
    strictly positive price at 64 bits of precision or more, within a
    relative error of [2^-62] of
    [TokensSold / TokensBought * 10^(Decimals1 - Decimals0)] when
    [Decimals1 >= Decimals0], and of the unadjusted
    [TokensSold / TokensBought] when [Decimals1 < Decimals0]. *)
Theorem curve_price_is_adjusted_ratio_within_rounding pool event :
  validExchange pool event ->
  0 < TokensSold event -> 0 < TokensBought event ->
  exists price,
    Decoder.curvePrice pool event = Some price /\
    posFinite price (-1300) 1300 /\ 64 <= prec price /\
    relErr (F2Q (val price))
      (exactCurvePrice (TokensSold event) (TokensBought event)
         (Decimals0 pool) (Decimals1 pool))
      (pow2 (-62)).
Proof.
  intros (Hs & Hb & Hd0 & Hd1) Hs0 Hb0.
  set (x := TokensSold event) in *. set (y := TokensBought event) in *.
  set (d0 := Decimals0 pool) in *. set (d1 := Decimals1 pool) in *.
  assert (HME : MaxExp = 2147483647) by reflexivity.
  assert (HMI : MinExp = -2147483648) by reflexivity.
  pose proof (BitLen_bound x 256 ltac:(lia)) as Hbx.
  pose proof (BitLen_bound y 256 ltac:(lia)) as Hby.
  destruct (SetInt_pos x) as (HX & HXp & HXv); [lia|lia|].
  destruct (SetInt_pos y) as (HY & HYp & HYv); [lia|lia|].
  destruct (Quo_pos _ _ _ _ _ _ HX HY) as (q & Hq & Hqp & Hqf & Hqe);
    [unfold resultPrec; lia|lia|lia|].
  unfold resultPrec in Hqp. rewrite HXp, HYp in Hqp.
  assert (Hx0 : (0 < inject_Z x)%Q) by (apply inject_Z_pos; lia).
  assert (Hy0 : (0 < inject_Z y)%Q) by (apply inject_Z_pos; lia).
  set (r := (inject_Z x / inject_Z y)%Q).
  assert (Hr : (0 <= r)%Q).
  { unfold r. apply Qlt_le_weak, Qlt_shift_div_l; lra. }
  set (eps := pow2 (-64)).
  assert (He : (0 <= eps)%Q) by (by vm_compute).
  assert (E1 : relErr (F2Q (val q)) r eps).
  { rewrite HYv, HXv in Hqe. apply relErr_div in Hqe; [|done].
    eapply relErr_weaken; [done| |exact Hqe]. apply pow2_le. lia. }
  unfold Decoder.curvePrice, exactCurvePrice. fold x y d0 d1 r.
  rewrite Hq. simpl. unfold GoInt.sub. rewrite wrap64_small by lia.
  destruct (Z.eqb_spec (d1 - d0) 0) as [E0|Hne]; simpl.
  - exists q. split; [done|]. split; [|split; [lia|]].
    + destruct Hqf as (m & e & Hv & Hg & Ho & Hbl). exists m, e.
      repeat split; try done; lia.
    + destruct (Z.ltb_spec d0 d1); [lia|].
      assert (E : (r * inject_Z 1 == r)%Q) by (unfold inject_Z; ring).
      rewrite E. eapply relErr_weaken; [done| |exact E1]. by vm_compute.
  - set (t := GoInt.Exp 10 (d1 - d0)).
    assert (Ht : 0 < t < 2 ^ 1021 /\
                 t = if d0 <? d1 then 10 ^ (d1 - d0) else 1).
    { unfold t, GoInt.Exp. destruct (Z.leb_spec (d1 - d0) 0).
      - destruct (Z.ltb_spec d0 d1); [lia|]. split; [|done]. split; [lia|].
        by vm_compute.
      - destruct (Z.ltb_spec d0 d1); [|lia]. split; [|done].
        pose proof (pow10_bound (d1 - d0) ltac:(lia)) as [Hp1 Hp2].
        split; [done|]. eapply Z.lt_le_trans; [exact Hp2|].
        apply Z.pow_le_mono_r; lia. }
    destruct Ht as [Htb Hte]. rewrite <- Hte.
    pose proof (BitLen_bound t 1021 Htb) as Hbt.
    destruct (SetInt_pos t) as (HT & HTp & HTv); [lia|lia|].
    destruct (Mul_pos _ _ _ _ _ _ Hqf HT) as (price & Hp & Hpp & Hpf & Hpe);
      [unfold resultPrec; lia|lia|lia|].
    unfold resultPrec in Hpp.
    exists price. split; [done|]. split; [|split; [lia|]].
    + destruct Hpf as (m & e & Hv & Hg & Ho & Hbl). exists m, e.
      repeat split; try done; lia.
    + assert (Ht0 : (0 < inject_Z t)%Q) by (apply inject_Z_pos; lia).
      assert (Htl : (0 <= inject_Z t)%Q) by (by apply Qlt_le_weak).
      rewrite HTv in Hpe.
      pose proof (relErr_scale _ _ _ _ Htl E1) as E2.
      assert (E3 : relErr (F2Q (val price)) (F2Q (val q) * inject_Z t) eps).
      { eapply relErr_weaken; [| |exact Hpe].
        - pose proof (posFinite_pos _ _ _ Hqf).
          apply Qmult_le_0_compat; [by apply Qlt_le_weak|done].
        - apply pow2_le. lia. }
      assert (Hv : (0 <= r * inject_Z t)%Q) by (by apply Qmult_le_0_compat).
      pose proof (relErr_trans _ _ _ _ _ Hv He He E2 E3) as E4.
      eapply relErr_weaken; [done| |exact E4]. by vm_compute.
Qed.

Lemma curve_price_is_adjusted_ratio_within_rounding_witness :
  validExchange ExRun.CD (mkExchange 0 0 3 1 7) /\
  exists price,
    Decoder.curvePrice ExRun.CD (mkExchange 0 0 3 1 7) = Some price /\
    relErr (F2Q (val price)) (exactCurvePrice 3 7 6 18) (pow2 (-62)).
Proof.
  assert (Hvalid : validExchange ExRun.CD (mkExchange 0 0 3 1 7))
    by (unfold validExchange; simpl; lia).
  split; [exact Hvalid|].
  destruct (curve_price_is_adjusted_ratio_within_rounding ExRun.CD
              (mkExchange 0 0 3 1 7) Hvalid)
    as (price & Hp & _ & _ & Herr); [simpl; lia|simpl; lia|].
  exists price. split; [exact Hp|exact Herr].
Defined.

(** ** Runs of the handlers as sequences of updates *)

Lemma logged_Returned line r st out :
  logged line r = Returned (st, out) ->
  exists out', r = Returned (st, out') /\ out = line :: out'.
Proof.
  destruct r as [[st1 out1]|why]; [|done]. simpl. intros [= <- <-]. eauto.
Qed.

(** What a handler that returns has done to the caches: nothing, or one
    update with the price it decoded. *)
Lemma handleUniswapEvent_updates ln64 clk unpacked pool st st' line :
  handleUniswapEvent ln64 clk unpacked pool st = Returned (st', line) ->
  exists us,
    updateAll ln64 us st = Returned st' /\
    reports us
    = option_list (callReport (UniswapCall clk unpacked pool)).
Proof.
  unfold handleUniswapEvent. destruct unpacked as [event|err].
  - simpl. destruct (Decoder.uniswapPrice pool event) as [price|]; [|done].
    destruct (updatePriceCache _ _ _ _ _ _) as [st1|] eqn:Hupd; [|done].
    intros [= <- <-]. exists [mkUpdate clk pool price "uniswap"].
    simpl. by rewrite Hupd.
  - intros [= <- <-]. by exists [].
Qed.

Lemma handleCurveEvent_updates ln64 clk unpacked pool st st' line :
  handleCurveEvent ln64 clk unpacked pool st = Returned (st', line) ->
  exists us,
    updateAll ln64 us st = Returned st' /\
    reports us
    = option_list (callReport (CurveCall clk unpacked pool)).
Proof.
  unfold handleCurveEvent. destruct unpacked as [event|err].
  - simpl. destruct (Decoder.curvePrice pool event) as [price|]; [|done].
    destruct (updatePriceCache _ _ _ _ _ _) as [st1|] eqn:Hupd; [|done].
    intros [= <- <-]. exists [mkUpdate clk pool price "curve"].
    simpl. by rewrite Hupd.
  - intros [= <- <-]. by exists [].
Qed.

Lemma updateAll_app ln64 us1 us2 st st1 st2 :
  updateAll ln64 us1 st = Returned st1 ->
  updateAll ln64 us2 st1 = Returned st2 ->
  updateAll ln64 (us1 ++ us2) st = Returned st2.
Proof.
  revert st. induction us1 as [|u us1 IH]; intros st H1 H2.
  - by injection H1 as ->.
  - destruct (updateAll_cons _ _ _ _ _ H1) as (s & Hupd & Hrest).
    simpl. rewrite Hupd. by apply IH.
Qed.

(** X13. A run of handler calls that returns has written one line per
    call and has done to the caches what one call of [updatePriceCache]
    per decoded event does, in the order of the calls, with the pool of
    the call and the price its decoder computed; so the caches it leaves
    from a state the process reaches are again such a state. *)
Theorem handler_calls_update_once_per_decoded_event
    ln64 calls st st' out :
  run ln64 calls st = Returned (st', out) ->
  length out = length calls /\
  (reachable ln64 st -> reachable ln64 st') /\
  exists us,
    updateAll ln64 us st = Returned st' /\
    reports us = omap callReport calls.
Proof.
  intros Hrun.
  assert (H : length out = length calls /\
              exists us, updateAll ln64 us st = Returned st' /\
                         reports us = omap callReport calls).
  { revert st out Hrun. induction calls as [|call calls IH]; intros st out.
    - intros [= <- <-]. split; [done|]. by exists [].
    - simpl.
      set (r := match call with
                | UniswapCall clk unpacked pool =>
                    handleUniswapEvent ln64 clk unpacked pool st
                | CurveCall clk unpacked pool =>
                    handleCurveEvent ln64 clk unpacked pool st
                end).
      assert (Hr : forall st1 line, r = Returned (st1, line) ->
                exists us, updateAll ln64 us st = Returned st1 /\
                           reports us = option_list (callReport call)).
      { intros st1 line. unfold r. destruct call.
        - apply handleUniswapEvent_updates.
        - apply handleCurveEvent_updates. }
      destruct r as [[st1 line]|why]; [|done].
      intros Hlog. destruct (logged_Returned _ _ _ _ Hlog) as (out' & Hrest & ->).
      destruct (IH st1 out' Hrest) as (Hlen & us2 & Hus2 & Hrep2).
      destruct (Hr st1 line eq_refl) as (us1 & Hus1 & Hrep1).
      split; [simpl; by rewrite Hlen|].
      exists (us1 ++ us2). split; [by eapply updateAll_app|].
      unfold reports in *. rewrite fmap_app, Hrep1, Hrep2.
      by destruct (callReport call). }
  destruct H as (Hlen & us & Hus & Hrep).
  split; [done|]. split; [|by exists us].
  intros Hreach. by apply (updateAll_reachable ln64 us st).
Qed.

Lemma handler_calls_update_once_per_decoded_event_witness :
  let calls :=
    [UniswapCall (Ex.at_ 100) (Ex.swap (2 ^ 98)) Ex.P1;
     CurveCall (Ex.at_ 200) (UnpackError "short") Ex.Crv;
     UniswapCall (Ex.at_ 300) (Ex.swap (2 ^ 97)) Ex.P2] in
  exists st' out,
    run log2Floor calls initCaches = Returned (st', out) /\
    length out = 3%nat /\
    exists us,
      updateAll log2Floor us initCaches = Returned st' /\
      reports us = [(Ex.P1, Ex.p16); (Ex.P2, Ex.p4)].
Proof.
  cbv zeta. eexists _, _. split; [reflexivity|].
  destruct (handler_calls_update_once_per_decoded_event log2Floor
              [UniswapCall (Ex.at_ 100) (Ex.swap (2 ^ 98)) Ex.P1;
               CurveCall (Ex.at_ 200) (UnpackError "short") Ex.Crv;
               UniswapCall (Ex.at_ 300) (Ex.swap (2 ^ 97)) Ex.P2]
              initCaches _ _ eq_refl) as (Hlen & _ & us & Hus & Hrep).
  split; [exact Hlen|]. exists us. split; [exact Hus|exact Hrep].
Defined.

Lemma cachesAfter_logged line r : cachesAfter (logged line r) = cachesAfter r.
Proof. by destruct r as [[st out]|why]. Qed.

(** X14. An error of a subscription is logged and nothing else: the loop
    neither ends nor subscribes again, and the caches it leaves, or the
    panic it ends in, are those of the loop over the logs alone.  A loop
    that returns from all its arrivals has written one line for each. *)
Theorem subscription_errors_are_logged_and_skipped
    {E : Type}
    (handle : Clock -> Unpacked E -> PoolConfig -> Caches ->
              Result (Caches * LogLine))
    poolAddr pool (arrivals : list (Arrival E)) st :
  cachesAfter (subscriptionLoop handle poolAddr pool arrivals st)
  = cachesAfter (subscriptionLoop handle poolAddr pool
                   (List.filter isLog arrivals) st) /\
  forall st' out,
    subscriptionLoop handle poolAddr pool arrivals st = Returned (st', out) ->
    length out = length arrivals.
Proof.
  revert st. induction arrivals as [|[err|clk unpacked] rest IH]; intros st.
  - split; [done|]. by intros st' out [= <- <-].
  - destruct (IH st) as [IHc IHl]. simpl. split.
    + by rewrite cachesAfter_logged.
    + intros st' out Hlog.
      destruct (logged_Returned _ _ _ _ Hlog) as (out' & Hrest & ->).
      simpl. by rewrite (IHl st' out' Hrest).
  - simpl. destruct (handle clk unpacked pool st) as [[st1 line]|why];
      [|split; [done|by intros]].
    destruct (IH st1) as [IHc IHl]. split.
    + by rewrite !cachesAfter_logged.
    + intros st' out Hlog.
      destruct (logged_Returned _ _ _ _ Hlog) as (out' & Hrest & ->).
      simpl. by rewrite (IHl st' out' Hrest).
Qed.

(** ** The prices at the start *)

(** What a handler that returned has done: nothing, for a log that does
    not decode, or the update with the price of its decoder. *)
Lemma handleUniswapEvent_Returned ln64 clk unpacked pool st st' line :
  handleUniswapEvent ln64 clk unpacked pool st = Returned (st', line) ->
  (st' = st /\ exists err, unpacked = UnpackError err) \/
  (exists event price,
     unpacked = Decoded event /\
     Decoder.uniswapPrice pool event = Some price /\
     updatePriceCache ln64 clk pool price "uniswap" st = Returned st').
Proof.
  unfold handleUniswapEvent. destruct unpacked as [event|err].
  - destruct (Decoder.uniswapPrice pool event) as [price|] eqn:Hprice; [|done].
    destruct (updatePriceCache _ _ _ _ _ _) as [st1|] eqn:Hupd; [|done].
    intros [= <- <-]. right. by exists event, price.
  - intros [= <- <-]. left. split; [done|]. by exists err.
Qed.

Lemma handleCurveEvent_Returned ln64 clk unpacked pool st st' line :
  handleCurveEvent ln64 clk unpacked pool st = Returned (st', line) ->
  (st' = st /\ exists err, unpacked = UnpackError err) \/
  (exists event price,
     unpacked = Decoded event /\
     Decoder.curvePrice pool event = Some price /\
     updatePriceCache ln64 clk pool price "curve" st = Returned st').
Proof.
  unfold handleCurveEvent. destruct unpacked as [event|err].
  - destruct (Decoder.curvePrice pool event) as [price|] eqn:Hprice; [|done].
    destruct (updatePriceCache _ _ _ _ _ _) as [st1|] eqn:Hupd; [|done].
    intros [= <- <-]. right. by exists event, price.
  - intros [= <- <-]. left. split; [done|]. by exists err.
Qed.

Lemma seeded_nil v lines : (length lines <= 1)%nat -> seeded v [] lines.
Proof.
  intros Hl. split; [simpl; lia|]. split; [done|].
  intros u Hu. by apply elem_of_nil in Hu.
Qed.

(** The visit of an entry of type "uniswap". *)
Lemma getUniswapPrice_seeded ln64 v st st1 out1 :
  Type_ (visited v) = "uniswap"%string ->
  getUniswapPrice ln64 (visitClock v) (swapLogs v) (poolKey v) (visited v) st
  = Returned (st1, out1) ->
  exists us, updateAll ln64 us st = Returned st1 /\ seeded v us out1.
Proof.
  intros Hty. unfold getUniswapPrice, getLatestPrice.
  destruct (swapLogs v) as [err|err|logs] eqn:Hlogs.
  - intros [= <- <-]. exists []. split; [done|]. apply seeded_nil. simpl. lia.
  - intros [= <- <-]. exists []. split; [done|]. apply seeded_nil. simpl. lia.
  - destruct (last logs) as [vLog|] eqn:Hlast.
    + destruct (handleUniswapEvent _ _ _ _ _) as [[s' line]|why] eqn:Hcall;
        [|done].
      intros [= <- <-].
      destruct (handleUniswapEvent_Returned _ _ _ _ _ _ _ Hcall)
        as [[-> _]|(event & price & -> & Hprice & Hupd)].
      * exists []. split; [done|]. apply seeded_nil. simpl. lia.
      * exists [mkUpdate (visitClock v) (visited v) price "uniswap"].
        split; [simpl; by rewrite Hupd|].
        split; [simpl; lia|]. split; [simpl; lia|].
        intros u Hu. apply list_elem_of_singleton in Hu as ->. simpl.
        split; [done|]. split; [done|]. split; [done|].
        left. split; [done|]. by exists logs, event.
    + intros [= <- <-]. exists []. split; [done|]. apply seeded_nil.
      simpl. lia.
Qed.

(** The visit of an entry of type "curve". *)
Lemma getCurvePrice_seeded ln64 v st st1 out1 :
  Type_ (visited v) = "curve"%string ->
  getCurvePrice ln64 (visitClock v) (exchangeLogs v) (poolKey v) (visited v)
    st
  = Returned (st1, out1) ->
  exists us, updateAll ln64 us st = Returned st1 /\ seeded v us out1.
Proof.
  intros Hty. unfold getCurvePrice, getLatestPrice.
  destruct (exchangeLogs v) as [err|err|logs] eqn:Hlogs.
  - intros [= <- <-]. exists []. split; [done|]. apply seeded_nil. simpl. lia.
  - intros [= <- <-]. exists []. split; [done|]. apply seeded_nil. simpl. lia.
  - destruct (last logs) as [vLog|] eqn:Hlast.
    + destruct (handleCurveEvent _ _ _ _ _) as [[s' line]|why] eqn:Hcall;
        [|done].
      intros [= <- <-].
      destruct (handleCurveEvent_Returned _ _ _ _ _ _ _ Hcall)
        as [[-> _]|(event & price & -> & Hprice & Hupd)].
      * exists []. split; [done|]. apply seeded_nil. simpl. lia.
      * exists [mkUpdate (visitClock v) (visited v) price "curve"].
        split; [simpl; by rewrite Hupd|].
        split; [simpl; lia|]. split; [simpl; lia|].
        intros u Hu. apply list_elem_of_singleton in Hu as ->. simpl.
        split; [done|]. split; [done|]. split; [done|].
        right. split; [done|]. by exists logs, event.
    + intros [= <- <-]. exists []. split; [done|]. apply seeded_nil.
      simpl. lia.
Qed.

Lemma seeded_lengths visits (steps : list (list Update * list SeedLine)) :
  Forall2 (fun v step => seeded v step.1 step.2) visits steps ->
  (length (concat steps.*1) <= length visits)%nat /\
  (length (concat steps.*2) <= length visits)%nat.
Proof.
  induction 1 as [|v step visits steps (Hu & Hl & _) _ [IHu IHl]];
    [done|].
  rewrite !fmap_cons. simpl. rewrite !length_app. lia.
Qed.

(** X15. [getInitialPrices], when it returns, has done for each entry of
    [config.Pools], in the order of the visits, at most one update and
    written at most one line: the caches it leaves are those of the
    updates of the entries one after the other, its lines those of the
    entries one after the other.  The update of an entry, if it made one,
    is of the pool of that entry, under the type of the pool as name of
    the exchange, with the price the decoder of that type computes from
    the last log of the latest block.  The caches it leaves from a state
    the process reaches (the empty caches of the start) are again such a
    state. *)
Theorem seeding_updates_at_most_once_per_pool ln64 visits st st' out :
  getInitialPrices ln64 visits st = Returned (st', out) ->
  (length out <= length visits)%nat /\
  (reachable ln64 st -> reachable ln64 st') /\
  exists steps : list (list Update * list SeedLine),
    Forall2 (fun v step => seeded v step.1 step.2) visits steps /\
    updateAll ln64 (concat steps.*1) st = Returned st' /\
    out = concat steps.*2 /\
    (length (concat steps.*1) <= length visits)%nat.
Proof.
  intros Hrun.
  assert (H : exists steps : list (list Update * list SeedLine),
              Forall2 (fun v step => seeded v step.1 step.2) visits steps /\
              updateAll ln64 (concat steps.*1) st = Returned st' /\
              out = concat steps.*2).
  { revert st out Hrun. induction visits as [|v visits IH]; intros st out.
    - intros [= <- <-]. exists []. split; [constructor|done].
    - simpl.
      set (r := if String.eqb (Type_ (visited v)) "uniswap" then _ else _).
      assert (Hr : forall st1 out1, r = Returned (st1, out1) ->
                exists us, updateAll ln64 us st = Returned st1 /\
                           seeded v us out1).
      { intros st1 out1. unfold r.
        destruct (String.eqb_spec (Type_ (visited v)) "uniswap") as [Hu|_].
        - by apply getUniswapPrice_seeded.
        - destruct (String.eqb_spec (Type_ (visited v)) "curve") as [Hc|_].
          + by apply getCurvePrice_seeded.
          + intros [= <- <-]. exists []. split; [done|].
            apply seeded_nil. simpl. lia. }
      destruct r as [[st1 out1]|why]; [|done].
      destruct (getInitialPrices ln64 visits st1) as [[s2 out2]|why] eqn:Hrest;
        [|done].
      intros [= <- <-].
      destruct (Hr st1 out1 eq_refl) as (us1 & Hus1 & Hseed).
      destruct (IH st1 out2 Hrest) as (steps & Hall & Hus2 & ->).
      exists ((us1, out1) :: steps).
      split; [by constructor|]. rewrite !fmap_cons. simpl.
      split; [by eapply updateAll_app|done]. }
  destruct H as (steps & Hall & Hus & ->).
  destruct (seeded_lengths visits steps Hall) as [Hlu Hll].
  split; [done|]. split; [|by exists steps].
  intros Hreach. by apply (updateAll_reachable ln64 (concat steps.*1) st).
Qed.

Lemma seeding_updates_at_most_once_per_pool_witness :
  exists st' out steps,
    getInitialPrices log2Floor ExRun.visits initCaches = Returned (st', out) /\
    Forall2 (fun v step => seeded v step.1 step.2) ExRun.visits steps /\
    updateAll log2Floor (concat steps.*1) initCaches = Returned st' /\
    out = concat steps.*2 /\
    (length out <= 3)%nat.
Proof.
  assert (Hrun : exists st' out,
             getInitialPrices log2Floor ExRun.visits initCaches
             = Returned (st', out)) by (eexists _, _; reflexivity).
  destruct Hrun as (st' & out & Hrun).
  destruct (seeding_updates_at_most_once_per_pool log2Floor ExRun.visits
              initCaches st' out Hrun)
    as (Hlen & _ & steps & Hall & Hus & Hout & _).
  exists st', out, steps. split; [exact Hrun|]. split; [exact Hall|].
  split; [exact Hus|]. split; [exact Hout|exact Hlen].
Defined.

Lemma getLatestPrice_nothingFetched {E : Type}
    (handle : Clock -> Unpacked E -> PoolConfig -> Caches ->
              Result (Caches * LogLine))
    clk fetched poolAddr pool st :
  nothingFetched fetched ->
  exists out,
    getLatestPrice handle clk fetched poolAddr pool st = Returned (st, out).
Proof.
  destruct fetched as [err|err|[|vLog logs]]; simpl; try done; by eexists.
Qed.

(** X16. When the node fails every request, or its latest block holds no
    log of any pool, [getInitialPrices] returns, whatever the types of the
    pools, with both caches as they were: the process goes on to subscribe
    with no price at all. *)
Theorem seeding_without_logs_changes_nothing ln64 visits st :
  (forall v, v ∈ visits ->
     nothingFetched (swapLogs v) /\ nothingFetched (exchangeLogs v)) ->
  exists out, getInitialPrices ln64 visits st = Returned (st, out).
Proof.
  induction visits as [|v visits IH]; intros Hall; [by eexists|].
  destruct (Hall v (list_elem_of_here _ _)) as [Hs He].
  destruct IH as [out' Hrest].
  { intros v' Hv'. apply Hall. by apply list_elem_of_further. }
  simpl. unfold getUniswapPrice, getCurvePrice.
  destruct (getLatestPrice_nothingFetched (handleUniswapEvent ln64)
              (visitClock v) (swapLogs v) (poolKey v) (visited v) st Hs)
    as [o1 ->].
  destruct (getLatestPrice_nothingFetched (handleCurveEvent ln64)
              (visitClock v) (exchangeLogs v) (poolKey v) (visited v) st He)
    as [o2 ->].
  destruct (String.eqb _ "uniswap"); [rewrite Hrest; by eexists|].
  destruct (String.eqb _ "curve"); rewrite Hrest; by eexists.
Qed.

Lemma seeding_without_logs_changes_nothing_witness :
  (forall v, v ∈ ExRun.quiet ->
     nothingFetched (swapLogs v) /\ nothingFetched (exchangeLogs v)) /\
  exists out,
    getInitialPrices log2Floor ExRun.quiet initCaches
    = Returned (initCaches, out).
Proof.
  assert (Hall : forall v, v ∈ ExRun.quiet ->
            nothingFetched (swapLogs v) /\ nothingFetched (exchangeLogs v)).
  { intros v Hv. unfold ExRun.quiet in Hv.
    apply elem_of_cons in Hv as [->|Hv]; [by split|].
    apply list_elem_of_singleton in Hv as ->. by split. }
  split; [exact Hall|].
  exact (seeding_without_logs_changes_nothing log2Floor ExRun.quiet
           initCaches Hall).
Defined.

(** ** The keys *)

Lemma append_empty (b : string) : "" +:+ b = b.
Proof. reflexivity. Qed.

Lemma append_String c (a b : string) : String c a +:+ b = String c (a +:+ b).
Proof. reflexivity. Qed.

Lemma append_underscore_inj a : forall a' b b',
  hasUnderscore a = false -> hasUnderscore a' = false ->
  a +:+ "_" +:+ b = a' +:+ "_" +:+ b' -> a = a' /\ b = b'.
Proof.
  induction a as [|c a IH]; intros [|c' a'] b b';
    repeat (rewrite append_empty || rewrite append_String); simpl.
  - intros _ _ [= ->]. done.
  - intros _ H [= <- _]. simpl in H. discriminate.
  - intros H _ [= -> _]. simpl in H. discriminate.
  - intros H H' [= <- E].
    apply orb_false_iff in H as [_ H]. apply orb_false_iff in H' as [_ H'].
    destruct (IH a' b b' H H' E) as [-> ->]. done.
Qed.

(** X17. Different pairs of tokens have different keys, when the first
    symbol of each holds no underscore: the buckets and best-price entries
    of different pairs are different entries, and the two keys of a pool
    with two different tokens differ.  (With an underscore in a symbol
    keys do collide: "A_B" with "C" and "A" with "B_C" have one key.) *)
Theorem different_pairs_have_different_keys a b a' b' :
  hasUnderscore a = false -> hasUnderscore a' = false ->
  a ≠ a' \/ b ≠ b' ->
  pairKey a b ≠ pairKey a' b'.
Proof.
  intros Ha Ha' Hne E. unfold pairKey in E.
  destruct (append_underscore_inj a a' b b' Ha Ha' E) as [-> ->].
  by destruct Hne.
Qed.

Lemma different_pairs_have_different_keys_witness :
  hasUnderscore "A" = false /\ hasUnderscore "B" = false /\
  forwardPair Ex.P1 ≠ reversePair Ex.P1.
Proof.
  split; [reflexivity|]. split; [reflexivity|].
  apply (different_pairs_have_different_keys "A" "B" "B" "A");
    [reflexivity|reflexivity|].
  left. discriminate.
Defined.

(** ** The reverse price, and the one panic of an update *)

(** X18. For every finite, strictly positive price whose reciprocal is in
    the range of [big.Float], from either handler, the update returns and
    the reverse record it appends holds [Quo(1, price)]: the reciprocal
    rounded to nearest at the greater of 53 bits and the precision of the
    price, so that the exact product of the forward and the reverse price
    differs from 1 by at most [2^-prec] of the reverse price. *)
Theorem reverse_price_is_the_rounded_reciprocal
    ln64 clk pool price dex st :
  posFinite price (MinExp + 4) MaxExp ->
  exists reversePrice logPrice st',
    updatePriceCache ln64 clk pool price dex st = Returned st' /\
    last (bucket (reversePair pool) (priceCache st'))
    = Some (mkPriceInfo dex (Address pool) reversePrice (Neg logPrice)
              (nowReverse clk)) /\
    Quo Float64.NewFloat_1 price = Some reversePrice /\
    prec reversePrice = Z.max 53 (prec price) /\
    (Qabs (F2Q (val price) * F2Q (val reversePrice) - 1)
     <= pow2 (- prec reversePrice))%Q.
Proof.
  intros Hpf.
  assert (HME : MaxExp = 2147483647) by reflexivity.
  assert (HMI : MinExp = -2147483648) by reflexivity.
  destruct (Quo_pos _ _ _ _ _ _ NewFloat_1_posFinite Hpf)
    as (reversePrice & Hrev & Hrp & _ & Herr);
    [unfold resultPrec; simpl; lia|lia|lia|].
  destruct Hpf as (m & e & Hv & _).
  destruct (logOf_positive ln64 price m e Hv) as [logPrice Hlog].
  destruct (update_records_view ln64 clk pool price dex st logPrice
              reversePrice Hlog Hrev) as (st' & Hupd & Hlast & _).
  exists reversePrice, logPrice, st'.
  split; [done|]. split; [done|]. split; [done|]. split; [done|].
  unfold relErr in Herr.
  assert (E : (F2Q (val Float64.NewFloat_1) == 1)%Q) by reflexivity.
  rewrite E in Herr. rewrite Qmult_1_l in Herr.
  by rewrite (Qmult_comm (F2Q (val price))).
Qed.

Lemma reverse_price_is_the_rounded_reciprocal_witness :
  posFinite Ex.p4 (MinExp + 4) MaxExp /\
  exists reversePrice,
    Quo Float64.NewFloat_1 Ex.p4 = Some reversePrice /\
    (Qabs (F2Q (val Ex.p4) * F2Q (val reversePrice) - 1)
     <= pow2 (- prec reversePrice))%Q.
Proof.
  assert (Hpf : posFinite Ex.p4 (MinExp + 4) MaxExp).
  { exists 1%positive, 2. by vm_compute. }
  split; [exact Hpf|].
  destruct (reverse_price_is_the_rounded_reciprocal log2Floor (Ex.at_ 100)
              Ex.P2 Ex.p4 "uniswap" initCaches Hpf)
    as (reversePrice & _ & _ & _ & _ & Hq & _ & Hb).
  exists reversePrice. split; [exact Hq|exact Hb].
Defined.

(** X19. An update has one way to panic, and it is taken before either
    cache is written: [SetFloat64] of the NaN that [math.Log] returns for
    a negative number.  [Quo(1, price)] panics for no price, and a price
    without sign bit, be it zero or infinite, makes no panic at all. *)
Theorem update_panics_only_on_a_negative_price
    ln64 clk pool price dex st why :
  updatePriceCache ln64 clk pool price dex st = Panicked why ->
  why = "Float.SetFloat64(NaN)"%string /\
  logOf ln64 price = None /\
  Signbit (val price) = true /\
  (forall n, val price ≠ Zero n).
Proof.
  intros Hpanic.
  assert (Hwhy : why = "Float.SetFloat64(NaN)"%string /\
                 logOf ln64 price = None).
  { unfold updatePriceCache in Hpanic.
    destruct (logOf ln64 price) as [logPrice|]; [|by injection Hpanic as <-].
    assert (exists r, Quo Float64.NewFloat_1 price = Some r) as [r Hr].
    { unfold Quo. simpl. destruct (val price); by eexists. }
    by rewrite Hr in Hpanic. }
  destruct Hwhy as [-> Hlog]. split; [done|]. split; [done|]. split.
  - destruct (Signbit (val price)) eqn:Hs; [done|].
    destruct (logOf_not_negative ln64 price Hs) as [l Hl]. congruence.
  - intros n Hz. unfold logOf, Float64.ofFloat in Hlog. by rewrite Hz in Hlog.
Qed.

Lemma update_panics_only_on_a_negative_price_witness :
  let price := mkFloat 64 (Inf true) in
  updatePriceCache log2Floor (Ex.at_ 100) Ex.P1 price "uniswap" initCaches
  = Panicked "Float.SetFloat64(NaN)" /\
  logOf log2Floor price = None /\ Signbit (val price) = true.
Proof.
  cbv zeta. split; [reflexivity|].
  destruct (update_panics_only_on_a_negative_price log2Floor (Ex.at_ 100)
              Ex.P1 (mkFloat 64 (Inf true)) "uniswap" initCaches
              "Float.SetFloat64(NaN)" eq_refl) as (_ & Hl & Hs & _).
  split; [exact Hl|exact Hs].
Defined.

(** ** One record per pool, the latest *)

Lemma updateAll_split ln64 us1 us2 st st' :
  updateAll ln64 (us1 ++ us2) st = Returned st' ->
  exists s1,
    updateAll ln64 us1 st = Returned s1 /\
    updateAll ln64 us2 s1 = Returned st'.
Proof.
  revert st. induction us1 as [|u us1 IH]; intros st Hrun.
  - by exists st.
  - rewrite <- app_comm_cons in Hrun.
    destruct (updateAll_cons _ _ _ _ _ Hrun) as (s & Hupd & Hrest).
    destruct (IH s Hrest) as (s1 & H1 & H2).
    exists s1. split; [|done]. simpl. by rewrite Hupd.
Qed.

Lemma recordsOf_removePool_other addr a l :
  a ≠ addr -> recordsOf a (removePool addr l) = recordsOf a l.
Proof.
  intros Hne. unfold recordsOf.
  induction l as [|info rest IH]; simpl; [done|].
  destruct (String.eqb_spec (PoolAddr info) addr) as [E|E]; simpl.
  - destruct (String.eqb_spec (PoolAddr info) a); [congruence|done].
  - by rewrite IH.
Qed.

Lemma recordsOf_put_other addr a info l :
  PoolAddr info = addr -> a ≠ addr ->
  recordsOf a (removePool addr l ++ [info]) = recordsOf a l.
Proof.
  intros Ha Hne. unfold recordsOf. rewrite List.filter_app.
  fold (recordsOf a (removePool addr l)).
  rewrite recordsOf_removePool_other by done. simpl.
  destruct (String.eqb_spec (PoolAddr info) a); [congruence|].
  apply app_nil_r.
Qed.

(** The updates of pools at other addresses leave the records of an
    address as they are, in every bucket. *)
Lemma updateAll_recordsOf_other ln64 us st st' a k :
  updateAll ln64 us st = Returned st' ->
  (forall v, v ∈ us -> Address (poolOf v) ≠ a) ->
  recordsOf a (bucket k (priceCache st'))
  = recordsOf a (bucket k (priceCache st)).
Proof.
  revert st. induction us as [|u us IH]; intros st Hrun Hother.
  - by injection Hrun as <-.
  - destruct (updateAll_cons _ _ _ _ _ Hrun) as (s & Hupd & Hrest).
    rewrite (IH s Hrest)
      by (intros v Hv; apply Hother; by apply list_elem_of_further).
    assert (Hne : a ≠ Address (poolOf u)).
    { intros ->. exact (Hother u (list_elem_of_here _ _) eq_refl). }
    destruct (updatePriceCache_Returned _ _ _ _ _ _ _ Hupd)
      as (logPrice & reversePrice & _ & _ & Hpc & _).
    simpl in Hpc. rewrite Hpc.
    destruct (decide (reversePair (poolOf u) = k)) as [<-|Hr].
    + rewrite bucket_putRecord_eq, recordsOf_put_other by done.
      destruct (decide (forwardPair (poolOf u) = reversePair (poolOf u)))
        as [E|Hf].
      * rewrite E, bucket_putRecord_eq. by rewrite recordsOf_put_other.
      * by rewrite bucket_putRecord_ne.
    + rewrite bucket_putRecord_ne by done.
      destruct (decide (forwardPair (poolOf u) = k)) as [<-|Hf].
      * rewrite bucket_putRecord_eq. by rewrite recordsOf_put_other.
      * by rewrite bucket_putRecord_ne.
Qed.

(** The two records of a pool after its update, in a state with one
    record per pool. *)
Lemma update_recordsOf_own ln64 clk pool price dex st st' :
  uniquePools (priceCache st) ->
  updatePriceCache ln64 clk pool price dex st = Returned st' ->
  exists logPrice reversePrice,
    logOf ln64 price = Some logPrice /\
    Quo Float64.NewFloat_1 price = Some reversePrice /\
    recordsOf (Address pool) (bucket (reversePair pool) (priceCache st'))
    = [mkPriceInfo dex (Address pool) reversePrice (Neg logPrice)
         (nowReverse clk)] /\
    (forwardPair pool ≠ reversePair pool ->
     recordsOf (Address pool) (bucket (forwardPair pool) (priceCache st'))
     = [mkPriceInfo dex (Address pool) price logPrice (nowForward clk)]).
Proof.
  intros Huniq Hret.
  destruct (updatePriceCache_Returned _ _ _ _ _ _ _ Hret)
    as (logPrice & reversePrice & Hlog & Hquo & Hpc & _).
  simpl in Hpc. exists logPrice, reversePrice.
  split; [done|]. split; [done|]. rewrite Hpc. split.
  - rewrite bucket_putRecord_eq. apply recordsOf_put; [done|].
    by apply uniquePools_putRecord.
  - intros Hkeys. rewrite bucket_putRecord_ne by done.
    rewrite bucket_putRecord_eq. by apply recordsOf_put.
Qed.

(** C4. In every state the process reaches, no bucket holds two records with
    the same pool address.  An update removes the record of its pool and
    appends the new one: after it, the bucket of the reverse key holds
    exactly one record of the pool, the new reverse record, and the bucket
    of the forward key exactly one, the new forward record (when the two
    keys of the pool are the same key, the one bucket holds the reverse
    record alone).  The update does return, to a state of the same kind,
    for every price without sign bit.  And after any sequence of updates
    that returned, the one record a pool has in the bucket of its key is
    the record of its latest update: of the last update of the sequence
    made at the address of the pool, whatever the number of updates the
    pool made before it and whatever other pools reported after it. *)
Theorem buckets_hold_one_record_per_pool ln64 st :
  reachable ln64 st ->
  (forall k, NoDup (poolAddrs (bucket k (priceCache st)))) /\
  (forall clk pool price dex st',
     updatePriceCache ln64 clk pool price dex st = Returned st' ->
     (forall k, NoDup (poolAddrs (bucket k (priceCache st')))) /\
     exists logPrice reversePrice,
       logOf ln64 price = Some logPrice /\
       BigFloat.Quo Float64.NewFloat_1 price = Some reversePrice /\
       recordsOf (Address pool) (bucket (reversePair pool) (priceCache st'))
       = [mkPriceInfo dex (Address pool) reversePrice (BigFloat.Neg logPrice)
            (nowReverse clk)] /\
       (forwardPair pool ≠ reversePair pool ->
        recordsOf (Address pool) (bucket (forwardPair pool) (priceCache st'))
        = [mkPriceInfo dex (Address pool) price logPrice (nowForward clk)])) /\
  (forall clk pool price dex,
     Signbit (val price) = false ->
     exists st',
       updatePriceCache ln64 clk pool price dex st = Returned st' /\
       reachable ln64 st') /\
  (forall us1 u us2 st',
     updateAll ln64 (us1 ++ u :: us2) st = Returned st' ->
     (forall v, v ∈ us2 -> Address (poolOf v) ≠ Address (poolOf u)) ->
     (forall k, NoDup (poolAddrs (bucket k (priceCache st')))) /\
     exists logPrice reversePrice,
       logOf ln64 (priceOf u) = Some logPrice /\
       BigFloat.Quo Float64.NewFloat_1 (priceOf u) = Some reversePrice /\
       recordsOf (Address (poolOf u))
         (bucket (reversePair (poolOf u)) (priceCache st'))
       = [mkPriceInfo (dexOf u) (Address (poolOf u)) reversePrice
            (BigFloat.Neg logPrice) (nowReverse (clockOf u))] /\
       (forwardPair (poolOf u) ≠ reversePair (poolOf u) ->
        recordsOf (Address (poolOf u))
          (bucket (forwardPair (poolOf u)) (priceCache st'))
        = [mkPriceInfo (dexOf u) (Address (poolOf u)) (priceOf u) logPrice
             (nowForward (clockOf u))])).
Proof.
  intros Hreach. split; [exact (reachable_uniquePools _ _ Hreach)|].
  split; [|split].
  - intros clk pool price dex st' Hret. split.
    + apply (reachable_uniquePools ln64 st').
      by apply (reachable_update ln64 clk pool price dex st).
    + apply (update_recordsOf_own ln64 clk pool price dex st st');
        [|done]. exact (reachable_uniquePools _ _ Hreach).
  - intros clk pool price dex Hs.
    destruct (update_returns_not_negative ln64 clk pool price dex st Hs)
      as [st' Hret].
    exists st'. split; [done|]. by eapply reachable_update.
  - intros us1 u us2 st' Hrun Hother.
    destruct (updateAll_split _ _ _ _ _ Hrun) as (s1 & H1 & H2).
    destruct (updateAll_cons _ _ _ _ _ H2) as (s2 & Hupd & Hrest).
    pose proof (updateAll_reachable _ _ _ _ Hreach H1) as Hr1.
    split.
    + apply (reachable_uniquePools ln64 st').
      by apply (updateAll_reachable ln64 (us1 ++ u :: us2) st).
    + destruct (update_recordsOf_own ln64 _ _ _ _ s1 s2
                  (reachable_uniquePools _ _ Hr1) Hupd)
        as (logPrice & reversePrice & Hlog & Hquo & Hrev & Hfwd).
      exists logPrice, reversePrice. split; [done|]. split; [done|].
      rewrite !(updateAll_recordsOf_other ln64 us2 s2 st' _ _ Hrest Hother).
      done.
Qed.

(** Four updates from the empty caches: the pool 0xP1 reports 16, the pool
    0xP2 reports 4, 0xP1 reports 1, 0xP2 reports 4 again.  All return; the
    bucket of "A_B" then holds one record of 0xP1, and it carries the
    price 1 and the time 300 of its second report. *)
Lemma buckets_hold_one_record_per_pool_witness :
  reachable log2Floor initCaches /\
  exists st' l1,
    updateAll log2Floor
      ([ExRun.u16; ExRun.u4]
       ++ ExRun.u1 :: [mkUpdate (Ex.at_ 400) Ex.P2 Ex.p4 "uniswap"])
      initCaches
    = Returned st' /\
    logOf log2Floor Ex.p1 = Some l1 /\
    NoDup (poolAddrs (bucket "A_B" (priceCache st'))) /\
    length (bucket "A_B" (priceCache st')) = 2%nat /\
    recordsOf "0xP1" (bucket "A_B" (priceCache st'))
    = [mkPriceInfo "uniswap" "0xP1" Ex.p1 l1 300].
Proof.
  split; [apply reachable_init|].
  assert (Hrun : exists st',
             updateAll log2Floor
               ([ExRun.u16; ExRun.u4]
                ++ ExRun.u1 :: [mkUpdate (Ex.at_ 400) Ex.P2 Ex.p4 "uniswap"])
               initCaches = Returned st') by (eexists; reflexivity).
  destruct Hrun as [st' Hrun].
  assert (Hother : forall v,
            v ∈ [mkUpdate (Ex.at_ 400) Ex.P2 Ex.p4 "uniswap"] ->
            Address (poolOf v) ≠ Address (poolOf ExRun.u1)).
  { intros v Hv. apply list_elem_of_singleton in Hv as ->.
    vm_compute. discriminate. }
  destruct (proj2 (proj2 (proj2
              (buckets_hold_one_record_per_pool log2Floor initCaches
                 (reachable_init log2Floor))))
              [ExRun.u16; ExRun.u4] ExRun.u1
              [mkUpdate (Ex.at_ 400) Ex.P2 Ex.p4 "uniswap"] st' Hrun Hother)
    as (Hnd & l1 & r1 & Hlog & _ & _ & Hfwd).
  exists st', l1. split; [exact Hrun|]. split; [exact Hlog|].
  split; [exact (Hnd "A_B"%string)|]. split.
  - assert (E : forall s,
              updateAll log2Floor
                ([ExRun.u16; ExRun.u4]
                 ++ ExRun.u1 :: [mkUpdate (Ex.at_ 400) Ex.P2 Ex.p4 "uniswap"])
                initCaches = Returned s ->
              length (bucket "A_B" (priceCache s)) = 2%nat)
      by (intros s [= <-]; reflexivity).
    exact (E st' Hrun).
  - apply Hfwd. vm_compute. discriminate.
Defined.
